(** * FootballData: play-by-play event extraction and weekly aggregation

    A shallow embedding of [process_comprehensive_data.py] (the Event
    Extractor) and [create_weekly_aggregation.py] (the Weekly Aggregator),
    followed by the properties of the two stages.

    Conventions of the embedding.
    - A Python [str] is a [string]; its characters are the 8-bit code points
      of [ascii].  All text functions are exact on ASCII text; for the code
      points 128..255 they follow Python on Latin-1 (white space 133 and 160,
      lower-casing of 192..222), except that the three characters whose
      upper-case form leaves the 8-bit range (181, 223, 255) are left
      unchanged by [upper].
    - A JSON document is a [json] tree; a Python [dict] with string keys is
      [JObj] over an association list in insertion order.
    - A Python call that can raise returns [option]: [None] is the raised
      exception.  A Python [Optional] value is an [option] as well; where a
      function can both raise and return [None] the result is nested. *)

From Stdlib Require Import ZArith Ascii String List Lia Bool.
From stdpp Require Import base option list strings gmap.

Local Open Scope string_scope.
Local Open Scope Z_scope.
Local Open Scope list_scope.

(** ** Characters *)

Definition code (c : ascii) : N := N_of_ascii c.

Definition in_range (lo hi c : ascii) : bool :=
  ((code lo <=? code c) && (code c <=? code hi))%N.

(** [str.isspace] on one character, which is also the class [\s]. *)
Definition is_space (c : ascii) : bool :=
  let n := code c in
  (((9 <=? n) && (n <=? 13)) || ((28 <=? n) && (n <=? 32))
   || (n =? 133) || (n =? 160))%N.

(** The class [\d]. *)
Definition is_digit (c : ascii) : bool := in_range "0" "9" c.

Definition is_upper_az (c : ascii) : bool := in_range "A" "Z" c.
Definition is_lower_az (c : ascii) : bool := in_range "a" "z" c.
Definition is_letter (c : ascii) : bool := is_upper_az c || is_lower_az c.

Definition lower_char (c : ascii) : ascii :=
  let n := code c in
  if (((65 <=? n) && (n <=? 90))
      || ((192 <=? n) && (n <=? 222) && negb (n =? 215)))%N
  then ascii_of_N (n + 32) else c.

Definition upper_char (c : ascii) : ascii :=
  let n := code c in
  if (((97 <=? n) && (n <=? 122))
      || ((224 <=? n) && (n <=? 254) && negb (n =? 247)))%N
  then ascii_of_N (n - 32) else c.

(** ** Python string operations, on lists of characters *)

Abbreviation chars := (list ascii).

Definition lower (s : chars) : chars := map lower_char s.
Definition upper (s : chars) : chars := map upper_char s.

Fixpoint starts_with (p s : chars) : bool :=
  match p, s with
  | [], _ => true
  | a :: p', b :: s' => Ascii.eqb a b && starts_with p' s'
  | _ :: _, [] => false
  end.

(** [needle in s] *)
Fixpoint contains (needle s : chars) : bool :=
  starts_with needle s ||
  match s with
  | [] => false
  | _ :: s' => contains needle s'
  end.

(** [s.lstrip()], [s.rstrip()], [s.strip()] *)
Fixpoint lstrip (s : chars) : chars :=
  match s with
  | c :: s' => if is_space c then lstrip s' else s
  | [] => []
  end.

Definition rstrip (s : chars) : chars := rev (lstrip (rev s)).
Definition strip (s : chars) : chars := rstrip (lstrip s).

(** [re.sub(r'\s+', ' ', s)]: every maximal run of white space becomes one
    blank.  [in_run] tells whether the previous character was white space. *)
Fixpoint sub_spaces_from (in_run : bool) (s : chars) : chars :=
  match s with
  | [] => []
  | c :: s' =>
      if is_space c
      then if in_run then sub_spaces_from true s'
           else " "%char :: sub_spaces_from true s'
      else c :: sub_spaces_from false s'
  end.

Definition sub_spaces (s : chars) : chars := sub_spaces_from false s.

(** [s.replace(' ', '_')] *)
Definition replace_char (a b : ascii) (s : chars) : chars :=
  map (fun c => if Ascii.eqb c a then b else c) s.

(** [s.replace(old, new)] for a non-empty [old]; [fuel] bounds the scan and
    [length s] is always enough. *)
Fixpoint replace_from (fuel : nat) (old new s : chars) : chars :=
  match fuel with
  | O => s
  | S fuel' =>
      match s with
      | [] => []
      | c :: s' =>
          if starts_with old s
          then new ++ replace_from fuel' old new (drop (length old) s)
          else c :: replace_from fuel' old new s'
      end
  end.

Definition replace (old new s : chars) : chars :=
  replace_from (length s) old new s.

(** [s.split(sep)] for a one-character separator. *)
Fixpoint split_on (sep : ascii) (s : chars) : list chars :=
  match s with
  | [] => [[]]
  | c :: s' =>
      if Ascii.eqb c sep then [] :: split_on sep s'
      else match split_on sep s' with
           | w :: ws => (c :: w) :: ws
           | [] => [[c]]
           end
  end.

(** Decimal digits. *)
Definition digit_val (c : ascii) : Z := Z.of_N (code c) - 48.

Definition digits_val (s : chars) : Z :=
  fold_left (fun acc c => 10 * acc + digit_val c) s 0.

Definition digit_char (d : nat) : ascii := ascii_of_nat (48 + d).

Fixpoint nat_digits_from (fuel n : nat) (acc : chars) : chars :=
  match fuel with
  | O => acc
  | S fuel' =>
      let acc' := digit_char (n mod 10) :: acc in
      if (n <? 10)%nat then acc' else nat_digits_from fuel' (n / 10) acc'
  end.

(** [str(n)] for a natural number. *)
Definition nat_digits (n : nat) : chars := nat_digits_from (S n) n [].

(** [str(z)] / [f"{z}"] for an integer. *)
Definition int_str (z : Z) : chars :=
  if z <? 0 then "-"%char :: nat_digits (Z.to_nat (- z))
  else nat_digits (Z.to_nat z).

(** Strings at the interface. *)
Definition chars_of (s : string) : chars := list_ascii_of_string s.
Definition str (s : chars) : string := string_of_list_ascii s.

(** ** Regular expressions

    The fragment of Python's [re] syntax that the two modules use:
    literals, character classes, [^], one capture group, and the
    quantifiers [*], [+] and [*?] applied to a single-character atom.
    Matching is by backtracking in the order of [re]: a greedy quantifier
    tries the longest repetition first, a lazy one the shortest, and
    [re.search] returns the match of the leftmost start position. *)

Inductive item :=
| IChar (c : ascii)
| IRange (lo hi : ascii).

Inductive atom :=
| Chr (c : ascii)              (* a literal or escaped character *)
| Space                        (* \s *)
| Digit                        (* \d *)
| Dot                          (* .  *)
| OneOf (items : list item)    (* [...]  *)
| NoneOf (items : list item).  (* [^...] *)

Inductive regex :=
| Eps
| Bol                          (* ^ *)
| Lit (s : string)             (* a run of literal characters *)
| One (a : atom)
| Star (a : atom)              (* a*  *)
| Plus (a : atom)              (* a+  *)
| LazyStar (a : atom)          (* a*? *)
| Group (r : regex)            (* ( r ), group 1 *)
| Cat (r1 r2 : regex).

Definition seq (rs : list regex) : regex := foldr Cat Eps rs.

Definition in_item (c : ascii) (i : item) : bool :=
  match i with
  | IChar d => Ascii.eqb c d
  | IRange lo hi => in_range lo hi c
  end.

Definition in_items (items : list item) (c : ascii) : bool :=
  existsb (in_item c) items.

(** [ic] is the flag [re.IGNORECASE]: a literal is compared after
    lower-casing, a set is tried on the lower-case and on the upper-case
    form of the character. *)
Definition atom_matches (ic : bool) (a : atom) (c : ascii) : bool :=
  match a with
  | Chr p =>
      if ic then Ascii.eqb (lower_char c) (lower_char p) else Ascii.eqb c p
  | Space => is_space c
  | Digit => is_digit c
  | Dot => negb (Ascii.eqb c "010")
  | OneOf items =>
      if ic then in_items items (lower_char c) || in_items items (upper_char c)
      else in_items items c
  | NoneOf items =>
      negb (if ic
            then in_items items (lower_char c) || in_items items (upper_char c)
            else in_items items c)
  end.

(** The state of a match: the position reached, the text still to read and
    the text captured by group 1. *)
Record mstate := MkSt { pos : nat; rest : chars; grp : option chars }.

Definition cont (R : Type) := mstate -> option R.

Fixpoint lit_match {R} (ic : bool) (p : chars) (n : nat) (s : chars)
    (g : option chars) (k : cont R) : option R :=
  match p with
  | [] => k (MkSt n s g)
  | a :: p' =>
      match s with
      | c :: s' =>
          if atom_matches ic (Chr a) c then lit_match ic p' (S n) s' g k
          else None
      | [] => None
      end
  end.

Fixpoint greedy {R} (p : ascii -> bool) (n : nat) (s : chars)
    (g : option chars) (k : cont R) : option R :=
  match s with
  | c :: s' =>
      if p c
      then match greedy p (S n) s' g k with
           | Some r => Some r
           | None => k (MkSt n s g)
           end
      else k (MkSt n s g)
  | [] => k (MkSt n [] g)
  end.

Fixpoint lazy {R} (p : ascii -> bool) (n : nat) (s : chars)
    (g : option chars) (k : cont R) : option R :=
  match k (MkSt n s g) with
  | Some r => Some r
  | None =>
      match s with
      | c :: s' => if p c then lazy p (S n) s' g k else None
      | [] => None
      end
  end.

Fixpoint rmatch {R} (ic : bool) (r : regex) (st : mstate) (k : cont R)
    : option R :=
  match r with
  | Eps => k st
  | Bol => if Nat.eqb (pos st) 0 then k st else None
  | Lit s => lit_match ic (chars_of s) (pos st) (rest st) (grp st) k
  | One a =>
      match rest st with
      | c :: s' =>
          if atom_matches ic a c then k (MkSt (S (pos st)) s' (grp st))
          else None
      | [] => None
      end
  | Star a => greedy (atom_matches ic a) (pos st) (rest st) (grp st) k
  | Plus a =>
      match rest st with
      | c :: s' =>
          if atom_matches ic a c
          then greedy (atom_matches ic a) (S (pos st)) s' (grp st) k
          else None
      | [] => None
      end
  | LazyStar a => lazy (atom_matches ic a) (pos st) (rest st) (grp st) k
  | Group r' =>
      rmatch ic r' st (fun st' =>
        k (MkSt (pos st') (rest st')
             (Some (take (length (rest st) - length (rest st')) (rest st)))))
  | Cat r1 r2 => rmatch ic r1 st (fun st' => rmatch ic r2 st' k)
  end.

(** [re.search]: the first start position, from the left, at which the
    pattern matches; the result is the final state of that match. *)
Fixpoint search_from (ic : bool) (r : regex) (n : nat) (s : chars)
    : option mstate :=
  match rmatch ic r (MkSt n s None) Some with
  | Some m => Some m
  | None =>
      match s with
      | [] => None
      | _ :: s' => search_from ic r (S n) s'
      end
  end.

Definition re_search (ic : bool) (r : regex) (s : chars) : option mstate :=
  search_from ic r 0 s.

(** [match.group(1)]; every pattern below has its group on every path, so
    a successful match always carries it. *)
Definition group1 (m : mstate) : chars := default [] (grp m).

(** ** JSON values and the Python operations on them *)

#[warnings="-register-all"]
Inductive json :=
| JNull
| JBool (b : bool)
| JNum (n : Z)
| JStr (s : string)
| JArr (xs : list json)
| JObj (kvs : list (string * json)).

Abbreviation dict := (list (string * json)).

(** [d[k]] as a lookup, and the assignment [d[k] = v]: the value of a key
    already present is replaced in place, a new key goes to the end. *)
Fixpoint dict_get (k : string) (d : dict) : option json :=
  match d with
  | [] => None
  | (k', v) :: d' => if String.eqb k k' then Some v else dict_get k d'
  end.

Fixpoint dict_set (k : string) (v : json) (d : dict) : dict :=
  match d with
  | [] => [(k, v)]
  | (k', v') :: d' =>
      if String.eqb k k' then (k, v) :: d' else (k', v') :: dict_set k v d'
  end.

Fixpoint dict_remove (k : string) (d : dict) : dict :=
  match d with
  | [] => []
  | (k', v) :: d' =>
      if String.eqb k k' then dict_remove k d' else (k', v) :: dict_remove k d'
  end.

(** [o.get(k, dflt)]; raises on anything but a dict. *)
Definition py_get (o : json) (k : string) (dflt : json) : option json :=
  match o with
  | JObj d => Some (default dflt (dict_get k d))
  | _ => None
  end.

(** Python truthiness. *)
Definition truthy (v : json) : bool :=
  match v with
  | JNull => false
  | JBool b => b
  | JNum n => negb (n =? 0)
  | JStr s => negb (String.eqb s "")
  | JArr xs => match xs with [] => false | _ => true end
  | JObj d => match d with [] => false | _ => true end
  end.

(** [for x in v]: a list gives its elements, a dict its keys, a string its
    characters; anything else raises. *)
Definition py_iter (v : json) : option (list json) :=
  match v with
  | JArr xs => Some xs
  | JObj d => Some (map (fun kv => JStr (fst kv)) d)
  | JStr s => Some (map (fun c => JStr (String c EmptyString)) (chars_of s))
  | _ => None
  end.

(** [len(v)] *)
Definition py_len (v : json) : option nat :=
  match v with
  | JArr xs => Some (length xs)
  | JObj d => Some (length d)
  | JStr s => Some (length (chars_of s))
  | _ => None
  end.

(** The receiver of a string method such as [.lower()] or [.replace()]. *)
Definition as_str (v : json) : option string :=
  match v with
  | JStr s => Some s
  | _ => None
  end.

(** [int(v)]: an integer is itself, a boolean 0 or 1, a string is read as
    an optionally signed decimal numeral surrounded by white space (the
    underscores Python allows between digits are not modelled). *)
Definition int_of_chars (s : chars) : option Z :=
  let t := strip s in
  let '(neg, ds) :=
    match t with
    | c :: t' =>
        if Ascii.eqb c "-" then (true, t')
        else if Ascii.eqb c "+" then (false, t') else (false, t)
    | [] => (false, t)
    end in
  match ds with
  | [] => None
  | _ => if forallb is_digit ds
         then Some (if neg then - digits_val ds else digits_val ds)
         else None
  end.

Definition py_int (v : json) : option Z :=
  match v with
  | JNum n => Some n
  | JBool b => Some (if b then 1 else 0)
  | JStr s => int_of_chars (chars_of s)
  | _ => None
  end.

(** [a == b] between JSON scalars as Python compares them ([True == 1]). *)
Definition py_eq (a b : json) : bool :=
  match a, b with
  | JNull, JNull => true
  | JStr s, JStr t => String.eqb s t
  | JNum m, JNum n => m =? n
  | JBool x, JBool y => Bool.eqb x y
  | JBool x, JNum n | JNum n, JBool x => (if x then 1 else 0) =? n
  | _, _ => false
  end.

(** Values that can be members of a [set]. *)
Definition hashable (v : json) : bool :=
  match v with
  | JArr _ | JObj _ => false
  | _ => true
  end.

(** ** The Event Extractor ([process_comprehensive_data.py]) *)

Module Extractor.

(** The name token [[A-Z]\.\s*[A-Za-z'\-]+] shared by the seven patterns. *)
Definition name_token : regex :=
  seq [One (OneOf [IRange "A" "Z"]); One (Chr "."); Star Space;
       Plus (OneOf [IRange "A" "Z"; IRange "a" "z"; IChar "'"; IChar "-"])].

Definition touchdown_patterns : list regex :=
  [ (* pass.*?to\s+(NAME).*?touchdown *)
    seq [Lit "pass"; LazyStar Dot; Lit "to"; Plus Space; Group name_token;
         LazyStar Dot; Lit "touchdown"];
    (* (NAME)\s+\d+\s+yard.*?run.*?touchdown *)
    seq [Group name_token; Plus Space; Plus Digit; Plus Space; Lit "yard";
         LazyStar Dot; Lit "run"; LazyStar Dot; Lit "touchdown"];
    (* (NAME).*?touchdown *)
    seq [Group name_token; LazyStar Dot; Lit "touchdown"] ].

Definition interception_patterns : list regex :=
  [ (* intercepted.*?by\s+(NAME) *)
    seq [Lit "intercepted"; LazyStar Dot; Lit "by"; Plus Space;
         Group name_token];
    (* (NAME).*?intercept *)
    seq [Group name_token; LazyStar Dot; Lit "intercept"] ].

Definition fumble_patterns : list regex :=
  [ (* (NAME).*?fumble *)
    seq [Group name_token; LazyStar Dot; Lit "fumble"];
    (* fumble.*?by\s+(NAME) *)
    seq [Lit "fumble"; LazyStar Dot; Lit "by"; Plus Space; Group name_token] ].

Definition patterns_for (play_type : string) : option (list regex) :=
  if String.eqb play_type "touchdown" then Some touchdown_patterns
  else if String.eqb play_type "interception" then Some interception_patterns
  else if String.eqb play_type "fumble" then Some fumble_patterns
  else None.

(** The loop over the patterns: the first one that matches decides. *)
Fixpoint first_match (patterns : list regex) (text : chars) : option chars :=
  match patterns with
  | [] => None
  | pattern :: more =>
      match re_search true pattern text with
      | Some m => Some (sub_spaces (strip (group1 m)))
      | None => first_match more text
      end
  end.

Definition extract_player_from_play_text (play_text play_type : string)
    : option string :=
  if String.eqb play_text "" then None
  else match patterns_for play_type with
       | Some patterns => str <$> first_match patterns (chars_of play_text)
       | None => None
       end.

(** [_extract_scoring_plays] *)
Fixpoint scoring_loop (plays : list json) : option (list json) :=
  match plays with
  | [] => Some []
  | play :: more =>
      flag ← py_get play "scoring_play" (JBool false);
      rest ← scoring_loop more;
      Some (if truthy flag then play :: rest else rest)
  end.

Definition _extract_scoring_plays (plays : json) : option (list json) :=
  py_iter plays ≫= scoring_loop.

(** The body shared by [_extract_touchdowns], [_extract_interceptions] and
    [_extract_fumbles], which differ in the keyword looked for and in the
    play type handed to the name inference. *)
Definition tag_play (play_type : string) (play : json) (text : string)
    : option json :=
  match play with
  | JObj fields =>                                   (* play.copy() *)
      match extract_player_from_play_text text play_type with
      | Some player =>
          if truthy (JStr player)
          then Some (JObj (dict_set "player" (JStr player) fields))
          else Some (JObj fields)
      | None => Some (JObj fields)
      end
  | _ => None
  end.

Fixpoint events_loop (keyword play_type : string) (plays : list json)
    : option (list json) :=
  match plays with
  | [] => Some []
  | play :: more =>
      text ← py_get play "text" (JStr "") ≫= as_str;
      if contains (chars_of keyword) (lower (chars_of text))
      then tagged ← tag_play play_type play text;
           rest ← events_loop keyword play_type more;
           Some (tagged :: rest)
      else events_loop keyword play_type more
  end.

Definition _extract_touchdowns (plays : json) : option (list json) :=
  py_iter plays ≫= events_loop "touchdown" "touchdown".

Definition _extract_interceptions (plays : json) : option (list json) :=
  py_iter plays ≫= events_loop "intercept" "interception".

Definition _extract_fumbles (plays : json) : option (list json) :=
  py_iter plays ≫= events_loop "fumble" "fumble".

(** [_create_team_stats]; the abbreviation becomes a key of the dict, and
    only string keys are modelled. *)
Fixpoint team_stats_loop (teams : list json) (team_stats : dict)
    : option dict :=
  match teams with
  | [] => Some team_stats
  | team :: more =>
      abbr ← py_get team "abbreviation" (JStr "UNK") ≫= as_str;
      score ← py_get team "score" (JNum 0) ≫= py_int;
      home_away ← py_get team "home_away" (JStr "unknown");
      team_stats_loop more
        (dict_set abbr
           (JObj [("score", JNum score); ("record", JStr "0-0");
                  ("home_away", home_away)])
           team_stats)
  end.

Definition _create_team_stats (game_info : json) : option json :=
  teams ← py_get game_info "teams" (JArr []) ≫= py_iter;
  JObj <$> team_stats_loop teams [].

(** [Path(name).stem]: the name without its last suffix. *)
Fixpoint rfind_from (c : ascii) (s : chars) (i : nat) (found : option nat)
    : option nat :=
  match s with
  | [] => found
  | x :: s' => rfind_from c s' (S i) (if Ascii.eqb x c then Some i else found)
  end.

Definition path_stem (name : chars) : chars :=
  match rfind_from "." name 0 None with
  | Some i =>
      if ((0 <? i)%nat && (i <? length name - 1)%nat)%bool then take i name
      else name
  | None => name
  end.

(** [process_play_by_play_file].  [file_name] is the name of the source
    file, [content] what [json.load] reads from it ([None] when the file
    cannot be read or parsed) and [now] the value of
    [datetime.now().isoformat()] at the time of the call.  The result is
    [None] both for a record without game id and for any exception. *)
Definition process_play_by_play_file (now : string) (file_name : string)
    (content : option json) : option json :=
  data ← content;
  game_info ← py_get data "game_info" (JObj []);
  drives ← py_get data "drives" (JArr []);
  plays ← py_get data "plays" (JArr []);
  game_id ← py_get game_info "game_id" JNull;
  if negb (truthy game_id) then None
  else
    let date := hd [] (split_on "_" (path_stem (chars_of file_name))) in
    gi_date ← py_get game_info "date" (JStr "");
    gi_status ← py_get game_info "status" (JObj []);
    gi_venue ← py_get game_info "venue" (JObj []);
    team_stats ← _create_team_stats game_info;
    scoring_plays ← _extract_scoring_plays plays;
    touchdowns ← _extract_touchdowns plays;
    interceptions ← _extract_interceptions plays;
    fumbles ← _extract_fumbles plays;
    Some (JObj
      [("game_id", game_id);
       ("date", JStr (str date));
       ("box_score", JObj
          [("game_info", JObj
              [("game_id", game_id); ("date", gi_date);
               ("status", gi_status); ("venue", gi_venue);
               ("attendance", JNum 0)]);
           ("team_stats", team_stats);
           ("player_stats", JObj []);
           ("scoring_summary", JArr [])]);
       ("play_by_play", JObj
          [("game_info", game_info);
           ("drives", drives);
           ("plays", plays);
           ("scoring_plays", JArr scoring_plays);
           ("touchdowns", JArr touchdowns);
           ("interceptions", JArr interceptions);
           ("fumbles", JArr fumbles)]);
       ("processing_timestamp", JStr now)]).

(** *** The batch run

    The play-by-play directory is a list of source files, the comprehensive
    directory a map from file names to the files written so far.  The
    environment gives, for the source file being handled, the clock reading
    stamped into its record, the modification time its output receives and
    whether the output can be written. *)

Record source_file := SourceFile {
  src_name : string;
  src_mtime : Z;
  src_content : option json
}.

Record output_file := OutputFile {
  out_mtime : Z;
  out_content : json
}.

Record environment := Environment {
  now_iso : string -> string;
  now_mtime : string -> Z;
  can_write : string -> bool
}.

Record processor := Processor {
  comprehensive_dir : gmap string output_file;
  processed_count : nat;
  failed_count : nat
}.

Definition ends_with (suffix s : chars) : bool :=
  starts_with (rev suffix) (rev s).

(** [glob(pattern)] for the two patterns [process_recent_files] builds,
    [<date_pattern>*_play_by_play.json] and [*_play_by_play.json]; a date
    pattern is taken to be free of glob wildcards. *)
Definition glob_matches (date_pattern : option string) (name : string)
    : bool :=
  let n := chars_of name in
  let prefix := chars_of (default "" date_pattern) in
  starts_with prefix n
  && ends_with (chars_of "_play_by_play.json") (drop (length prefix) n).

Fixpoint insert_sorted (f : source_file) (fs : list source_file)
    : list source_file :=
  match fs with
  | [] => [f]
  | g :: fs' =>
      if String.leb (src_name f) (src_name g) then f :: fs
      else g :: insert_sorted f fs'
  end.

Definition sort_files (fs : list source_file) : list source_file :=
  foldr insert_sorted [] fs.

Definition comprehensive_name (file_name : string) : string :=
  str (replace (chars_of "_play_by_play") (chars_of "_complete")
         (path_stem (chars_of file_name)) ++ chars_of ".json").

(** The freshness gate: the output exists and is strictly newer. *)
Definition is_fresh (self : processor) (f : source_file) : bool :=
  match comprehensive_dir self !! comprehensive_name (src_name f) with
  | Some out => out_mtime out >? src_mtime f
  | None => false
  end.

(** One turn of the loop of [process_recent_files]. *)
Definition process_one (env : environment) (self : processor)
    (f : source_file) : processor :=
  let target := comprehensive_name (src_name f) in
  if is_fresh self f then self                         (* continue *)
  else
    match process_play_by_play_file (now_iso env (src_name f)) (src_name f)
            (src_content f) with
    | Some comprehensive =>
        if can_write env target
        then Processor
               (<[target := OutputFile (now_mtime env (src_name f))
                                       comprehensive]>
                  (comprehensive_dir self))
               (S (processed_count self)) (failed_count self)
        else Processor (comprehensive_dir self) (processed_count self)
               (S (failed_count self))
    | None =>
        Processor (comprehensive_dir self) (processed_count self)
          (S (failed_count self))
    end.

Record run_result := RunResult {
  processed : nat;
  failed : nat;
  total : nat
}.

Definition files_to_process (date_pattern : option string)
    (play_by_play_dir : list source_file) : list source_file :=
  sort_files (filter (fun f => glob_matches date_pattern (src_name f))
                play_by_play_dir).

Definition process_recent_files (env : environment) (self : processor)
    (play_by_play_dir : list source_file) (date_pattern : option string)
    : processor * run_result :=
  (* [if date_pattern:] an empty pattern selects every file as well *)
  let date_pattern :=
    match date_pattern with
    | Some p => if String.eqb p "" then None else Some p
    | None => None
    end in
  let files := files_to_process date_pattern play_by_play_dir in
  let self' := foldl (process_one env) self files in
  (self', RunResult (processed_count self') (failed_count self')
            (length files)).

(** The command line: [--date-pattern] and [--all]. *)
Record arguments := Arguments_ {
  arg_date_pattern : option string;
  arg_all : bool
}.

(** [main]: the state left behind and the exit status of the process. *)
Definition main (env : environment) (args : arguments)
    (play_by_play_dir : list source_file)
    (existing : gmap string output_file) : processor * Z :=
  let processor := Processor existing 0 0 in
  let date_pattern :=
    match arg_date_pattern args with
    | Some p => if String.eqb p "" then None else Some p
    | None => None
    end in
  let date_pattern := if arg_all args then None else date_pattern in
  let '(processor', result) :=
    process_recent_files env processor play_by_play_dir date_pattern in
  (processor', if (0 <? failed result)%nat then 1 else 0).

End Extractor.

(** ** The Weekly Aggregator ([create_weekly_aggregation.py]) *)

Module Aggregator.

(** [self.week_ranges], in the order of the dict literal. *)
Definition week_ranges : list (Z * (string * string)) :=
  [ (1, ("2025-08-01", "2025-08-11"));
    (2, ("2025-08-12", "2025-08-18"));
    (3, ("2025-08-19", "2025-08-25"));
    (4, ("2025-08-26", "2025-08-31")) ].

(** *** Dates: [datetime.strptime(s, '%Y-%m-%d')]

    The three fields are those of the regular expression [strptime] builds
    for this format: a year of four digits, a month [1[0-2]|0[1-9]|[1-9]]
    and a day [3[0-1]|[1-2]\d|0[1-9]|[1-9]| [1-9]]; the whole string has to
    be consumed and the date has to exist. *)

Record date := Date { year : Z; month : Z; day : Z }.

Definition date_le (a b : date) : bool :=
  (year a <? year b)
  || ((year a =? year b)
      && ((month a <? month b)
          || ((month a =? month b) && (day a <=? day b)))).

Definition is_leap (y : Z) : bool :=
  (y mod 4 =? 0) && (negb (y mod 100 =? 0) || (y mod 400 =? 0)).

Definition days_in_month (y m : Z) : Z :=
  if m =? 2 then (if is_leap y then 29 else 28)
  else if (m =? 4) || (m =? 6) || (m =? 9) || (m =? 11) then 30
  else 31.

Definition parse_year (s : chars) : option Z :=
  match s with
  | [a; b; c; d] => if forallb is_digit s then Some (digits_val s) else None
  | _ => None
  end.

Definition parse_month (s : chars) : option Z :=
  match s with
  | [a; b] =>
      if (Ascii.eqb a "1" && in_range "0" "2" b)
         || (Ascii.eqb a "0" && in_range "1" "9" b)
      then Some (digits_val s) else None
  | [a] => if in_range "1" "9" a then Some (digits_val s) else None
  | _ => None
  end.

Definition parse_day (s : chars) : option Z :=
  match s with
  | [a; b] =>
      if (Ascii.eqb a "3" && in_range "0" "1" b)
         || (in_range "1" "2" a && is_digit b)
         || (Ascii.eqb a "0" && in_range "1" "9" b)
      then Some (digits_val s)
      else if Ascii.eqb a " " && in_range "1" "9" b
      then Some (digit_val b) else None
  | [a] => if in_range "1" "9" a then Some (digits_val s) else None
  | _ => None
  end.

Definition strptime (s : chars) : option date :=
  match split_on "-" s with
  | [ys; ms; ds] =>
      y ← parse_year ys;
      m ← parse_month ms;
      d ← parse_day ds;
      if (1 <=? y) && (d <=? days_in_month y m) then Some (Date y m d)
      else None
  | _ => None
  end.

(** [get_week_for_date]: the outer [option] is the [ValueError] of
    [strptime], the inner one the [None] returned after the loop. *)
Fixpoint week_loop (ranges : list (Z * (string * string))) (date_obj : date)
    : option (option Z) :=
  match ranges with
  | [] => Some None
  | (week, (start_date, end_date)) :: more =>
      start_obj ← strptime (chars_of start_date);
      end_obj ← strptime (chars_of end_date);
      if date_le start_obj date_obj && date_le date_obj end_obj
      then Some (Some week)
      else week_loop more date_obj
  end.

Definition get_week_for_date (date_str : string) : option (option Z) :=
  date_obj ← strptime (chars_of date_str);
  week_loop week_ranges date_obj.

(** *** Text helpers *)

(** [(\d+)\s*yard], searched in the lower-cased text. *)
Definition yards_pattern : regex :=
  seq [Group (Plus Digit); Star Space; Lit "yard"].

Definition _extract_yards_from_text (text : chars) : Z :=
  match re_search false yards_pattern (lower text) with
  | Some m => digits_val (group1 m)
  | None => 0
  end.

(** [^\([^)]*\)\s*([A-Z]\.[A-Za-z]+)\s+pass], case-sensitive. *)
Definition passer_pattern : regex :=
  seq [Bol; One (Chr "("); Star (NoneOf [IChar ")"]); One (Chr ")");
       Star Space;
       Group (seq [One (OneOf [IRange "A" "Z"]); One (Chr ".");
                   Plus (OneOf [IRange "A" "Z"; IRange "a" "z"])]);
       Plus Space; Lit "pass"].

Definition _extract_passer_from_text (text : chars) : option chars :=
  match re_search false passer_pattern text with
  | Some m => Some (group1 m)
  | None => None
  end.

(** [v[0]] *)
Definition py_first (v : json) : option json :=
  match v with
  | JArr (x :: _) => Some x
  | JStr (String c _) => Some (JStr (String c EmptyString))
  | _ => None
  end.

(** [_extract_team_from_play]; the play itself is not looked at. *)
Definition _extract_team_from_play (play comprehensive_data : json)
    : option json :=
  box_score ← py_get comprehensive_data "box_score" (JObj []);
  team_stats ← py_get box_score "team_stats" (JObj []);
  n ← py_len team_stats;
  if (2 <=? n)%nat then
    match team_stats with
    | JObj ((first_key, _) :: _) =>                 (* list(keys())[0] *)
        game_info ← py_get box_score "game_info" (JObj []);
        teams ← py_get game_info "teams" (JArr [JObj []]);
        first_team ← py_first teams;
        py_get first_team "name" (JStr first_key)
    | _ => None
    end
  else Some (JStr "Unknown Team").

(** *** Line items *)

Definition player_id (name : string) : json :=
  JStr (str (chars_of "player_" ++ replace_char " " "_" (chars_of name))).

Definition team_abbrev (team : string) : json :=
  JStr (str (upper (take 3 (chars_of team)))).

Definition passing_item (passer team : string) (yards : Z) : json :=
  JObj [("player_id", player_id passer); ("name", JStr passer);
        ("team", JStr team); ("team_abbrev", team_abbrev team);
        ("completions", JNum 1); ("attempts", JNum 1);
        ("yards", JNum yards); ("touchdowns", JNum 1);
        ("interceptions", JNum 0)].

Definition receiving_item (receiver team : string) (yards : Z) : json :=
  JObj [("player_id", player_id receiver); ("name", JStr receiver);
        ("team", JStr team); ("team_abbrev", team_abbrev team);
        ("receptions", JNum 1); ("yards", JNum yards);
        ("touchdowns", JNum 1)].

Definition rushing_item (player team : string) (yards : Z) : json :=
  JObj [("player_id", player_id player); ("name", JStr player);
        ("team", JStr team); ("team_abbrev", team_abbrev team);
        ("carries", JNum 1); ("yards", JNum yards); ("touchdowns", JNum 1)].

Definition defensive_item (player team : string) : json :=
  JObj [("player_id", player_id player); ("name", JStr player);
        ("team", JStr team); ("team_abbrev", team_abbrev team);
        ("interceptions", JNum 1); ("tackles", JNum 0); ("sacks", JNum 0)].

(** The four lists of [player_stats]. *)
Record stats := Stats {
  passing : list json;
  rushing : list json;
  receiving : list json;
  defensive : list json
}.

Definition no_stats : stats := Stats [] [] [] [].

(** One turn of the loop over the touchdowns: the statistics so far and the
    set [processed_players], kept as the list of its members. *)
Definition touchdown_step (comprehensive_data : json)
    (acc : stats * list json) (td : json) : option (stats * list json) :=
  let '(player_stats, processed_players) := acc in
  player_name ← py_get td "player" JNull;
  if negb (truthy player_name) then Some acc                  (* continue *)
  else if negb (hashable player_name) then None
  else if existsb (py_eq player_name) processed_players then Some acc
  else
    text ← py_get td "text" (JStr "") ≫= as_str;
    let text_lower := lower (chars_of text) in
    team ← _extract_team_from_play td comprehensive_data;
    if contains (chars_of "pass") text_lower
       && contains (chars_of "to") text_lower
    then
      let passer := _extract_passer_from_text (chars_of text) in
      team_name ← as_str team;
      receiver ← as_str player_name;
      let yards := _extract_yards_from_text text_lower in
      let passing' :=
        match passer with
        | Some p =>
            if truthy (JStr (str p))
            then passing player_stats ++ [passing_item (str p) team_name yards]
            else passing player_stats
        | None => passing player_stats
        end in
      Some (Stats passing' (rushing player_stats)
              (receiving player_stats
                 ++ [receiving_item receiver team_name yards])
              (defensive player_stats),
            player_name :: processed_players)
    else if contains (chars_of "run") text_lower
            || contains (chars_of "rush") text_lower
    then
      name ← as_str player_name;
      team_name ← as_str team;
      Some (Stats (passing player_stats)
              (rushing player_stats
                 ++ [rushing_item name team_name
                       (_extract_yards_from_text (chars_of text))])
              (receiving player_stats) (defensive player_stats),
            player_name :: processed_players)
    else Some (player_stats, player_name :: processed_players).

Fixpoint touchdown_loop (comprehensive_data : json) (tds : list json)
    (acc : stats * list json) : option (stats * list json) :=
  match tds with
  | [] => Some acc
  | td :: more =>
      touchdown_step comprehensive_data acc td
        ≫= touchdown_loop comprehensive_data more
  end.

Definition interception_step (comprehensive_data : json)
    (player_stats : stats) (interception : json) : option stats :=
  player_name ← py_get interception "player" JNull;
  if negb (truthy player_name) then Some player_stats
  else
    team ← _extract_team_from_play interception comprehensive_data;
    name ← as_str player_name;
    team_name ← as_str team;
    Some (Stats (passing player_stats) (rushing player_stats)
            (receiving player_stats)
            (defensive player_stats ++ [defensive_item name team_name])).

Fixpoint interception_loop (comprehensive_data : json)
    (interceptions : list json) (player_stats : stats) : option stats :=
  match interceptions with
  | [] => Some player_stats
  | i :: more =>
      interception_step comprehensive_data player_stats i
        ≫= interception_loop comprehensive_data more
  end.

Definition extract_player_stats_from_comprehensive
    (comprehensive_data : json) : option stats :=
  play_by_play ← py_get comprehensive_data "play_by_play" (JObj []);
  touchdowns ← py_get play_by_play "touchdowns" (JArr []);
  interceptions ← py_get play_by_play "interceptions" (JArr []);
  tds ← py_iter touchdowns;
  '(player_stats, _) ← touchdown_loop comprehensive_data tds (no_stats, []);
  ints ← py_iter interceptions;
  interception_loop comprehensive_data ints player_stats.

(** *** Game summaries *)

(** [str(v)] for a scalar; for a list or a dict the rendering of strings
    inside is Python's only when they need no escaping. *)
Fixpoint py_repr (v : json) : chars :=
  match v with
  | JNull => chars_of "None"
  | JBool b => chars_of (if b then "True" else "False")
  | JNum n => int_str n
  | JStr s => chars_of "'" ++ chars_of s ++ chars_of "'"
  | JArr xs =>
      chars_of "["
      ++ (fix items (l : list json) : chars :=
            match l with
            | [] => []
            | [x] => py_repr x
            | x :: l' => py_repr x ++ chars_of ", " ++ items l'
            end) xs
      ++ chars_of "]"
  | JObj d =>
      chars_of "{"
      ++ (fix items (l : dict) : chars :=
            match l with
            | [] => []
            | [(k, x)] =>
                chars_of "'" ++ chars_of k ++ chars_of "': " ++ py_repr x
            | (k, x) :: l' =>
                chars_of "'" ++ chars_of k ++ chars_of "': " ++ py_repr x
                ++ chars_of ", " ++ items l'
            end) d
      ++ chars_of "}"
  end.

Definition py_str (v : json) : string :=
  match v with
  | JStr s => s
  | _ => str (py_repr v)
  end.

(** An entry of the local list [teams]. *)
Record team := Team {
  t_abbreviation : string;
  t_score : Z;
  t_home_away : json
}.

Definition team_json (t : team) : json :=
  JObj [("name", JStr (t_abbreviation t));
        ("abbreviation", JStr (t_abbreviation t));
        ("score", JNum (t_score t));
        ("home_away", t_home_away t)].

Fixpoint teams_loop (items : dict) : option (list team) :=
  match items with
  | [] => Some []
  | (team_abbrev, team_stat) :: more =>
      score ← py_get team_stat "score" (JNum 0) ≫= py_int;
      home_away ← py_get team_stat "home_away" (JStr "unknown");
      rest ← teams_loop more;
      Some (Team team_abbrev score home_away :: rest)
  end.

(** [next((t for t in teams if t.get('home_away') == side), dflt)] *)
Definition side_of (side : string) (teams : list team) : option team :=
  List.find (fun t => py_eq (t_home_away t) (JStr side)) teams.

Definition is_dict (v : json) : bool :=
  match v with
  | JObj _ => true
  | _ => false
  end.

(** The display name of a game with at least two teams. *)
Definition game_name (is_completed : json) (away_team home_team : team)
    : string :=
  if truthy is_completed
     && ((0 <? t_score away_team) || (0 <? t_score home_team))
  then str (chars_of (t_abbreviation away_team) ++ chars_of " "
            ++ int_str (t_score away_team) ++ chars_of ", "
            ++ chars_of (t_abbreviation home_team) ++ chars_of " "
            ++ int_str (t_score home_team))
  else str (chars_of (t_abbreviation away_team) ++ chars_of " @ "
            ++ chars_of (t_abbreviation home_team)).

Definition extract_game_info (comprehensive_data : json) (filename : string)
    : option json :=
  box_score ← py_get comprehensive_data "box_score" (JObj []);
  game_info ← py_get box_score "game_info" (JObj []);
  team_stats ← py_get box_score "team_stats" (JObj []);
  teams ← match team_stats with
          | JObj items => teams_loop items                   (* .items() *)
          | _ => None
          end;
  status_obj ← py_get game_info "status" (JObj []);
  '(game_status, is_completed) ←
    (if is_dict status_obj then
       type_obj ← py_get status_obj "type" (JObj []);
       if is_dict type_obj then
         game_status ← py_get type_obj "description" (JStr "Final");
         is_completed ← py_get type_obj "completed" (JBool false);
         Some (game_status, is_completed)
       else
         game_status ← py_get status_obj "description" (JStr "Final");
         Some (game_status, JBool true)
     else Some (JStr (py_str status_obj), JBool true));
  let name :=
    match teams with
    | first :: second :: _ =>
        let away_team := default first (side_of "away" teams) in
        let home_team := default second (side_of "home" teams) in
        game_name is_completed away_team home_team
    | _ => "Unknown Game"
    end in
  let parts := split_on "_" (chars_of filename) in
  id_default ← parts !! 1%nat;                  (* filename.split('_')[1] *)
  date_default ← parts !! 0%nat;
  id ← py_get comprehensive_data "game_id" (JStr (str id_default));
  date ← py_get comprehensive_data "date" (JStr (str date_default));
  Some (JObj
    [("id", id);
     ("date", date);
     ("name", JStr name);
     ("status", game_status);
     ("completed", is_completed);
     ("home_team",
      match side_of "home" teams with
      | Some t => team_json t
      | None => match teams with
                | first :: _ => team_json first
                | [] => JObj []
                end
      end);
     ("away_team",
      match side_of "away" teams with
      | Some t => team_json t
      | None => match teams with
                | _ :: second :: _ => team_json second
                | _ => JObj []
                end
      end)]).

(** *** The weekly roll-up *)

(** A value of [weekly_data]. *)
Record week_entry := WeekEntry {
  w_week : Z;
  w_season : Z;
  w_games : list json;
  w_player_stats : stats
}.

(** What the [defaultdict] creates for a week seen for the first time. *)
Definition new_week_entry : week_entry := WeekEntry 0 2025 [] no_stats.

(** [weekly_data], in insertion order. *)
Abbreviation weekly := (list (Z * week_entry)).

Fixpoint week_get (week : Z) (weekly_data : weekly) : option week_entry :=
  match weekly_data with
  | [] => None
  | (w, e) :: more => if w =? week then Some e else week_get week more
  end.

Fixpoint week_set (week : Z) (e : week_entry) (weekly_data : weekly)
    : weekly :=
  match weekly_data with
  | [] => [(week, e)]
  | (w, e') :: more =>
      if w =? week then (w, e) :: more else (w, e') :: week_set week e more
  end.

Definition extend_stats (a b : stats) : stats :=
  Stats (passing a ++ passing b) (rushing a ++ rushing b)
        (receiving a ++ receiving b) (defensive a ++ defensive b).

(** What the loop logs for a file. *)
Inductive log_event :=
| LogProcessed (filename : string) (week : Z)          (* info *)
| LogNoWeek (filename : string)                        (* warning *)
| LogError (filename : string).                        (* error *)

(** A file of the comprehensive directory: its name and what [json.load]
    reads from it. *)
Abbreviation comprehensive_file := (string * option json)%type.

(** One turn of the first loop of [aggregate_by_weeks].  An exception leaves
    in [weekly_data] what had been stored before it was raised. *)
Definition aggregate_file (weekly_data : weekly) (f : comprehensive_file)
    : weekly * log_event :=
  let '(filename, content) := f in
  match content with
  | None => (weekly_data, LogError filename)
  | Some data =>
      let date_str := str (hd [] (split_on "_" (chars_of filename))) in
      match get_week_for_date date_str with
      | None => (weekly_data, LogError filename)
      | Some None => (weekly_data, LogNoWeek filename)
      | Some (Some week) =>
          if week =? 0 then (weekly_data, LogNoWeek filename)  (* not week *)
          else
            let e := default new_week_entry (week_get week weekly_data) in
            let e1 := WeekEntry week 2025 (w_games e) (w_player_stats e) in
            match extract_game_info data filename with
            | None => (week_set week e1 weekly_data, LogError filename)
            | Some game_info =>
                let e2 := WeekEntry week 2025 (w_games e ++ [game_info])
                            (w_player_stats e) in
                match extract_player_stats_from_comprehensive data with
                | None => (week_set week e2 weekly_data, LogError filename)
                | Some player_stats =>
                    (week_set week
                       (WeekEntry week 2025 (w_games e ++ [game_info])
                          (extend_stats (w_player_stats e) player_stats))
                       weekly_data,
                     LogProcessed filename week)
                end
            end
      end
  end.

Fixpoint aggregate_files (weekly_data : weekly)
    (files : list comprehensive_file) : weekly * list log_event :=
  match files with
  | [] => (weekly_data, [])
  | f :: more =>
      let '(weekly_data', ev) := aggregate_file weekly_data f in
      let '(final, evs) := aggregate_files weekly_data' more in
      (final, ev :: evs)
  end.

Fixpoint insert_by_name (f : comprehensive_file)
    (fs : list comprehensive_file) : list comprehensive_file :=
  match fs with
  | [] => [f]
  | g :: fs' =>
      if String.leb (fst f) (fst g) then f :: fs else g :: insert_by_name f fs'
  end.

Definition sorted (fs : list comprehensive_file) : list comprehensive_file :=
  foldr insert_by_name [] fs.

Definition week_json (e : week_entry) : json :=
  JObj [("week", JNum (w_week e));
        ("season", JNum (w_season e));
        ("games", JArr (w_games e));
        ("player_stats", JObj
           [("passing", JArr (passing (w_player_stats e)));
            ("rushing", JArr (rushing (w_player_stats e)));
            ("receiving", JArr (receiving (w_player_stats e)));
            ("defensive", JArr (defensive (w_player_stats e)))])].

(** [f"week_{week:02d}_2025.json"] *)
Definition pad2 (week : Z) : chars :=
  match int_str week with
  | [d] => ["0"%char; d]
  | s => s
  end.

Definition week_file_name (week : Z) : string :=
  str (chars_of "week_" ++ pad2 week ++ chars_of "_2025.json").

(** The second loop: one file per week, counted when the write succeeds. *)
Fixpoint save_weeks (can_write : string -> bool) (weekly_data : weekly)
    : list (string * json) * nat :=
  match weekly_data with
  | [] => ([], O)
  | (week, data) :: more =>
      let '(written, saved_count) := save_weeks can_write more in
      if can_write (week_file_name week)
      then ((week_file_name week, week_json data) :: written, S saved_count)
      else (written, saved_count)
  end.

Record aggregation := Aggregation {
  written_files : list (string * json);
  saved_count : nat;
  log : list log_event;
  success : bool
}.

(** [aggregate_by_weeks].  [comprehensive_dir] is [None] when the directory
    does not exist, otherwise the files matching [*_complete.json]. *)
Definition aggregate_by_weeks (can_write : string -> bool)
    (comprehensive_dir : option (list comprehensive_file)) : aggregation :=
  match comprehensive_dir with
  | None => Aggregation [] 0 [] false
  | Some files =>
      let '(weekly_data, events) := aggregate_files [] (sorted files) in
      let '(written, saved_count) := save_weeks can_write weekly_data in
      Aggregation written saved_count events (0 <? saved_count)%nat
  end.

(** [main] and the [exit] that follows it.  The summary written between the
    aggregation and the exit reads the weekly files back and prints counts;
    it does not enter the exit status. *)
Definition main (can_write : string -> bool)
    (comprehensive_dir : option (list comprehensive_file))
    : aggregation * Z :=
  let result := aggregate_by_weeks can_write comprehensive_dir in
  (result, if success result then 0 else 1).


(** *** The summary *)

(** The entry of a week in the summary. *)
Record week_summary := WeekSummary {
  s_games : nat;
  s_player_performances : nat;
  s_categories : list (string * nat)
}.

Record summary := Summary {
  created_at : string;
  s_weeks : list (Z * week_summary);
  total_weeks : nat;
  total_games : nat;
  total_player_performances : nat
}.

(** [sum(len(stats) for stats in d.values())] *)
Fixpoint len_sum (values : list json) : option nat :=
  match values with
  | [] => Some O
  | stats :: more =>
      n ← py_len stats;
      rest ← len_sum more;
      Some (n + rest)%nat
  end.

(** [{category: len(stats) for category, stats in d.items()}] *)
Fixpoint category_sizes (items : dict) : option (list (string * nat)) :=
  match items with
  | [] => Some []
  | (category, stats) :: more =>
      n ← py_len stats;
      rest ← category_sizes more;
      Some ((category, n) :: rest)
  end.

(** [d.values()] and [d.items()] need a dict. *)
Definition dict_items (v : json) : option dict :=
  match v with
  | JObj items => Some items
  | _ => None
  end.

(** What [create_summary] computes from a weekly file that loads; [None]
    is the exception that leaves the week out. *)
Definition summarize_week (data : json) : option week_summary :=
  games ← py_get data "games" (JArr []);
  games_count ← py_len games;
  player_stats ← py_get data "player_stats" (JObj []);
  items ← dict_items player_stats;
  stats_count ← len_sum (map snd items);
  categories ← category_sizes items;
  Some (WeekSummary games_count stats_count categories).

(** One turn of the loop over the weeks 1 to 4.  [output_dir] gives what
    [json.load] reads from a file of the output directory: [None] when
    there is no such file, [Some None] when it cannot be read. *)
Definition summary_step (output_dir : string -> option (option json))
    (s : summary) (week : Z) : summary :=
  match output_dir (week_file_name week) with
  | Some (Some data) =>
      match summarize_week data with
      | Some w =>
          Summary (created_at s) (s_weeks s ++ [(week, w)])
            (S (total_weeks s)) (total_games s + s_games w)
            (total_player_performances s + s_player_performances w)
      | None => s
      end
  | _ => s
  end.

(** [create_summary]: the summary returned, which is also what is written
    to [aggregation_summary.json]. *)
Definition create_summary (now : string)
    (output_dir : string -> option (option json)) : summary :=
  foldl (summary_step output_dir) (Summary now [] 0 0 0) [1; 2; 3; 4].

End Aggregator.

(** ** Notions used to state the properties *)

Import Extractor Aggregator.

(** A comprehensive record with its time stamp left out. *)
Definition without_timestamp (record : json) : json :=
  match record with
  | JObj d => JObj (dict_remove "processing_timestamp" d)
  | v => v
  end.

(** The date pattern [main] hands to [process_recent_files], after the
    truth test the latter applies to it. *)
Definition effective_pattern (args : arguments) : option string :=
  if arg_all args then None
  else match arg_date_pattern args with
       | Some p => if String.eqb p "" then None else Some p
       | None => None
       end.

(** A file fails in a given state of the run: it is not skipped, and its
    record cannot be built or cannot be written. *)
Definition file_failed (env : environment) (self : processor)
    (f : source_file) : bool :=
  negb (is_fresh self f)
  && match process_play_by_play_file (now_iso env (src_name f)) (src_name f)
             (src_content f) with
     | Some _ => negb (can_write env (comprehensive_name (src_name f)))
     | None => true
     end.

(** A configured range contains a date, both ends included. *)
Definition covers (range : Z * (string * string)) (d : date) : Prop :=
  ∃ s e, strptime (chars_of (fst (snd range))) = Some s
       ∧ strptime (chars_of (snd (snd range))) = Some e
       ∧ date_le s d = true ∧ date_le d e = true.

(** [week] is the week of the first range of the table that contains [d]. *)
Definition first_week_containing (ranges : list (Z * (string * string)))
    (d : date) (week : Z) : Prop :=
  ∃ i range, ranges !! i = Some range ∧ fst range = week ∧ covers range d
    ∧ ∀ j range', (j < i)%nat → ranges !! j = Some range' → ¬ covers range' d.

(** The part of a file name before its first underscore. *)
Definition date_part (filename : string) : string :=
  str (hd [] (split_on "_" (chars_of filename))).

(** *** The words of a pattern

    [lang ic r w g g'] says that [r] can match the word [w], and that a
    match which starts with group 1 holding [g] ends with it holding
    [g'].  It is the declarative reading of the patterns, against which
    the backtracking matcher is proved sound. *)
Inductive lang (ic : bool) : regex → chars → option chars → option chars
    → Prop :=
| lang_eps g : lang ic Eps [] g g
| lang_bol g : lang ic Bol [] g g
| lang_lit s w g :
    Forall2 (fun p c => atom_matches ic (Chr p) c = true) (chars_of s) w →
    lang ic (Lit s) w g g
| lang_one a c g : atom_matches ic a c = true → lang ic (One a) [c] g g
| lang_star a w g :
    Forall (fun c => atom_matches ic a c = true) w → lang ic (Star a) w g g
| lang_plus a c w g :
    Forall (fun c => atom_matches ic a c = true) (c :: w) →
    lang ic (Plus a) (c :: w) g g
| lang_lazy a w g :
    Forall (fun c => atom_matches ic a c = true) w →
    lang ic (LazyStar a) w g g
| lang_group r w g g' : lang ic r w g g' → lang ic (Group r) w g (Some w)
| lang_cat r1 r2 w1 w2 g g1 g2 :
    lang ic r1 w1 g g1 → lang ic r2 w2 g1 g2 →
    lang ic (Cat r1 r2) (w1 ++ w2) g g2.

(** *** The touchdown pass of the specification

    The text "(Formation) X.Name pass to Y. Name for N yard touchdown",
    built from its variable parts: the formation, the initial and surname
    of the passer, those of the receiver, and the digits of the yardage. *)
Definition passing_play_text (formation : chars) (x : ascii)
    (passer_surname : chars) (y : ascii) (receiver_surname : chars)
    (digits : chars) : chars :=
  chars_of "(" ++ formation ++ chars_of ") "
  ++ x :: chars_of "." ++ passer_surname ++ chars_of " pass to "
  ++ y :: chars_of ". " ++ receiver_surname ++ chars_of " for "
  ++ digits ++ chars_of " yard touchdown".

(** The parts of that text: what precedes the digits, what precedes the
    verb, the tail that starts at "to", and the name of the receiver. *)
Definition play_before_digits (formation : chars) (x : ascii)
    (passer_surname : chars) (y : ascii) (receiver_surname : chars) : chars :=
  chars_of "(" ++ formation ++ chars_of ") "
  ++ x :: chars_of "." ++ passer_surname ++ chars_of " pass to "
  ++ y :: chars_of ". " ++ receiver_surname ++ chars_of " for ".

Definition play_before_pass (formation : chars) (x : ascii)
    (passer_surname : chars) : chars :=
  chars_of "(" ++ formation ++ chars_of ") " ++ x :: chars_of "."
  ++ passer_surname ++ chars_of " ".

Definition play_target (y : ascii) (receiver_surname digits : chars)
    : chars :=
  chars_of "to " ++ y :: chars_of ". " ++ receiver_surname ++ chars_of " for "
  ++ digits ++ chars_of " yard touchdown".

Definition receiver_name (y : ascii) (receiver_surname : chars) : chars :=
  y :: chars_of ". " ++ receiver_surname.

(** A formation is free text without a closing parenthesis; it is also
    taken to have no period and no digit. *)
Definition formation_char (c : ascii) : bool :=
  negb (Ascii.eqb c ")") && negb (Ascii.eqb c ".") && negb (is_digit c).

(** A necessary condition for the tail [to\s+(NAME)...] of the first
    touchdown pattern to match at the head of a text: "to", white space, a
    letter and a period. *)
Fixpoint after_spaces (s : chars) : bool :=
  match s with
  | c :: s' =>
      if is_space c then after_spaces s'
      else is_letter c
           && match s' with
              | d :: _ => Ascii.eqb d "."
              | [] => false
              end
  | [] => false
  end.

Definition starts_pass_target (s : chars) : bool :=
  match s with
  | t :: o :: sp :: s' =>
      Ascii.eqb (lower_char t) "t" && Ascii.eqb (lower_char o) "o"
      && is_space sp && after_spaces s'
  | _ => false
  end.

(** The tail [to\s+(NAME).*?touchdown] of the first touchdown pattern. *)
Definition target_tail : regex :=
  seq [Lit "to"; Plus Space; Group name_token; LazyStar Dot; Lit "touchdown"].

(** Where the literal "touchdown" can start. *)
Definition starts_t (s : chars) : bool :=
  match s with
  | c :: _ => Ascii.eqb (lower_char c) "t"
  | [] => false
  end.

(** [guard] holds at no position of [l] in the text [l ++ s]. *)
Fixpoint unguarded (guard : chars → bool) (l s : chars) : bool :=
  match l with
  | [] => true
  | _ :: l' => negb (guard (l ++ s)) && unguarded guard l' s
  end.

(** *** Sample data *)

(** A raw record with one touchdown pass and one interception. *)
Definition sample_raw : json :=
  JObj [("game_info", JObj
           [("game_id", JStr "401773001");
            ("teams", JArr
               [JObj [("abbreviation", JStr "DAL"); ("score", JStr "21");
                      ("home_away", JStr "away")];
                JObj [("abbreviation", JStr "NYG"); ("score", JNum 3);
                      ("home_away", JStr "home")]])]);
        ("plays", JArr
           [JObj [("text", JStr "(Shotgun) J.Smith pass to T. Jones for 5 yard touchdown");
                  ("scoring_play", JBool true)];
            JObj [("text", JStr "C.Rush pass intercepted by M. Hooker");
                  ("scoring_play", JBool false)]])].

Definition sample_source : source_file :=
  SourceFile "2025-08-09_401773001_play_by_play.json" 100 (Some sample_raw).

Definition sample_env : environment :=
  Environment (fun _ => "2025-08-10T09:30:00") (fun _ => 300) (fun _ => true).

(** A comprehensive record with two teams and no home or away flag. *)
Definition sample_unflagged : json :=
  JObj [("box_score", JObj
           [("team_stats", JObj
               [("DAL", JObj [("score", JNum 0)]);
                ("NYG", JObj [("score", JNum 0)])])])].

(** A touchdown and a touchdown pass as the extractor leaves them. *)
Definition sample_pass_td : json :=
  JObj [("text", JStr "(Shotgun) J.Smith pass to T. Jones for 5 yard touchdown");
        ("scoring_play", JBool true);
        ("player", JStr "T. Jones")].

(** A raw record in which the same player scores twice: a kickoff return,
    which yields no line item, and then a run. *)
Definition sample_return_then_run : json :=
  JObj [("game_info", JObj [("game_id", JStr "401773002")]);
        ("plays", JArr
           [JObj [("text", JStr "J. Smith 95 yard kickoff return for touchdown")];
            JObj [("text", JStr "J. Smith 5 yard run for touchdown")]])].

(** The same record with the run alone. *)
Definition sample_run_only : json :=
  JObj [("game_info", JObj [("game_id", JStr "401773002")]);
        ("plays", JArr
           [JObj [("text", JStr "J. Smith 5 yard run for touchdown")]])].

(** The name of some line item of the statistics. *)
Definition has_line_item (name : string) (s : stats) : Prop :=
  ∃ item, item ∈ passing s ++ rushing s ++ receiving s ++ defensive s
        ∧ py_get item "name" JNull = Some (JStr name).

(** One of the lists under [play_by_play] in a comprehensive record. *)
Definition record_list (record : json) (key : string) : option json :=
  py_get record "play_by_play" JNull ≫= fun pbp => py_get pbp key JNull.

(** [derived] is [play] with every field kept and at most a 'player' field
    added: the relation between a play and its entry in a derived list as
    the specification words it. *)
Definition only_adds_player (play derived : json) : Prop :=
  ∃ fields fields', play = JObj fields ∧ derived = JObj fields'
    ∧ (∀ k v, dict_get k fields = Some v → dict_get k fields' = Some v)
    ∧ (∀ k, k ≠ "player" → dict_get k fields' = dict_get k fields).

(** [derived] is [play] with every field other than 'player' kept, and
    with a 'player' field that is either the play's own or the name
    inferred from its text: the relation as the code has it. *)
Definition tagged_copy (play_type : string) (play derived : json) : Prop :=
  ∃ fields fields', play = JObj fields ∧ derived = JObj fields'
    ∧ (∀ k, k ≠ "player" → dict_get k fields' = dict_get k fields)
    ∧ (dict_get "player" fields' = dict_get "player" fields
       ∨ ∃ text name,
           py_get play "text" (JStr "") = Some (JStr text)
           ∧ extract_player_from_play_text text play_type = Some name
           ∧ dict_get "player" fields' = Some (JStr name)).

(** A raw play that already carries a 'player' field of its provider. *)
Definition sample_play_with_player : json :=
  JObj [("text", JStr "J. Smith 5 yard run for touchdown");
        ("player", JStr "athlete-4040715")].

(** The passing and receiving items of [a] are still in [b]: line items
    are only ever appended. *)
Definition grows (a b : stats) : Prop :=
  (∀ item, item ∈ passing a → item ∈ passing b)
  ∧ (∀ item, item ∈ receiving a → item ∈ receiving b).

(** A raw record whose touchdown pass names the passer with a blank after
    the period, as the receiver is. *)
Definition sample_spaced_passer : json :=
  JObj [("game_info", JObj [("game_id", JStr "401773003")]);
        ("plays", JArr
           [JObj [("text", JStr "(Shotgun) J. Smith pass to T. Jones for 5 yard touchdown");
                  ("scoring_play", JBool true)]])].

(** A raw record with two touchdown passes to the same receiver. *)
Definition sample_same_receiver : json :=
  JObj [("game_info", JObj [("game_id", JStr "401773004")]);
        ("plays", JArr
           [JObj [("text", JStr "(Shotgun) J.Smith pass to T. Jones for 5 yard touchdown")];
            JObj [("text", JStr "(Shotgun) K.Allen pass to T. Jones for 7 yard touchdown")]])].

(** A comprehensive directory whose only file is newer than
    [sample_source]. *)
Definition sample_outputs : gmap string output_file :=
  {[ "2025-08-09_401773001_complete.json" := OutputFile 200 (JObj []) ]}.

(** *** Inferred names *)

(** The characters of a surname, [[A-Za-z'\-]]. *)
Definition name_char (c : ascii) : bool :=
  is_letter c || Ascii.eqb c "'" || Ascii.eqb c "-".

(** [name] is read off [text] as the name inference does it: somewhere in
    the text stand an initial, a period, white space or none, and a
    surname; the name is the initial, the period, one blank when there was
    white space, and the surname. *)
Definition inferred_from (text name : chars) : Prop :=
  ∃ before initial blanks surname after,
    text = before ++ initial :: "."%char :: blanks ++ surname ++ after
    ∧ is_letter initial = true
    ∧ Forall (fun c => is_space c = true) blanks
    ∧ surname ≠ [] ∧ Forall (fun c => name_char c = true) surname
    ∧ name = initial :: "."%char
             :: match blanks with [] => [] | _ => [" "%char] end ++ surname.

(** [w] stands somewhere in [text]. *)
Definition occurs_in (w text : chars) : Prop :=
  ∃ before after, text = before ++ w ++ after.

(** *** The layout of a passing play *)

(** The text opens with a parenthesised formation; after it, and white
    space or none, stands the passer, a capital initial, a period and a
    surname of letters with nothing in between; then white space and the
    word "pass" in lower case. *)
Definition passer_layout (text passer : chars) : Prop :=
  ∃ formation blanks initial surname gap after,
    text = "("%char :: formation ++ ")"%char :: blanks ++ passer ++ gap
           ++ chars_of "pass" ++ after
    ∧ Forall (fun c => c ≠ ")"%char) formation
    ∧ Forall (fun c => is_space c = true) blanks
    ∧ passer = initial :: "."%char :: surname
    ∧ is_upper_az initial = true
    ∧ surname ≠ [] ∧ Forall (fun c => is_letter c = true) surname
    ∧ gap ≠ [] ∧ Forall (fun c => is_space c = true) gap.

(** A number directly before the word "yard": digits, white space or
    none, and "yard". *)
Definition yardage_at (before digits blanks after : chars) (text : chars)
    : Prop :=
  text = before ++ digits ++ blanks ++ chars_of "yard" ++ after
  ∧ digits ≠ [] ∧ Forall (fun c => is_digit c = true) digits
  ∧ Forall (fun c => is_space c = true) blanks.

(** *** Teams of the line items *)

(** Every line item of the statistics names [team] as its team. *)
Definition credited_to (team : string) (s : stats) : Prop :=
  let named item := py_get item "team" JNull = Some (JStr team) in
  Forall named (passing s) ∧ Forall named (rushing s)
  ∧ Forall named (receiving s) ∧ Forall named (defensive s).

(** The abbreviation [_create_team_stats] files a team under. *)
Definition abbreviation_of (team : json) : option string :=
  py_get team "abbreviation" (JStr "UNK") ≫= as_str.

(** The teams listed in the game info of a raw record. *)
Definition listed_teams (data : json) : option (list json) :=
  game_info ← py_get data "game_info" (JObj []);
  py_get game_info "teams" (JArr []) ≫= py_iter.

(** *** File names *)

(** The name of a play-by-play file and of the comprehensive file written
    for it, for a game played on [date] with identifier [game_id]. *)
Definition play_by_play_name (date game_id : chars) : string :=
  str (date ++ chars_of "_" ++ game_id ++ chars_of "_play_by_play.json").

Definition complete_name (date game_id : chars) : string :=
  str (date ++ chars_of "_" ++ game_id ++ chars_of "_complete.json").

(** *** The batch run *)

(** What a turn of the loop writes for a source file that is not skipped:
    nothing when the record cannot be built or the file cannot be
    written. *)
Definition output_for (env : environment) (f : source_file)
    : option output_file :=
  match process_play_by_play_file (now_iso env (src_name f)) (src_name f)
          (src_content f) with
  | Some comprehensive =>
      if can_write env (comprehensive_name (src_name f))
      then Some (OutputFile (now_mtime env (src_name f)) comprehensive)
      else None
  | None => None
  end.

(** A source file for which a run in state [self] writes nothing: its
    output is newer, or it fails. *)
Definition settled (env : environment) (self : processor) (f : source_file)
    : Prop :=
  is_fresh self f = true ∨ output_for env f = None.

(** The names ascend along a list of files. *)
Definition ascending (files : list source_file) : Prop :=
  ∀ i f g, files !! i = Some f → files !! S i = Some g →
           String.leb (src_name f) (src_name g) = true.

(** *** The content of a weekly file *)

(** The week a comprehensive file is filed under: the file has to be
    readable and its date has to resolve to a week. *)
Definition week_of_file (f : comprehensive_file) : option Z :=
  match snd f with
  | None => None
  | Some _ =>
      match get_week_for_date (date_part (fst f)) with
      | Some (Some week) => if week =? 0 then None else Some week
      | _ => None
      end
  end.

(** The game summary a file contributes, if any. *)
Definition game_of (f : comprehensive_file) : option json :=
  data ← snd f; extract_game_info data (fst f).

(** The line items a file contributes: those of its record when both its
    game summary and its statistics can be extracted, none otherwise. *)
Definition stats_of (f : comprehensive_file) : stats :=
  match snd f with
  | Some data =>
      match extract_game_info data (fst f),
            extract_player_stats_from_comprehensive data with
      | Some _, Some player_stats => player_stats
      | _, _ => no_stats
      end
  | None => no_stats
  end.

Definition stats_concat (l : list stats) : stats :=
  foldr extend_stats no_stats l.

(** The files of a week among [files]. *)
Definition files_of_week (week : Z) (files : list comprehensive_file)
    : list comprehensive_file :=
  filter (fun f => week_of_file f = Some week) files.

(** What the files of a week add to the entry of that week. *)
Definition add_files (week : Z) (old : option week_entry)
    (files : list comprehensive_file) : option week_entry :=
  match files with
  | [] => old
  | _ =>
      let e := default new_week_entry old in
      Some (WeekEntry week 2025 (w_games e ++ omap game_of files)
              (extend_stats (w_player_stats e)
                 (stats_concat (map stats_of files))))
  end.

(** *** The summary of an aggregation *)

(** An output directory that holds the given files and nothing else. *)
Definition directory_of (written : list (string * json))
    : string → option (option json) :=
  fun name => Some <$> dict_get name written.

(** The summary entry of a week entry. *)
Definition summary_of_entry (e : week_entry) : week_summary :=
  let s := w_player_stats e in
  WeekSummary (length (w_games e))
    (length (passing s) + (length (rushing s)
     + (length (receiving s) + (length (defensive s) + 0))))
    [("passing", length (passing s)); ("rushing", length (rushing s));
     ("receiving", length (receiving s));
     ("defensive", length (defensive s))].

(** The totals of a summary agree with its week entries. *)
Definition totals_add_up (s : summary) : Prop :=
  total_weeks s = length (s_weeks s)
  ∧ total_games s = sum_list (map (fun w => s_games (snd w)) (s_weeks s))
  ∧ total_player_performances s
    = sum_list (map (fun w => s_player_performances (snd w)) (s_weeks s))
  ∧ Forall (fun w => s_player_performances (snd w)
                     = sum_list (map snd (s_categories (snd w))))
      (s_weeks s).

(** *** Players of the line items *)

(** The name a line item carries. *)
Definition item_name (item : json) : option json := py_get item "name" JNull.

(** A play with a player attached: its 'player' field is truthy. *)
Definition has_player (play : json) : bool :=
  match py_get play "player" JNull with
  | Some player_name => truthy player_name
  | None => false
  end.

(** The interceptions listed in a comprehensive record. *)
Definition listed_interceptions (comprehensive_data : json)
    : option (list json) :=
  play_by_play ← py_get comprehensive_data "play_by_play" (JObj []);
  py_get play_by_play "interceptions" (JArr []) ≫= py_iter.

(** The names of the rushing and receiving items are those of processed
    players, each once: the invariant of the loop over the touchdowns. *)
Definition scorers_once (acc : stats * list json) : Prop :=
  NoDup (map item_name (rushing (fst acc) ++ receiving (fst acc)))
  ∧ ∀ n, n ∈ map item_name (rushing (fst acc) ++ receiving (fst acc)) →
         ∃ name, n = Some (JStr name)
                 ∧ existsb (py_eq (JStr name)) (snd acc) = true.

(** A comprehensive record in which one player runs for two touchdowns
    and another intercepts two passes. *)
Definition sample_two_each : json :=
  JObj [("play_by_play", JObj
           [("touchdowns", JArr
               [JObj [("text", JStr "J. Smith 5 yard run for touchdown");
                      ("player", JStr "J. Smith")];
                JObj [("text", JStr "J. Smith 12 yard run for touchdown");
                      ("player", JStr "J. Smith")]]);
            ("interceptions", JArr
               [JObj [("text", JStr "C.Rush pass intercepted by M. Hooker");
                      ("player", JStr "M. Hooker")];
                JObj [("text", JStr "C.Rush pass intercepted by M. Hooker");
                      ("player", JStr "M. Hooker")]])])].

(** *** Raw records that can be processed *)

(** The entry [_create_team_stats] makes for a team. *)
Definition team_entry (team : json) : option json :=
  score ← py_get team "score" (JNum 0) ≫= py_int;
  home_away ← py_get team "home_away" (JStr "unknown");
  Some (JObj [("score", JNum score); ("record", JStr "0-0");
              ("home_away", home_away)]).

(** A team that can be filed: a dict whose abbreviation, if it has one,
    is a string and whose score, if it has one, is accepted by [int]. *)
Definition team_ok (team : json) : Prop :=
  is_Some (abbreviation_of team) ∧ is_Some (team_entry team).

(** A play that can be classified: a dict whose text, if it has one, is a
    string. *)
Definition play_ok (play : json) : Prop :=
  is_Some (py_get play "text" (JStr "") ≫= as_str).

(** The plays and the game id of a raw record. *)
Definition listed_plays (data : json) : option (list json) :=
  py_get data "plays" (JArr []) ≫= py_iter.

Definition game_id_of (data : json) : option json :=
  game_info ← py_get data "game_info" (JObj []);
  py_get game_info "game_id" JNull.

(** A play whose 'player' field, if it has one, is a string or null. *)
Definition player_is_text (play : json) : Prop :=
  match py_get play "player" JNull with
  | Some JNull | Some (JStr _) => True
  | _ => False
  end.

(** An event as the aggregator can read it: a dict with a string for
    text and a string or nothing for player. *)
Definition event_ok (event : json) : Prop :=
  is_Some (py_get event "text" (JStr "") ≫= as_str) ∧ player_is_text event.

(** The shape of an entry of the team statistics. *)
Definition entry_shape (entry : json) : Prop :=
  ∃ score home_away,
    entry = JObj [("score", JNum score); ("record", JStr "0-0");
                  ("home_away", home_away)].

(** The game info of a raw record whose two teams have no abbreviation. *)
Definition sample_unnamed_teams : json :=
  JObj [("teams", JArr [JObj [("score", JStr "21")];
                        JObj [("score", JNum 3)]])].

(** *** The weeks of August 2025 *)

(** The week of a day of August 2025 in the table of the aggregator. *)
Definition week_of_day (day : Z) : Z :=
  if day <=? 11 then 1
  else if day <=? 18 then 2
  else if day <=? 25 then 3
  else 4.

(** A comprehensive record whose teams are flagged, the home team listed
    first. *)
Definition sample_flagged : json :=
  JObj [("box_score", JObj
           [("team_stats", JObj
               [("NYG", JObj [("score", JNum 3); ("home_away", JStr "home")]);
                ("DAL", JObj [("score", JNum 21);
                              ("home_away", JStr "away")])])])].

(** *** Plays by keyword *)

(** The text of a play mentions a keyword, in any case. *)
Definition mentions (keyword : string) (play : json) : bool :=
  match py_get play "text" (JStr "") ≫= as_str with
  | Some text => contains (chars_of keyword) (lower (chars_of text))
  | None => false
  end.

(** A play flagged as a scoring play. *)
Definition is_scoring (play : json) : bool :=
  match py_get play "scoring_play" (JBool false) with
  | Some flag => truthy flag
  | None => false
  end.

(** ** The matcher is sound for the words of a pattern *)

Section MatcherSound.

Context {R : Type}.
Implicit Types (k : cont R) (s w : chars) (g : option chars).

Lemma lit_match_sound ic p n s g k x :
  lit_match ic p n s g k = Some x →
  ∃ w s', s = w ++ s'
    ∧ Forall2 (fun a c => atom_matches ic (Chr a) c = true) p w
    ∧ k (MkSt (n + length w) s' g) = Some x.
Proof.
  revert n s. induction p as [|a p IH]; intros n s; cbn [lit_match].
  - intros H. exists [], s. rewrite Nat.add_0_r.
    split_and!; [done|constructor|done].
  - destruct s as [|c s]; [done|].
    destruct (atom_matches ic (Chr a) c) eqn:Hc; [|done].
    intros (w & s' & -> & Hw & Hk)%IH.
    exists (c :: w), s'. simpl. rewrite <- Nat.add_succ_comm.
    split_and!; [done|by constructor|done].
Qed.

Lemma greedy_sound (p : ascii → bool) n s g k x :
  greedy p n s g k = Some x →
  ∃ w s', s = w ++ s' ∧ Forall (fun c => p c = true) w
    ∧ k (MkSt (n + length w) s' g) = Some x.
Proof.
  revert n. induction s as [|c s IH]; intros n; simpl.
  - intros H. exists [], []. rewrite Nat.add_0_r.
    split_and!; [done|constructor|done].
  - destruct (p c) eqn:Hc.
    + destruct (greedy p (S n) s g k) as [y|] eqn:Hg.
      * intros [= ->]. apply IH in Hg as (w & s' & -> & Hw & Hk).
        exists (c :: w), s'. simpl. rewrite <- Nat.add_succ_comm.
        split_and!; [done|by constructor|done].
      * intros H. exists [], (c :: s). rewrite Nat.add_0_r.
        split_and!; [done|constructor|done].
    + intros H. exists [], (c :: s). rewrite Nat.add_0_r.
      split_and!; [done|constructor|done].
Qed.

Lemma lazy_sound (p : ascii → bool) n s g k x :
  lazy p n s g k = Some x →
  ∃ w s', s = w ++ s' ∧ Forall (fun c => p c = true) w
    ∧ k (MkSt (n + length w) s' g) = Some x.
Proof.
  revert n. induction s as [|c s IH]; intros n; simpl.
  - destruct (k (MkSt n [] g)) as [y|] eqn:Hk; [|done].
    intros [= ->]. exists [], []. rewrite Nat.add_0_r.
    split_and!; [done|constructor|done].
  - destruct (k (MkSt n (c :: s) g)) as [y|] eqn:Hk.
    + intros [= ->]. exists [], (c :: s). rewrite Nat.add_0_r.
      split_and!; [done|constructor|done].
    + destruct (p c) eqn:Hc; [|done].
      intros (w & s' & -> & Hw & Hk')%IH.
      exists (c :: w), s'. simpl. rewrite <- Nat.add_succ_comm.
      split_and!; [done|by constructor|done].
Qed.

End MatcherSound.

Lemma rmatch_sound {R} ic r : ∀ (st : mstate) (k : cont R) x,
  rmatch ic r st k = Some x →
  ∃ w st', lang ic r w (grp st) (grp st')
    ∧ rest st = w ++ rest st'
    ∧ pos st' = (pos st + length w)%nat
    ∧ k st' = Some x.
Proof.
  revert R. induction r as [| |lit|a|a|a|a|r IH|r1 IH1 r2 IH2];
    intros R [n s g] k x; simpl.
  - intros H. exists [], (MkSt n s g). simpl. rewrite Nat.add_0_r.
    split_and!; [constructor|done..].
  - destruct (Nat.eqb n 0); [|done].
    intros H. exists [], (MkSt n s g). simpl. rewrite Nat.add_0_r.
    split_and!; [constructor|done..].
  - intros (w & s' & -> & Hw & Hk)%lit_match_sound.
    exists w, (MkSt (n + length w) s' g). simpl.
    split_and!; [by constructor|done..].
  - destruct s as [|c s]; [done|].
    destruct (atom_matches ic a c) eqn:Hc; [|done].
    intros H. exists [c], (MkSt (S n) s g). simpl.
    split_and!; [by constructor|done|lia|done].
  - intros (w & s' & -> & Hw & Hk)%greedy_sound.
    exists w, (MkSt (n + length w) s' g). simpl.
    split_and!; [by constructor|done..].
  - destruct s as [|c s]; [done|].
    destruct (atom_matches ic a c) eqn:Hc; [|done].
    intros (w & s' & -> & Hw & Hk)%greedy_sound.
    exists (c :: w), (MkSt (S n + length w) s' g). simpl.
    split_and!; [by repeat constructor|done|lia|done].
  - intros (w & s' & -> & Hw & Hk)%lazy_sound.
    exists w, (MkSt (n + length w) s' g). simpl.
    split_and!; [by constructor|done..].
  - intros (w & [n' s' g'] & Hl & Hs & Hn & Hk)%IH. simpl in *. subst s.
    rewrite length_app, Nat.add_sub, take_app_length in Hk.
    exists w, (MkSt n' s' (Some w)). simpl.
    split_and!; [by econstructor|done..].
  - intros (w1 & st1 & Hl1 & Hs1 & Hn1 & Hk1)%IH1.
    apply IH2 in Hk1 as (w2 & st2 & Hl2 & Hs2 & Hn2 & Hk2).
    simpl in *. exists (w1 ++ w2), st2.
    split_and!; [by econstructor| |rewrite length_app; lia|done].
    by rewrite Hs1, Hs2, (assoc_L (++)).
Qed.

(** A successful search found a word of the pattern somewhere in the
    text, and returns the group captured along it. *)
Lemma search_from_sound ic r n s m :
  search_from ic r n s = Some m →
  ∃ before w, s = before ++ w ++ rest m ∧ lang ic r w None (grp m).
Proof.
  revert n. induction s as [|c s IH]; intros n; simpl.
  - destruct (rmatch ic r (MkSt n [] None) Some) as [m'|] eqn:H; [|done].
    intros [= ->]. apply rmatch_sound in H as (w & st' & Hl & Hs & _ & [= ->]).
    by exists [], w.
  - destruct (rmatch ic r (MkSt n (c :: s) None) Some) as [m'|] eqn:H.
    + intros [= ->].
      apply rmatch_sound in H as (w & st' & Hl & Hs & _ & [= ->]).
      by exists [], w.
    + intros (before & w & -> & Hl)%IH. by exists (c :: before), w.
Qed.

(** ** Properties of the Event Extractor *)

Section ExtractorRun.

Variable env : environment.

Lemma process_one_failed_count self f :
  failed_count (process_one env self f)
  = (failed_count self + (if file_failed env self f then 1 else 0))%nat.
Proof.
  unfold process_one, file_failed.
  destruct (is_fresh self f); simpl; [lia|].
  destruct (process_play_by_play_file _ _ _); simpl; [|lia].
  destruct (can_write env _); simpl; lia.
Qed.

Lemma run_failed_count_mono fs self :
  (failed_count self ≤ failed_count (foldl (process_one env) self fs))%nat.
Proof.
  revert self. induction fs as [|f fs IH]; intros self; simpl; [lia|].
  specialize (IH (process_one env self f)).
  rewrite process_one_failed_count in IH. lia.
Qed.

Lemma run_failed_count fs self :
  (failed_count self < failed_count (foldl (process_one env) self fs))%nat
  ↔ ∃ pre f post, fs = pre ++ f :: post
      ∧ file_failed env (foldl (process_one env) self pre) f = true.
Proof.
  revert self. induction fs as [|f fs IH]; intros self; simpl.
  - split; [lia|]. intros (pre & g & post & E & _). by destruct pre.
  - destruct (file_failed env self f) eqn:Hf.
    + split; intros _.
      * by exists [], f, fs.
      * pose proof (run_failed_count_mono fs (process_one env self f)) as M.
        rewrite process_one_failed_count, Hf in M. lia.
    + specialize (IH (process_one env self f)).
      rewrite process_one_failed_count, Hf, Nat.add_0_r in IH.
      rewrite IH. clear IH. split.
      * intros (pre & g & post & -> & Hg). by exists (f :: pre), g, post.
      * intros (pre & g & post & E & Hg).
        destruct pre as [|f' pre]; simplify_eq/=; [congruence|].
        by exists pre, g, post.
Qed.

Lemma process_one_fresh self f :
  is_fresh self f = true → process_one env self f = self.
Proof. unfold process_one. by intros ->. Qed.

Lemma run_all_fresh fs self :
  Forall (fun f => is_fresh self f = true) fs →
  foldl (process_one env) self fs = self.
Proof.
  induction 1 as [|f fs Hf _ IH]; simpl; [done|].
  by rewrite process_one_fresh.
Qed.

Lemma main_unfold args dir existing :
  Extractor.main env args dir existing
  = let self := foldl (process_one env) (Processor existing 0 0)
                  (files_to_process (effective_pattern args) dir) in
    (self, if (0 <? failed_count self)%nat then 1 else 0).
Proof.
  unfold Extractor.main, process_recent_files, effective_pattern.
  destruct (arg_all args); simpl; [done|].
  destruct (arg_date_pattern args) as [p|]; simpl; [|done].
  destruct (String.eqb p "") eqn:E; simpl; [done|]. by rewrite E.
Qed.

End ExtractorRun.

(** ** Properties of the Weekly Aggregator: week resolution *)

Section WeekResolution.

Implicit Types (ranges : list (Z * (string * string))) (d : date).

Lemma week_loop_some ranges d week :
  week_loop ranges d = Some (Some week) → first_week_containing ranges d week.
Proof.
  induction ranges as [|[w [s e]] ranges IH]; simpl; [done|].
  destruct (strptime (chars_of s)) as [so|] eqn:Hs; simpl; [|done].
  destruct (strptime (chars_of e)) as [eo|] eqn:He; simpl; [|done].
  destruct (date_le so d && date_le d eo) eqn:Hin.
  - intros [= <-]. apply andb_true_iff in Hin as [H1 H2].
    exists 0%nat, (w, (s, e)). repeat split; [by exists so, eo|].
    intros j r Hj. lia.
  - intros (i & r & Hi & Hw & Hc & Hfirst)%IH.
    exists (S i), r. repeat split; try done.
    intros [|j] r' Hj Hr'; simpl in Hr'.
    + injection Hr' as <-. intros (so' & eo' & Hs' & He' & H1 & H2).
      simpl in Hs', He'. rewrite Hs in Hs'. rewrite He in He'.
      simplify_eq. by rewrite H1, H2 in Hin.
    + apply (Hfirst j); [lia|done].
Qed.

Lemma week_loop_none ranges d :
  week_loop ranges d = Some None → ∀ range, range ∈ ranges → ¬ covers range d.
Proof.
  induction ranges as [|[w [s e]] ranges IH]; simpl.
  - intros _ r Hr. by apply not_elem_of_nil in Hr.
  - destruct (strptime (chars_of s)) as [so|] eqn:Hs; simpl; [|done].
    destruct (strptime (chars_of e)) as [eo|] eqn:He; simpl; [|done].
    destruct (date_le so d && date_le d eo) eqn:Hin; [done|].
    intros H r [->|Hr]%elem_of_cons; [|by apply IH].
    intros (so' & eo' & Hs' & He' & H1 & H2). simpl in Hs', He'.
    rewrite Hs in Hs'. rewrite He in He'. simplify_eq.
    by rewrite H1, H2 in Hin.
Qed.

(** The loop never raises on a table whose dates are well formed. *)
Lemma week_loop_total ranges d :
  Forall (fun r => is_Some (strptime (chars_of (fst (snd r))))
                   ∧ is_Some (strptime (chars_of (snd (snd r))))) ranges →
  is_Some (week_loop ranges d).
Proof.
  induction 1 as [|[w [s e]] ranges [[so Hs] [eo He]] _ IH]; simpl; [by eexists|].
  simpl in Hs, He. rewrite Hs, He. simpl.
  by destruct (_ && _).
Qed.

Lemma first_week_unique ranges d w1 w2 :
  first_week_containing ranges d w1 → first_week_containing ranges d w2 →
  w1 = w2.
Proof.
  intros (i & r & Hi & <- & Hc & Hf) (j & r' & Hj & <- & Hc' & Hf').
  destruct (lt_eq_lt_dec i j) as [[Hlt| ->]|Hlt].
  - by destruct (Hf' i r Hlt Hi).
  - congruence.
  - by destruct (Hf j r' Hlt Hj).
Qed.

Lemma week_ranges_well_formed :
  Forall (fun r => is_Some (strptime (chars_of (fst (snd r))))
                   ∧ is_Some (strptime (chars_of (snd (snd r))))) week_ranges.
Proof. repeat constructor; by eexists. Qed.

Lemma get_week_for_date_spec date_str d :
  strptime (chars_of date_str) = Some d →
  (∀ week, get_week_for_date date_str = Some (Some week)
           ↔ first_week_containing week_ranges d week)
  ∧ (get_week_for_date date_str = Some None
     ↔ ∀ range, range ∈ week_ranges → ¬ covers range d).
Proof.
  intros Hd. unfold get_week_for_date. rewrite Hd. cbn [mbind option_bind].
  destruct (week_loop_total week_ranges d week_ranges_well_formed)
    as [[w|] Hw]; rewrite Hw.
  - pose proof (week_loop_some _ _ _ Hw) as Hfirst. split.
    + intros w'. split; [by intros [= <-]|].
      intros Hw'. by rewrite (first_week_unique _ _ _ _ Hfirst Hw').
    + split; [done|]. intros Hno. exfalso.
      destruct Hfirst as (i & r & Hi & _ & Hc & _).
      apply (Hno r); [|done]. by eapply list_elem_of_lookup_2.
  - pose proof (week_loop_none _ _ Hw) as Hno. split.
    + intros w'. split; [done|].
      intros (i & r & Hi & _ & Hc & _). exfalso.
      apply (Hno r); [|done]. by eapply list_elem_of_lookup_2.
    + done.
Qed.

Lemma aggregate_file_no_week weekly_data filename data :
  get_week_for_date (date_part filename) = Some None →
  aggregate_file weekly_data (filename, Some data)
  = (weekly_data, LogNoWeek filename).
Proof. unfold aggregate_file, date_part. by intros ->. Qed.

(** C7. Week resolution returns the first configured week whose inclusive
    range contains the date, and no week exactly when no range contains it;
    a date equal to the first or the last day of a range resolves to that
    range's week; and a file whose date has no week leaves the weekly data
    untouched, with a warning logged. *)
Theorem week_resolution :
  (∀ date_str d, strptime (chars_of date_str) = Some d →
     (∀ week, get_week_for_date date_str = Some (Some week)
              ↔ first_week_containing week_ranges d week)
     ∧ (get_week_for_date date_str = Some None
        ↔ ∀ range, range ∈ week_ranges → ¬ covers range d))
  ∧ (∀ week start_date end_date,
       (week, (start_date, end_date)) ∈ week_ranges →
       get_week_for_date start_date = Some (Some week)
       ∧ get_week_for_date end_date = Some (Some week))
  ∧ (∀ weekly_data filename data,
       get_week_for_date (date_part filename) = Some None →
       aggregate_file weekly_data (filename, Some data)
       = (weekly_data, LogNoWeek filename)).
Proof.
  split; [exact get_week_for_date_spec|]. split.
  - intros week s e Hin. unfold week_ranges in Hin.
    repeat (apply elem_of_cons in Hin as [[= -> -> ->]|Hin];
            [by vm_compute|]).
    by apply not_elem_of_nil in Hin.
  - exact aggregate_file_no_week.
Qed.

(** The day before the first range has no week, and a game of that day is
    dropped; the first day of the second range resolves to week 2. *)
Lemma week_resolution_witness :
  get_week_for_date "2025-08-12" = Some (Some 2)
  ∧ aggregate_file [] ("2025-07-31_401_complete.json", Some JNull)
    = ([], LogNoWeek "2025-07-31_401_complete.json").
Proof.
  destruct week_resolution as (_ & Hboundary & Hdrop). split.
  - apply (Hboundary 2 "2025-08-12" "2025-08-18").
    unfold week_ranges. apply elem_of_cons. right. apply elem_of_cons. by left.
  - apply Hdrop. reflexivity.
Defined.

End WeekResolution.

(** ** Properties of the Event Extractor: the batch run and its exit status *)

Section ExtractorMain.

Variable env : environment.

Lemma insert_sorted_Forall (P : source_file → Prop) f fs :
  P f → Forall P fs → Forall P (insert_sorted f fs).
Proof.
  intros Hf. induction 1 as [|g fs Hg Hfs IH]; simpl; [by repeat constructor|].
  destruct (String.leb _ _); repeat constructor; done.
Qed.

Lemma sort_files_Forall (P : source_file → Prop) fs :
  Forall P fs → Forall P (sort_files fs).
Proof.
  induction 1; simpl; [constructor|]. by apply insert_sorted_Forall.
Qed.

Lemma files_to_process_Forall (P : source_file → Prop) pattern dir :
  Forall (fun f => glob_matches pattern (src_name f) = true → P f) dir →
  Forall P (files_to_process pattern dir).
Proof.
  intros H. apply sort_files_Forall.
  induction H as [|f dir Hf _ IH]; simpl; [constructor|].
  unfold filter at 1. simpl. case_decide as Hm; [|exact IH].
  constructor; [|exact IH]. apply Hf. by destruct (glob_matches _ _).
Qed.

(** C8 (as the code has it). The flag [--all] only removes the date
    filter: the run is the one without a date pattern.  The freshness gate
    stays in force in that mode: when every source file has an output that
    is strictly newer, nothing is processed and nothing is written. *)
Theorem all_flag_keeps_freshness_gate args dir existing :
  arg_all args = true →
  Extractor.main env args dir existing
  = Extractor.main env (Arguments_ None false) dir existing
  ∧ (Forall (fun f => glob_matches None (src_name f) = true →
                      is_fresh (Processor existing 0 0) f = true) dir →
     Extractor.main env args dir existing = (Processor existing 0 0, 0)).
Proof.
  intros Hall. rewrite !main_unfold. unfold effective_pattern.
  rewrite Hall. simpl. split; [done|]. intros Hfresh.
  rewrite run_all_fresh; [done|]. by apply files_to_process_Forall.
Qed.

(** C9, first half. The extractor exits with a non-zero status exactly
    when some selected file fails in the state the run has reached when
    its turn comes. *)
Lemma extractor_exit_status args dir existing :
  snd (Extractor.main env args dir existing) ≠ 0
  ↔ ∃ pre f post,
      files_to_process (effective_pattern args) dir = pre ++ f :: post
      ∧ file_failed env (foldl (process_one env) (Processor existing 0 0) pre)
          f = true.
Proof.
  rewrite main_unfold. cbn [snd].
  rewrite <- (run_failed_count env _ (Processor existing 0 0)). simpl.
  destruct (0 <? _)%nat eqn:E.
  - apply Nat.ltb_lt in E. split; [done|]. intros _. discriminate.
  - apply Nat.ltb_ge in E. split; [done|]. lia.
Qed.

End ExtractorMain.

Section AggregatorMain.

Lemma save_weeks_count can_write weekly_data :
  snd (save_weeks can_write weekly_data)
  = length (fst (save_weeks can_write weekly_data)).
Proof.
  induction weekly_data as [|[week data] more IH]; simpl; [done|].
  destruct (save_weeks can_write more) as [written n]. simpl in IH.
  destruct (can_write _); simpl; by rewrite ?IH.
Qed.

Lemma aggregate_by_weeks_count can_write dir :
  saved_count (aggregate_by_weeks can_write dir)
  = length (written_files (aggregate_by_weeks can_write dir))
  ∧ success (aggregate_by_weeks can_write dir)
    = (0 <? saved_count (aggregate_by_weeks can_write dir))%nat.
Proof.
  unfold aggregate_by_weeks. destruct dir as [files|]; [|done].
  destruct (aggregate_files [] (sorted files)) as [weekly_data events].
  pose proof (save_weeks_count can_write weekly_data) as H.
  destruct (save_weeks can_write weekly_data) as [written n]. by simpl in *.
Qed.

Lemma aggregator_exit_status can_write dir :
  snd (Aggregator.main can_write dir) ≠ 0
  ↔ written_files (fst (Aggregator.main can_write dir)) = [].
Proof.
  unfold Aggregator.main. cbn [fst snd].
  destruct (aggregate_by_weeks_count can_write dir) as [Hn ->].
  rewrite Hn. destruct (written_files _); simpl; split; done.
Qed.

End AggregatorMain.


(** C8, witness: with [--all] and an output newer than its source, the run
    leaves the directory as it was. *)
Lemma all_flag_keeps_freshness_gate_witness :
  Extractor.main sample_env (Arguments_ (Some "2025-08-09") true)
    [sample_source] sample_outputs
  = (Processor sample_outputs 0 0, 0).
Proof.
  apply (all_flag_keeps_freshness_gate sample_env
           (Arguments_ (Some "2025-08-09") true) [sample_source]
           sample_outputs); [reflexivity|].
  repeat constructor.
Defined.

(** C8, counterexample to the claim as stated: [--all] is selected, the
    source file matches, and yet it is not processed, because its output is
    newer: the count of processed files is 0 and the stale output is still
    in place. *)
Lemma all_flag_does_not_force_processing :
  let args := Arguments_ None true in
  let result := fst (Extractor.main sample_env args [sample_source]
                       sample_outputs) in
  arg_all args = true
  ∧ glob_matches None (src_name sample_source) = true
  ∧ processed_count result = 0%nat
  ∧ comprehensive_dir result !! "2025-08-09_401773001_complete.json"
    = Some (OutputFile 200 (JObj [])).
Proof.
  cbn zeta. rewrite main_unfold. cbn [fst].
  rewrite run_all_fresh.
  - repeat split; reflexivity.
  - apply files_to_process_Forall. repeat constructor.
Qed.


(** ** Properties of the Event Extractor: the comprehensive record *)

(** C1 (as the code has it). Apart from its time stamp, the comprehensive
    record is a function of the file name and the raw record alone: two
    runs at different times agree on every other field, and fail
    together. *)
Theorem record_determined_up_to_timestamp now1 now2 file_name content :
  without_timestamp <$> process_play_by_play_file now1 file_name content
  = without_timestamp <$> process_play_by_play_file now2 file_name content.
Proof.
  unfold process_play_by_play_file.
  destruct content as [data|]; [|done]. cbn [mbind option_bind].
  repeat match goal with
         | |- context [ ?x ≫= _ ] =>
             destruct x; cbn [mbind option_bind]; [|done]
         end.
  destruct (negb _); [done|].
  repeat match goal with
         | |- context [ ?x ≫= _ ] =>
             destruct x; cbn [mbind option_bind]; [|done]
         end.
  reflexivity.
Qed.

(** C1, counterexample to the claim as stated: the same raw record,
    processed at two different times, gives two different records. *)
Lemma record_depends_on_clock :
  process_play_by_play_file "2025-08-10T09:30:00"
    "2025-08-09_401773001_play_by_play.json" (Some sample_raw)
  ≠ process_play_by_play_file "2025-08-10T09:30:01"
      "2025-08-09_401773001_play_by_play.json" (Some sample_raw).
Proof. vm_compute. intros H. discriminate H. Qed.

(** ** Properties of the Weekly Aggregator: game summaries *)

Section GameInfo.

Lemma side_of_unflagged side first second :
  py_eq (t_home_away first) (JStr side) = false →
  py_eq (t_home_away second) (JStr side) = false →
  side_of side [first; second] = None.
Proof. unfold side_of. simpl. by intros -> ->. Qed.



End GameInfo.

(** ** Facts about characters *)

Ltac ascii_cases c :=
  destruct c as [[|] [|] [|] [|] [|] [|] [|] [|]]; vm_compute;
  try reflexivity; try discriminate; try (intros; discriminate).

Lemma letter_not_space c : is_letter c = true → is_space c = false.
Proof. ascii_cases c. Qed.

Lemma letter_not_digit c : is_letter c = true → is_digit c = false.
Proof. ascii_cases c. Qed.

Lemma upper_is_letter c : is_upper_az c = true → is_letter c = true.
Proof. ascii_cases c. Qed.

Lemma digit_not_space c : is_digit c = true → is_space c = false.
Proof. ascii_cases c. Qed.

Lemma digit_not_newline c : is_digit c = true → Ascii.eqb c "010" = false.
Proof. ascii_cases c. Qed.

Lemma letter_not_newline c : is_letter c = true → Ascii.eqb c "010" = false.
Proof. ascii_cases c. Qed.

Lemma lower_char_idem c : lower_char (lower_char c) = lower_char c.
Proof. ascii_cases c. Qed.

Lemma lower_digit c : is_digit c = true → lower_char c = c.
Proof. ascii_cases c. Qed.

Lemma digit_lower c : is_digit (lower_char c) = is_digit c.
Proof. ascii_cases c. Qed.

Lemma initial_ignorecase c :
  atom_matches true (OneOf [IRange "A" "Z"]) c = is_letter c.
Proof. ascii_cases c. Qed.

Lemma initial_exact c :
  atom_matches false (OneOf [IRange "A" "Z"]) c = is_upper_az c.
Proof. ascii_cases c. Qed.

Lemma surname_ignorecase c :
  is_letter c = true →
  atom_matches true
    (OneOf [IRange "A" "Z"; IRange "a" "z"; IChar "'"; IChar "-"]) c = true.
Proof. ascii_cases c. Qed.

Lemma surname_exact c :
  atom_matches false (OneOf [IRange "A" "Z"; IRange "a" "z"]) c = is_letter c.
Proof. ascii_cases c. Qed.

Lemma literal_ignorecase p c :
  atom_matches true (Chr p) c = Ascii.eqb (lower_char c) (lower_char p).
Proof. reflexivity. Qed.

Lemma lower_app s t : lower (s ++ t) = lower s ++ lower t.
Proof. apply map_app. Qed.

Lemma lower_idem s : lower (lower s) = lower s.
Proof.
  unfold lower. rewrite map_map. apply map_ext. intros c. apply lower_char_idem.
Qed.

Lemma lower_digits s : Forall (fun c => is_digit c = true) s → lower s = s.
Proof.
  induction 1 as [|c s Hc _ IH]; simpl; [done|]. by rewrite lower_digit, IH.
Qed.

Lemma chars_of_str s : chars_of (str s) = s.
Proof. apply list_ascii_of_string_of_list_ascii. Qed.

Lemma str_chars_of s : str (chars_of s) = s.
Proof. apply string_of_list_ascii_of_string. Qed.

(** ** Facts about searching a text *)

Lemma starts_with_app p s : starts_with p (p ++ s) = true.
Proof.
  induction p as [|a p IH]; simpl; [done|]. by rewrite Ascii.eqb_refl, IH.
Qed.

Lemma contains_here needle s :
  starts_with needle s = true → contains needle s = true.
Proof. intros H. destruct s; simpl; by rewrite H. Qed.

Lemma contains_app needle before after :
  contains needle (before ++ needle ++ after) = true.
Proof.
  induction before as [|c before IH]; simpl.
  - apply contains_here, starts_with_app.
  - rewrite IH. apply orb_true_r.
Qed.

Section Backtracking.

Context {R : Type}.
Implicit Types (k : cont R) (s l : chars) (g : option chars)
  (p : ascii → bool).

(** A greedy repetition that succeeds on its longest run stops there. *)
Lemma greedy_max p n l s g k x :
  Forall (fun c => p c = true) l →
  match s with c :: _ => p c = false | [] => True end →
  k (MkSt (n + length l) s g) = Some x →
  greedy p n (l ++ s) g k = Some x.
Proof.
  intros Hl Hs. revert n. induction Hl as [|c l Hc _ IH]; intros n; simpl.
  - rewrite Nat.add_0_r. destruct s as [|c s]; simpl; [done|]. by rewrite Hs.
  - rewrite <- Nat.add_succ_comm. intros Hk. by rewrite Hc, (IH _ Hk).
Qed.

Lemma lazy_here p n s g k x :
  k (MkSt n s g) = Some x → lazy p n s g k = Some x.
Proof. intros Hk. destruct s; simpl; by rewrite Hk. Qed.

Variable guard : chars → bool.

Lemma unguarded_app l1 l2 s :
  unguarded guard (l1 ++ l2) s
  = unguarded guard l1 (l2 ++ s) && unguarded guard l2 s.
Proof.
  induction l1 as [|c l1 IH]; simpl; [done|].
  by rewrite IH, <- !(assoc_L (++)), andb_assoc.
Qed.

Lemma unguarded_drop j l s :
  unguarded guard l s = true → unguarded guard (drop j l) s = true.
Proof.
  revert j. induction l as [|c l IH]; intros [|j] H; simpl in *; try done.
  apply andb_true_iff in H as [_ H]. by apply IH.
Qed.

Variable k : cont R.
Hypothesis Hguard : ∀ st x, k st = Some x → guard (rest st) = true.

(** A lazy repetition over a stretch where the continuation cannot match
    succeeds, if at all, from the end of the stretch. *)
Lemma lazy_unguarded p n l s g x :
  unguarded guard l s = true →
  lazy p n (l ++ s) g k = Some x →
  lazy p (n + length l) s g k = Some x.
Proof.
  revert n. induction l as [|c l IH]; intros n; simpl.
  - by rewrite Nat.add_0_r.
  - intros [Hc Hl]%andb_true_iff. apply negb_true_iff in Hc.
    destruct (k (MkSt n (c :: l ++ s) g)) as [y|] eqn:Hk.
    { apply Hguard in Hk. simpl in Hk. congruence. }
    destruct (p c); [|done]. rewrite <- Nat.add_succ_comm. by apply IH.
Qed.

Lemma lazy_through p n l s g :
  unguarded guard l s = true → Forall (fun c => p c = true) l →
  lazy p n (l ++ s) g k = lazy p (n + length l) s g k.
Proof.
  intros Hu Hl. revert n Hu.
  induction Hl as [|c l Hc _ IH]; intros n; simpl.
  - by rewrite Nat.add_0_r.
  - intros [Hg Hu]%andb_true_iff. apply negb_true_iff in Hg.
    destruct (k (MkSt n (c :: l ++ s) g)) as [y|] eqn:Hk.
    { apply Hguard in Hk. simpl in Hk. congruence. }
    rewrite Hc, <- Nat.add_succ_comm. by apply IH.
Qed.

End Backtracking.

(** A search skips the start positions at which the pattern fails. *)
Lemma search_from_skip ic r n l s :
  Forall (fun c => ∀ n' s', rmatch ic r (MkSt n' (c :: s') None) Some = None)
    l →
  search_from ic r n (l ++ s) = search_from ic r (n + length l) s.
Proof.
  intros Hl. revert n. induction Hl as [|c l Hc _ IH]; intros n; simpl.
  - by rewrite Nat.add_0_r.
  - by rewrite Hc, <- Nat.add_succ_comm.
Qed.

Lemma search_from_here ic r n s m :
  rmatch ic r (MkSt n s None) Some = Some m → search_from ic r n s = Some m.
Proof. intros H. destruct s; simpl; by rewrite H. Qed.

Lemma or_first {A} (e alt : option A) v :
  e = Some v → match e with Some r => Some r | None => alt end = Some v.
Proof. by intros ->. Qed.

Lemma lit_match_ok {R} ic lit w n s g (k : cont R) :
  Forall2 (fun p c => atom_matches ic (Chr p) c = true) lit w →
  lit_match ic lit n (w ++ s) g k = k (MkSt (n + length w) s g).
Proof.
  intros H. revert n. induction H as [|p c lit w Hc _ IH]; intros n;
    cbn [lit_match app length].
  - by rewrite Nat.add_0_r.
  - by rewrite Hc, IH, <- Nat.add_succ_comm.
Qed.

(** Searching [lit a*? r']: whatever start position the literal is found
    at, the match is decided by the first place where the tail [r'] can
    match, as long as nothing before that place satisfies the necessary
    condition [guard] of the tail. *)
Section SearchLazy.

Variables (ic : bool) (lit : string) (a : atom) (tail : regex).
Variable guard : chars → bool.
Variables (w gap target : chars) (name : chars).

Local Abbreviation K := (fun st : mstate => rmatch ic tail st Some).

Hypothesis Hguard :
  ∀ st m, rmatch ic tail st Some = Some m → guard (rest st) = true.
Hypothesis Hw :
  Forall2 (fun p c => atom_matches ic (Chr p) c = true) (chars_of lit) w.
Hypothesis Hgap : Forall (fun c => atom_matches ic a c = true) gap.
Hypothesis Htarget :
  ∀ n, ∃ m, rmatch ic tail (MkSt n target None) Some = Some m
            ∧ grp m = Some name.

Lemma search_lit_lazy before n :
  unguarded guard (before ++ w ++ gap) target = true →
  ∃ m, search_from ic (Cat (Lit lit) (Cat (LazyStar a) tail)) n
         (before ++ w ++ gap ++ target) = Some m
       ∧ grp m = Some name.
Proof.
  revert n. induction before as [|c before IH]; intros n Hu.
  - destruct (Htarget (n + length w + length gap)) as (m & Hm & Hg).
    exists m. split; [|done]. apply search_from_here.
    cbn [rmatch pos rest grp app]. rewrite (lit_match_ok _ _ _ _ _ _ _ Hw).
    cbn [pos rest grp].
    rewrite (lazy_through guard K Hguard); [by apply lazy_here| |done].
    simpl in Hu. rewrite unguarded_app in Hu.
    by apply andb_true_iff in Hu as [_ Hu].
  - cbn [app search_from].
    destruct (rmatch ic _ (MkSt n (c :: before ++ w ++ gap ++ target) None)
                Some) as [m|] eqn:Hm.
    + exists m. split; [done|].
      cbn [rmatch pos rest grp] in Hm.
      apply lit_match_sound in Hm as (w' & s' & Hs & Hw' & Hlazy).
      cbn [pos rest grp] in Hlazy.
      assert (length w' = length w) as Hlen.
      { by rewrite <- (Forall2_length _ _ _ Hw'), (Forall2_length _ _ _ Hw). }
      assert (s' = drop (length w) (c :: before ++ w ++ gap) ++ target)
        as ->.
      { rewrite <- drop_app_le by (simpl; rewrite !length_app; lia).
        rewrite <- Hlen. simpl. rewrite <- !(assoc_L (++)).
        change (c :: before ++ w ++ gap ++ target)
          with ((c :: before) ++ w ++ gap ++ target) in Hs.
        simpl in Hs. rewrite Hs. by rewrite drop_app_length. }
      apply (lazy_unguarded guard K Hguard) in Hlazy;
        [|by apply unguarded_drop].
      destruct (Htarget (n + length w'
                         + length (drop (length w) (c :: before ++ w ++ gap))))
        as (m' & Hm' & Hg').
      rewrite (lazy_here _ _ _ _ _ _ Hm') in Hlazy. by simplify_eq.
    + apply IH. simpl in Hu. by apply andb_true_iff in Hu as [_ Hu].
Qed.

End SearchLazy.

(** ** Properties of the Weekly Aggregator: statistic line items *)

Ltac invert_lang :=
  repeat match goal with
         | H : lang _ (Cat _ _) _ _ _ |- _ => inversion H; subst; clear H
         | H : lang _ (Group _) _ _ _ |- _ => inversion H; subst; clear H
         | H : lang _ Eps _ _ _ |- _ => inversion H; subst; clear H
         | H : lang _ Bol _ _ _ |- _ => inversion H; subst; clear H
         | H : lang _ (One _) _ _ _ |- _ => inversion H; subst; clear H
         | H : lang _ (Star _) _ _ _ |- _ => inversion H; subst; clear H
         | H : lang _ (Plus _) _ _ _ |- _ => inversion H; subst; clear H
         | H : lang _ (LazyStar _) _ _ _ |- _ => inversion H; subst; clear H
         | H : lang _ (Lit _) _ _ _ |- _ => inversion H; subst; clear H
         end.

Section LineItems.

(** The passer found by [_extract_passer_from_text] is a capital letter, a
    period and a non-empty run of letters. *)
Lemma passer_shape text passer :
  _extract_passer_from_text text = Some passer →
  ∃ initial surname,
    passer = initial :: "."%char :: surname
    ∧ is_upper_az initial = true
    ∧ surname ≠ [] ∧ Forall (fun c => is_letter c = true) surname.
Proof.
  unfold _extract_passer_from_text, re_search.
  destruct (search_from false passer_pattern 0 text) as [m|] eqn:Hm; [|done].
  intros [= <-].
  apply search_from_sound in Hm as (before & w & _ & Hl).
  unfold passer_pattern, seq in Hl. simpl in Hl. invert_lang.
  match goal with
  | H : atom_matches false (Chr ".") ?c = true |- _ =>
      simpl in H; apply Ascii.eqb_eq in H; subst c
  end.
  match goal with
  | H : Some _ = grp m |- _ => unfold group1; rewrite <- H
  end.
  simpl. rewrite app_nil_r.
  eexists _, _. split; [reflexivity|]. split_and!.
  - match goal with
    | H : atom_matches false (OneOf [IRange "A" "Z"]) _ = true |- _ =>
        simpl in H; by rewrite orb_false_r in H
    end.
  - done.
  - match goal with
    | H : Forall _ (_ :: _) |- _ =>
        eapply Forall_impl; [exact H|]
    end.
    intros c Hc. simpl in Hc. by rewrite orb_false_r in Hc.
Qed.

Lemma passer_truthy text passer :
  _extract_passer_from_text text = Some passer →
  truthy (JStr (str passer)) = true.
Proof.
  intros (initial & surname & -> & _)%passer_shape. reflexivity.
Qed.

(** The pass branch of [touchdown_step]. *)
Lemma touchdown_step_pass comprehensive_data player_stats processed_players
    td name text :
  py_get td "player" JNull = Some (JStr name) → name ≠ "" →
  existsb (py_eq (JStr name)) processed_players = false →
  py_get td "text" (JStr "") = Some (JStr text) →
  contains (chars_of "pass") (lower (chars_of text)) = true →
  contains (chars_of "to") (lower (chars_of text)) = true →
  touchdown_step comprehensive_data (player_stats, processed_players) td
  = team ← _extract_team_from_play td comprehensive_data;
    team_name ← as_str team;
    Some (Stats
            (match _extract_passer_from_text (chars_of text) with
             | Some passer =>
                 passing player_stats
                 ++ [passing_item (str passer) team_name
                       (_extract_yards_from_text (lower (chars_of text)))]
             | None => passing player_stats
             end)
            (rushing player_stats)
            (receiving player_stats
             ++ [receiving_item name team_name
                   (_extract_yards_from_text (lower (chars_of text)))])
            (defensive player_stats),
          JStr name :: processed_players).
Proof.
  intros Hplayer Hname Hnew Htext Hpass Hto.
  unfold touchdown_step. rewrite Hplayer. cbn [mbind option_bind].
  assert (truthy (JStr name) = true) as ->.
  { simpl. by apply negb_true_iff, String.eqb_neq. }
  rewrite Hnew, Htext. cbn [negb hashable mbind option_bind as_str].
  destruct (_extract_team_from_play td comprehensive_data) as [team|];
    cbn [mbind option_bind]; [|done].
  rewrite Hpass, Hto. cbn [andb].
  destruct (as_str team) as [team_name|]; cbn [mbind option_bind]; [|done].
  destruct (_extract_passer_from_text (chars_of text)) as [passer|] eqn:Hp;
    [|reflexivity].
  by rewrite (passer_truthy _ _ Hp).
Qed.


End LineItems.


Section Deduplication.

Variable comprehensive_data : json.

Lemma py_eq_str name v : py_eq (JStr name) v = true ↔ v = JStr name.
Proof.
  destruct v; simpl; try (split; [done|discriminate]).
  rewrite String.eqb_eq. split; [by intros ->|by intros [= ->]].
Qed.

Lemma touchdown_step_processed acc td acc' name :
  touchdown_step comprehensive_data acc td = Some acc' →
  existsb (py_eq (JStr name)) (snd acc') = true
  ↔ existsb (py_eq (JStr name)) (snd acc) = true
    ∨ (name ≠ "" ∧ py_get td "player" JNull = Some (JStr name)).
Proof.
  destruct acc as [player_stats processed_players].
  unfold touchdown_step.
  destruct (py_get td "player" JNull) as [player_name|];
    cbn [mbind option_bind]; [|done].
  destruct (truthy player_name) eqn:Htruthy; cbn [negb].
  2:{ intros [= <-]. simpl. split; [by left|].
      intros [H|[Hn [= ->]]]; [done|]. simpl in Htruthy.
      by apply negb_false_iff, String.eqb_eq in Htruthy. }
  destruct (hashable player_name); cbn [negb]; [|done].
  destruct (existsb (py_eq player_name) processed_players) eqn:Hseen.
  { intros [= <-]. simpl. split; [by left|].
    intros [H|[_ [= ->]]]; done. }
  assert (existsb (py_eq (JStr name)) (player_name :: processed_players)
          = true
          ↔ existsb (py_eq (JStr name)) processed_players = true
            ∨ name ≠ "" ∧ Some player_name = Some (JStr name)) as Hadd.
  { cbn [existsb]. rewrite orb_true_iff, py_eq_str. split.
    - intros [->|H]; [|by left]. right. split; [|done].
      simpl in Htruthy. by apply negb_true_iff, String.eqb_neq in Htruthy.
    - intros [H|[_ [= ->]]]; [by right|by left]. }
  repeat match goal with
         | |- context [ ?x ≫= _ ] =>
             destruct x; cbn [mbind option_bind]; [|done]
         end.
  repeat match goal with
         | |- context [ if ?b then _ else _ ] => destruct b
         | |- context [ ?x ≫= _ ] =>
             destruct x; cbn [mbind option_bind]; [|done]
         end;
    by intros [= <-].
Qed.

Lemma touchdown_loop_processed tds acc acc' name :
  touchdown_loop comprehensive_data tds acc = Some acc' →
  existsb (py_eq (JStr name)) (snd acc') = true
  ↔ existsb (py_eq (JStr name)) (snd acc) = true
    ∨ (name ≠ "" ∧ ∃ td, td ∈ tds ∧ py_get td "player" JNull = Some (JStr name)).
Proof.
  revert acc. induction tds as [|td tds IH]; intros acc; simpl.
  - intros [= <-]. split; [by left|].
    intros [H|(_ & td & Htd%not_elem_of_nil & _)]; done.
  - destruct (touchdown_step comprehensive_data acc td) as [acc1|] eqn:Hstep;
      cbn [mbind option_bind]; [|done].
    intros Hloop. rewrite (IH _ Hloop), (touchdown_step_processed _ _ _ _ Hstep).
    clear. split.
    + intros [[H|[Hn Htd]]|(Hn & td' & Hin & Htd')].
      * by left.
      * right. split; [done|]. exists td. split; [left|done].
      * right. split; [done|]. exists td'. split; [by right|done].
    + intros [H|(Hn & td' & [->|Hin]%elem_of_cons & Htd')].
      * by left; left.
      * by left; right.
      * right. split; [done|]. by exists td'.
Qed.

End Deduplication.




(** ** Properties of the Event Extractor: the derived lists *)

Section DerivedLists.

Lemma dict_get_set_eq k v d : dict_get k (dict_set k v d) = Some v.
Proof.
  induction d as [|[k' v'] d IH]; simpl.
  - by rewrite String.eqb_refl.
  - destruct (String.eqb k k') eqn:E; simpl; rewrite ?String.eqb_refl, ?E; done.
Qed.

Lemma dict_get_set_ne k k' v d :
  k ≠ k' → dict_get k (dict_set k' v d) = dict_get k d.
Proof.
  intros Hne. induction d as [|[k'' v''] d IH]; simpl.
  - by apply String.eqb_neq in Hne as ->.
  - destruct (String.eqb k' k'') eqn:E; simpl.
    + apply String.eqb_eq in E as <-. by apply String.eqb_neq in Hne as ->.
    + by rewrite IH.
Qed.

Lemma tag_play_tagged play_type play text tagged :
  py_get play "text" (JStr "") = Some (JStr text) →
  tag_play play_type play text = Some tagged →
  tagged_copy play_type play tagged.
Proof.
  intros Htext. unfold tag_play. destruct play as [| | | | |fields]; try done.
  destruct (extract_player_from_play_text text play_type) as [player|] eqn:Hp.
  - destruct (truthy (JStr player)); intros [= <-].
    + exists fields, (dict_set "player" (JStr player) fields).
      split_and!; [done..| |].
      * intros k Hk. by apply dict_get_set_ne.
      * right. exists text, player. split_and!; [done..|].
        apply dict_get_set_eq.
    + exists fields, fields. split_and!; [done..|by left].
  - intros [= <-]. exists fields, fields. split_and!; [done..|by left].
Qed.

Lemma events_loop_tagged keyword play_type plays derived :
  events_loop keyword play_type plays = Some derived →
  ∃ kept, sublist kept plays ∧ Forall2 (tagged_copy play_type) kept derived.
Proof.
  revert derived. induction plays as [|play plays IH]; intros derived; simpl.
  - intros [= <-]. exists []. split; constructor.
  - destruct (py_get play "text" (JStr "")) as [text|] eqn:Hget;
      cbn [mbind option_bind]; [|done].
    destruct text as [| | |text| |]; cbn [as_str mbind option_bind]; try done.
    destruct (contains _ _).
    + destruct (tag_play play_type play text) as [tagged|] eqn:Htag;
        cbn [mbind option_bind]; [|done].
      destruct (events_loop keyword play_type plays) as [more|];
        cbn [mbind option_bind]; [|done].
      intros [= <-]. destruct (IH more eq_refl) as (kept & Hsub & Hall).
      exists (play :: kept). split; [by constructor|].
      constructor; [|done]. by eapply tag_play_tagged.
    + intros (kept & Hsub & Hall)%IH. exists kept. split; [|done].
      by constructor.
Qed.

Lemma extract_events_tagged keyword play_type plays derived :
  py_iter plays ≫= events_loop keyword play_type = Some derived →
  ∃ items kept, py_iter plays = Some items ∧ sublist kept items
    ∧ Forall2 (tagged_copy play_type) kept derived.
Proof.
  destruct (py_iter plays) as [items|]; cbn [mbind option_bind]; [|done].
  intros (kept & Hsub & Hall)%events_loop_tagged. by exists items, kept.
Qed.

(** C3 (as the code has it). In every comprehensive record the touchdowns,
    the interceptions and the fumbles are each obtained from a sublist of
    the plays, in the original order; an entry keeps every field of its
    play other than 'player', and its 'player' field is either the play's
    own or the inferred name, which is added to the play or replaces the
    'player' field the play already had. *)
Theorem derived_lists_are_tagged_sublists now file_name content record :
  process_play_by_play_file now file_name content = Some record →
  ∃ plays,
    (record_list record "plays" ≫= py_iter) = Some plays
    ∧ (∃ kept derived,
         record_list record "touchdowns" = Some (JArr derived)
         ∧ sublist kept plays
         ∧ Forall2 (tagged_copy "touchdown") kept derived)
    ∧ (∃ kept derived,
         record_list record "interceptions" = Some (JArr derived)
         ∧ sublist kept plays
         ∧ Forall2 (tagged_copy "interception") kept derived)
    ∧ (∃ kept derived,
         record_list record "fumbles" = Some (JArr derived)
         ∧ sublist kept plays
         ∧ Forall2 (tagged_copy "fumble") kept derived).
Proof.
  unfold process_play_by_play_file.
  destruct content as [data|]; [|done]. cbn [mbind option_bind].
  repeat match goal with
         | |- context [ ?x ≫= _ ] =>
             destruct x eqn:?; cbn [mbind option_bind]; [|done]
         end.
  destruct (negb _); [done|].
  repeat match goal with
         | |- context [ ?x ≫= _ ] =>
             destruct x eqn:?; cbn [mbind option_bind]; [|done]
         end.
  intros [= <-].
  repeat match goal with
         | H : _extract_touchdowns _ = Some _ |- _ =>
             apply extract_events_tagged in H as (ps1 & kept1 & Hp1 & ? & ?)
         | H : _extract_interceptions _ = Some _ |- _ =>
             apply extract_events_tagged in H as (ps2 & kept2 & Hp2 & ? & ?)
         | H : _extract_fumbles _ = Some _ |- _ =>
             apply extract_events_tagged in H as (ps3 & kept3 & Hp3 & ? & ?)
         end.
  assert (ps2 = ps1) as -> by congruence.
  assert (ps3 = ps1) as -> by congruence.
  exists ps1. split_and!; [done|eauto..].
Qed.

End DerivedLists.

(** C3, witness: the record of the sample. *)
Lemma derived_lists_are_tagged_sublists_witness :
  match process_play_by_play_file "2025-08-10T09:30:00"
          "2025-08-09_401773001_play_by_play.json" (Some sample_raw) with
  | Some record =>
      ∃ plays,
        (record_list record "plays" ≫= py_iter) = Some plays
        ∧ (∃ kept derived,
             record_list record "touchdowns" = Some (JArr derived)
             ∧ sublist kept plays
             ∧ Forall2 (tagged_copy "touchdown") kept derived)
        ∧ (∃ kept derived,
             record_list record "interceptions" = Some (JArr derived)
             ∧ sublist kept plays
             ∧ Forall2 (tagged_copy "interception") kept derived)
        ∧ (∃ kept derived,
             record_list record "fumbles" = Some (JArr derived)
             ∧ sublist kept plays
             ∧ Forall2 (tagged_copy "fumble") kept derived)
  | None => False
  end.
Proof.
  destruct (process_play_by_play_file _ _ (Some sample_raw)) as [record|]
    eqn:H.
  - exact (derived_lists_are_tagged_sublists _ _ _ record H).
  - vm_compute in H. discriminate H.
Defined.

(** C3, counterexample to the claim as stated: a play that comes with a
    'player' field of its own does not keep it.  The touchdown entry of
    the run below carries the inferred name in place of the provider's
    value, so it is not the play with at most a field added. *)
Lemma provider_player_field_replaced :
  ∃ derived,
    _extract_touchdowns (JArr [sample_play_with_player]) = Some [derived]
    ∧ py_get sample_play_with_player "player" JNull
      = Some (JStr "athlete-4040715")
    ∧ py_get derived "player" JNull = Some (JStr "J. Smith")
    ∧ ¬ ∃ kept, sublist kept [sample_play_with_player]
                ∧ Forall2 only_adds_player kept [derived].
Proof.
  eexists. split; [by vm_compute|]. split_and!; [reflexivity..|].
  intros (kept & Hsub & Hall).
  apply Forall2_cons_inv_r in Hall as (play & kept' & Hplay & Hnil & ->).
  apply Forall2_nil_inv_r in Hnil as ->.
  apply sublist_cons_l in Hsub as (k1 & k2 & Heq & _).
  destruct k1 as [|? [|? ?]]; [|discriminate Heq..].
  injection Heq as <- _.
  destruct Hplay as (fields & fields' & Hf & Hf' & Hkeep & _).
  unfold sample_play_with_player in Hf.
  injection Hf as <-. injection Hf' as <-.
  specialize (Hkeep "player" (JStr "athlete-4040715") eq_refl).
  vm_compute in Hkeep. discriminate Hkeep.
Qed.

(** ** Name inference accepts a lower-case initial *)

(** C4, the behaviour of the code where it departs from the claim: the
    patterns are matched with [re.IGNORECASE], so the class [[A-Z]] of the
    initial also takes a lower-case letter.  A text with no name of the
    shape "capital initial, period, surname" still yields a player. *)
Theorem lowercase_initial_accepted :
  extract_player_from_play_text "j. smith 5 yard run for touchdown" "touchdown"
  = Some "j. smith"
  ∧ extract_player_from_play_text
      "pass complete for 5 yards. smith scores a touchdown" "touchdown"
    = Some "s. smith"
  ∧ _extract_touchdowns
      (JArr [JObj [("text", JStr "pass complete for 5 yards. smith scores a touchdown")]])
    = Some [JObj [("text", JStr "pass complete for 5 yards. smith scores a touchdown");
                  ("player", JStr "s. smith")]].
Proof. split_and!; by vm_compute. Qed.

(** ** Facts about the patterns *)

Section PatternFacts.

Local Arguments atom_matches : simpl never.

Lemma not_digit_fails c n s :
  is_digit c = false →
  rmatch false yards_pattern (MkSt n (c :: s) None) Some = None.
Proof.
  intros Hc. unfold yards_pattern, seq. simpl.
  change (atom_matches false Digit c) with (is_digit c). by rewrite Hc.
Qed.

Lemma after_spaces_skip w s :
  Forall (fun c => is_space c = true) w → after_spaces (w ++ s) = after_spaces s.
Proof. induction 1 as [|c w Hc _ IH]; simpl; [done|]. by rewrite Hc. Qed.

Lemma period_ignorecase c :
  atom_matches true (Chr ".") c = true → c = "."%char.
Proof. ascii_cases c. Qed.

Lemma target_tail_guard st m :
  rmatch true target_tail st Some = Some m →
  starts_pass_target (rest st) = true.
Proof.
  intros (w & st' & Hl & -> & _)%rmatch_sound.
  unfold target_tail, name_token, seq in Hl. simpl in Hl. invert_lang.
  repeat match goal with
         | H : Forall2 _ (chars_of _) _ |- _ => simpl in H
         | H : Forall2 _ (_ :: _) _ |- _ =>
             apply Forall2_cons_inv_l in H as (? & ? & ? & ? & ->)
         | H : Forall2 _ [] _ |- _ => apply Forall2_nil_inv_l in H as ->
         end.
  match goal with
  | |- starts_pass_target
         (([?t; ?o] ++ (?sp :: ?sps) ++ ([?i] ++ [?p] ++ _) ++ _) ++ _)
       = true =>
      assert (Ascii.eqb (lower_char t) "t" = true) as Ht
        by (match goal with
            | H : atom_matches true (Chr "t") t = true |- _ => exact H
            end);
      assert (Ascii.eqb (lower_char o) "o" = true) as Ho
        by (match goal with
            | H : atom_matches true (Chr "o") o = true |- _ => exact H
            end);
      assert (Forall (fun c => is_space c = true) (sp :: sps)) as Hsp
        by (match goal with
            | H : Forall _ (sp :: sps) |- _ => exact H
            end);
      assert (is_letter i = true) as Hi
        by (rewrite <- initial_ignorecase;
            match goal with
            | H : atom_matches true (OneOf _) i = true |- _ => exact H
            end);
      assert (p = "."%char) as ->
        by (apply period_ignorecase;
            match goal with
            | H : atom_matches true (Chr ".") p = true |- _ => exact H
            end)
  end.
  apply Forall_cons in Hsp as [Hsp Hsps].
  rewrite <- !app_assoc. cbn [app starts_pass_target].
  rewrite (after_spaces_skip _ _ Hsps). cbn [after_spaces].
  by rewrite (letter_not_space _ Hi), Hi, Ht, Ho, Hsp.
Qed.

Lemma touchdown_guard (k : cont mstate) st m :
  rmatch true (Cat (Lit "touchdown") Eps) st k = Some m →
  starts_t (rest st) = true.
Proof.
  destruct st as [n [|c s] g]; simpl; [done|].
  change (atom_matches true (Chr "t") c) with (Ascii.eqb (lower_char c) "t").
  by destruct (Ascii.eqb _ _).
Qed.

Lemma digit_not_t d :
  is_digit d = true → Ascii.eqb (lower_char d) "t" = false.
Proof. ascii_cases d. Qed.

Lemma digits_unguarded ds s :
  Forall (fun c => is_digit c = true) ds → unguarded starts_t ds s = true.
Proof.
  induction 1 as [|d ds Hd _ IH]; cbn [unguarded starts_t app]; [done|].
  by rewrite IH, digit_not_t.
Qed.

End PatternFacts.

(** ** The touchdown pass of the specification, through both stages *)

Section PassingPlay.

Local Arguments atom_matches : simpl never.

Variables (formation : chars) (x : ascii) (passer_surname : chars)
  (y : ascii) (receiver_surname : chars) (digits : chars).

Hypothesis Hformation : Forall (fun c => formation_char c = true) formation.
Hypothesis Hx : is_upper_az x = true.
Hypothesis Hpasser : passer_surname ≠ [].
Hypothesis Hpasser_letters :
  Forall (fun c => is_letter c = true) passer_surname.
Hypothesis Hy : is_upper_az y = true.
Hypothesis Hreceiver : receiver_surname ≠ [].
Hypothesis Hreceiver_letters :
  Forall (fun c => is_letter c = true) receiver_surname.
Hypothesis Hdigits : digits ≠ [].
Hypothesis Hdigits_digits : Forall (fun c => is_digit c = true) digits.

Local Abbreviation text :=
  (passing_play_text formation x passer_surname y receiver_surname digits).

Lemma formation_not_paren :
  Forall (fun c => atom_matches false (NoneOf [IChar ")"]) c = true) formation.
Proof.
  eapply Forall_impl; [exact Hformation|]. intros c. unfold formation_char.
  intros [[H _]%andb_true_iff _]%andb_true_iff.
  unfold atom_matches, in_items. simpl. by rewrite orb_false_r.
Qed.

Lemma passer_match :
  ∃ m, rmatch false passer_pattern (MkSt 0 text None) Some = Some m
       ∧ grp m = Some (x :: "."%char :: passer_surname).
Proof.
  destruct passer_surname as [|p1 surname]; [done|].
  apply Forall_cons in Hpasser_letters as [Hp1 Hsurname].
  unfold passer_pattern, seq, passing_play_text.
  eexists. split.
  - simpl. apply greedy_max; [exact formation_not_paren|reflexivity|].
    simpl.
    change (atom_matches false Space x) with (is_space x).
    rewrite (letter_not_space x (upper_is_letter x Hx)).
    apply or_first.
    rewrite initial_exact, Hx.
    rewrite surname_exact, Hp1.
    apply greedy_max.
    + eapply Forall_impl; [exact Hsurname|]. intros c Hc.
      by rewrite surname_exact.
    + reflexivity.
    + simpl. reflexivity.
  - simpl. f_equal. repeat first [rewrite length_app | progress cbn [length]].
    match goal with
    | |- take ?n _ = _ => replace n with (3 + length surname)%nat by lia
    end.
    simpl. by rewrite take_app_length.
Qed.

Lemma passer_of_play :
  _extract_passer_from_text text = Some (x :: "."%char :: passer_surname).
Proof.
  destruct passer_match as (m & Hm & Hg).
  unfold _extract_passer_from_text, re_search.
  rewrite (search_from_here _ _ _ _ _ Hm). unfold group1. by rewrite Hg.
Qed.


Local Abbreviation before_digits :=
  (play_before_digits formation x passer_surname y receiver_surname).

Lemma text_before_digits :
  text = before_digits ++ digits ++ chars_of " yard touchdown".
Proof.
  unfold passing_play_text, play_before_digits.
  repeat (rewrite <- ?app_assoc; simpl). reflexivity.
Qed.

Lemma before_digits_no_digit :
  Forall (fun c => is_digit c = false) before_digits.
Proof.
  unfold play_before_digits.
  repeat first [ apply Forall_app; split | apply Forall_cons; split
               | apply Forall_nil ];
    try reflexivity.
  - eapply Forall_impl; [exact Hformation|]. intros c. unfold formation_char.
    intros [_ H]%andb_true_iff. by apply negb_true_iff in H.
  - by apply letter_not_digit, upper_is_letter.
  - eapply Forall_impl; [exact Hpasser_letters|]. apply letter_not_digit.
  - by apply letter_not_digit, upper_is_letter.
  - eapply Forall_impl; [exact Hreceiver_letters|]. apply letter_not_digit.
Qed.

Lemma yards_of_play :
  _extract_yards_from_text (lower text) = digits_val digits.
Proof.
  unfold _extract_yards_from_text, re_search.
  rewrite lower_idem, text_before_digits, !lower_app.
  rewrite (lower_digits _ Hdigits_digits).
  rewrite search_from_skip.
  2:{ unfold lower. apply Forall_map.
      eapply Forall_impl; [exact before_digits_no_digit|].
      intros c Hc n s. apply not_digit_fails. by rewrite digit_lower. }
  destruct digits as [|d ds]; [done|].
  apply Forall_cons in Hdigits_digits as [Hd Hds].
  erewrite search_from_here.
  2:{ unfold yards_pattern, seq. simpl.
      change (atom_matches false Digit d) with (is_digit d). rewrite Hd.
      apply greedy_max; [exact Hds|reflexivity|]. simpl. reflexivity. }
  unfold group1. simpl. f_equal.
  repeat first [rewrite length_app | progress cbn [length]].
  match goal with
  | |- take ?n _ = _ => replace n with (S (length ds)) by lia
  end.
  cbn [take]. by rewrite take_app_length.
Qed.





Local Abbreviation target := (play_target y receiver_surname digits).

Local Abbreviation receiver := (receiver_name y receiver_surname).





Lemma target_match n :
  ∃ m, rmatch true target_tail (MkSt n target None) Some = Some m
       ∧ grp m = Some receiver.
Proof.
  destruct receiver_surname as [|r1 surname] eqn:Hr; [done|].
  apply Forall_cons in Hreceiver_letters as [Hr1 Hsurname].
  pose proof (upper_is_letter y Hy) as Hy'.
  unfold target_tail, name_token, seq, play_target, receiver_name.
  eexists. split.
  - simpl.
    change (atom_matches true Space y) with (is_space y).
    rewrite (letter_not_space y Hy').
    rewrite initial_ignorecase, Hy'.
    apply or_first.
    change (atom_matches true Space r1) with (is_space r1).
    rewrite (letter_not_space r1 Hr1).
    rewrite (surname_ignorecase r1 Hr1).
    apply greedy_max.
    + eapply Forall_impl; [exact Hsurname|]. apply surname_ignorecase.
    + reflexivity.
    + simpl.
      erewrite (lazy_through starts_t).
      * simpl. reflexivity.
      * intros [n' [|c s] g] m; simpl; [done|].
        change (atom_matches true (Chr "t") c)
          with (Ascii.eqb (lower_char c) "t").
        by destruct (Ascii.eqb _ _).
      * by apply digits_unguarded.
      * eapply Forall_impl; [exact Hdigits_digits|]. intros c Hc.
        change (atom_matches true Dot c) with (negb (Ascii.eqb c "010")).
        by rewrite digit_not_newline.
  - simpl. f_equal. repeat first [rewrite length_app | progress cbn [length]].
    match goal with
    | |- take ?n _ = _ => replace n with (4 + length surname)%nat by lia
    end.
    cbn [take Nat.add]. by rewrite take_app_length.
Qed.

(** Nothing before the real "to" looks like the start of the target. *)
Lemma target_first c s :
  Ascii.eqb (lower_char c) "t" = false → starts_pass_target (c :: s) = false.
Proof. intros H. destruct s as [|? [|? ?]]; simpl; by rewrite ?H. Qed.

Lemma target_second t c s :
  Ascii.eqb (lower_char c) "o" = false →
  starts_pass_target (t :: c :: s) = false.
Proof.
  intros H. destruct s as [|? ?]; simpl; by rewrite ?H, ?andb_false_r.
Qed.

Lemma target_third t o c s :
  is_space c = false → starts_pass_target (t :: o :: c :: s) = false.
Proof. intros H. simpl. by rewrite H, ?andb_false_r. Qed.

Lemma after_spaces_no_period l s :
  Forall (fun c => Ascii.eqb c "." = false) l →
  after_spaces (l ++ ")"%char :: s) = false.
Proof.
  induction 1 as [|c l Hc Hl IH]; [reflexivity|]. cbn [app after_spaces].
  rewrite IH. destruct (is_space c); [done|].
  destruct Hl as [|d l Hd _]; cbn [app]; [by rewrite andb_false_r|].
  by rewrite Hd, andb_false_r.
Qed.

Lemma no_period_no_target l s :
  Forall (fun c => Ascii.eqb c "." = false) l →
  starts_pass_target (l ++ ")"%char :: s) = false.
Proof.
  intros Hl. destruct Hl as [|c1 l _ Hl]; [by destruct s as [|? [|? ?]]|].
  destruct Hl as [|c2 l _ Hl]; [by apply target_second|].
  destruct Hl as [|c3 l _ Hl]; [by apply target_third|].
  cbn [app starts_pass_target].
  by rewrite after_spaces_no_period, andb_false_r.
Qed.

Lemma no_period_unguarded l s :
  Forall (fun c => Ascii.eqb c "." = false) l →
  unguarded starts_pass_target l (")"%char :: s) = true.
Proof.
  induction 1 as [|c l Hc Hl IH]; [done|]. cbn [unguarded].
  rewrite IH, andb_true_r.
  rewrite (no_period_no_target (c :: l)); [done|]. by constructor.
Qed.

Lemma letters_no_target l s :
  Forall (fun c => is_letter c = true) l → l ≠ [] →
  starts_pass_target (l ++ " "%char :: "p"%char :: "a"%char :: s) = false.
Proof.
  intros Hl Hne. destruct Hl as [|c1 l _ Hl]; [done|].
  destruct Hl as [|c2 l _ Hl]; [by apply target_second|].
  destruct Hl as [|c3 l H3 Hl].
  - cbn [app starts_pass_target after_spaces].
    by rewrite !andb_false_r.
  - apply target_third. by apply letter_not_space.
Qed.

Lemma letters_unguarded l s :
  Forall (fun c => is_letter c = true) l →
  unguarded starts_pass_target l (" "%char :: "p"%char :: "a"%char :: s)
  = true.
Proof.
  induction 1 as [|c l Hc Hl IH]; [done|]. cbn [unguarded].
  rewrite IH, andb_true_r, letters_no_target; [done| |done].
  by constructor.
Qed.

Local Abbreviation before_pass :=
  (play_before_pass formation x passer_surname).

Lemma text_before_pass :
  text = before_pass ++ chars_of "pass" ++ chars_of " " ++ target.
Proof.
  unfold passing_play_text, play_before_pass, play_target.
  repeat (rewrite <- ?app_assoc; simpl). reflexivity.
Qed.

Lemma formation_no_period :
  Forall (fun c => Ascii.eqb c "." = false) formation.
Proof.
  eapply Forall_impl; [exact Hformation|]. intros c. unfold formation_char.
  intros [[_ H]%andb_true_iff _]%andb_true_iff. by apply negb_true_iff.
Qed.

Lemma before_target_unguarded :
  unguarded starts_pass_target (before_pass ++ chars_of "pass" ++ chars_of " ")
    target = true.
Proof.
  assert (before_pass ++ chars_of "pass" ++ chars_of " "
          = ("("%char :: formation)
            ++ [")"%char; " "%char; x; "."%char]
            ++ passer_surname ++ chars_of " pass ") as ->.
  { unfold play_before_pass. repeat (rewrite <- ?app_assoc; simpl). reflexivity. }
  rewrite !unguarded_app. apply andb_true_iff; split;
    [|apply andb_true_iff; split; [|apply andb_true_iff; split]].
  - apply (no_period_unguarded ("("%char :: formation)).
    constructor; [reflexivity|exact formation_no_period].
  - destruct passer_surname as [|p1 surname]; [done|].
    cbn [unguarded app chars_of list_ascii_of_string].
    rewrite (target_first ")"), (target_first " "), (target_first ".")
      by reflexivity.
    by rewrite (target_second x ".").
  - apply (letters_unguarded passer_surname _ Hpasser_letters).
  - cbn [unguarded app chars_of list_ascii_of_string].
    by rewrite !target_first.
Qed.

Lemma lstrip_nonspace c s : is_space c = false → lstrip (c :: s) = c :: s.
Proof. intros H. simpl. by rewrite H. Qed.

Lemma rstrip_letters s l :
  Forall (fun c => is_letter c = true) l → l ≠ [] → rstrip (s ++ l) = s ++ l.
Proof.
  intros Hl Hne. unfold rstrip.
  destruct (exists_last Hne) as (l' & c & ->).
  apply Forall_app in Hl as [_ Hc]. apply Forall_cons in Hc as [Hc _].
  rewrite app_assoc, rev_app_distr. cbn [rev app].
  rewrite lstrip_nonspace by by apply letter_not_space.
  change (c :: rev (s ++ l')) with (rev [c] ++ rev (s ++ l')).
  by rewrite <- rev_app_distr, rev_involutive.
Qed.

Lemma sub_spaces_letters l :
  Forall (fun c => is_letter c = true) l → sub_spaces_from false l = l.
Proof.
  induction 1 as [|c l Hc _ IH]; simpl; [done|].
  by rewrite (letter_not_space c Hc), IH.
Qed.

Lemma receiver_normal : sub_spaces (strip receiver) = receiver.
Proof.
  pose proof (upper_is_letter y Hy) as Hy'.
  unfold strip, receiver_name.
  rewrite lstrip_nonspace by by apply letter_not_space.
  change (y :: chars_of ". " ++ receiver_surname)
    with ((y :: chars_of ". ") ++ receiver_surname).
  rewrite rstrip_letters by done.
  unfold sub_spaces. cbn [app chars_of list_ascii_of_string sub_spaces_from].
  rewrite (letter_not_space y Hy').
  destruct receiver_surname as [|r1 surname]; [done|].
  apply Forall_cons in Hreceiver_letters as [Hr1 Hsurname].
  cbn [sub_spaces_from].
  change (is_space ".") with false. change (is_space " ") with true.
  cbn iota. by rewrite (letter_not_space r1 Hr1), sub_spaces_letters.
Qed.

Lemma text_nonempty : String.eqb (str text) "" = false.
Proof. reflexivity. Qed.

Lemma receiver_of_play :
  extract_player_from_play_text (str text) "touchdown" = Some (str receiver).
Proof.
  unfold extract_player_from_play_text. rewrite text_nonempty.
  cbn [patterns_for String.eqb Ascii.eqb Bool.eqb].
  rewrite chars_of_str, text_before_pass.
  destruct (search_lit_lazy true "pass" Dot target_tail starts_pass_target
              (chars_of "pass") (chars_of " ") target receiver
              target_tail_guard) with (before := before_pass) (n := 0%nat)
    as (m & Hm & Hg).
  - repeat constructor.
  - repeat constructor.
  - exact target_match.
  - exact before_target_unguarded.
  - unfold touchdown_patterns, first_match, re_search.
    change (seq [Lit "pass"; LazyStar Dot; Lit "to"; Plus Space;
                 Group name_token; LazyStar Dot; Lit "touchdown"])
      with (Cat (Lit "pass") (Cat (LazyStar Dot) target_tail)).
    rewrite Hm. unfold group1. rewrite Hg. cbn [default fmap option_fmap option_map].
    unfold id. by rewrite receiver_normal.
Qed.

Lemma touchdown_in_text :
  contains (chars_of "touchdown") (lower text) = true.
Proof.
  rewrite text_before_digits, !lower_app.
  change (lower (chars_of " yard touchdown"))
    with (chars_of " yard " ++ chars_of "touchdown" ++ []).
  rewrite !app_assoc, <- (app_assoc _ (chars_of "touchdown")).
  apply contains_app.
Qed.

Lemma pass_in_text : contains (chars_of "pass") (lower text) = true.
Proof.
  rewrite text_before_pass, !lower_app.
  change (lower (chars_of "pass")) with (chars_of "pass").
  apply contains_app.
Qed.

Lemma to_in_text : contains (chars_of "to") (lower text) = true.
Proof.
  rewrite text_before_pass, app_assoc, app_assoc, lower_app.
  unfold play_target. rewrite (lower_app (chars_of "to ")).
  change (lower (chars_of "to ")) with (chars_of "to" ++ chars_of " ").
  rewrite <- (app_assoc (chars_of "to")). apply contains_app.
Qed.

End PassingPlay.


(** ** The touchdown pass inside a game *)

Section Pipeline.

Lemma events_loop_app keyword play_type before after events :
  events_loop keyword play_type (before ++ after) = Some events →
  ∃ earlier later,
    events_loop keyword play_type before = Some earlier
    ∧ events_loop keyword play_type after = Some later
    ∧ events = earlier ++ later.
Proof.
  revert events. induction before as [|play before IH]; intros events.
  - intros H. by exists [], events.
  - cbn [app events_loop].
    destruct (py_get play "text" (JStr "") ≫= as_str) as [text|];
      cbn [mbind option_bind]; [|done].
    destruct (contains _ _).
    + destruct (tag_play play_type play text) as [tagged|];
        cbn [mbind option_bind]; [|done].
      destruct (events_loop keyword play_type (before ++ after)) as [more|];
        cbn [mbind option_bind]; [|done].
      intros [= <-].
      destruct (IH more eq_refl) as (earlier & later & -> & Hl & ->).
      exists (tagged :: earlier), later. by cbn [mbind option_bind].
    + intros (earlier & later & -> & Hl & ->)%IH. by exists earlier, later.
Qed.

Lemma touchdown_loop_app data tds1 tds2 acc :
  touchdown_loop data (tds1 ++ tds2) acc
  = touchdown_loop data tds1 acc ≫= touchdown_loop data tds2.
Proof.
  revert acc. induction tds1 as [|td tds1 IH]; intros acc; [done|].
  cbn [app touchdown_loop].
  destruct (touchdown_step data acc td) as [acc'|]; cbn [mbind option_bind];
    [apply IH|done].
Qed.

Lemma grows_refl a : grows a a.
Proof. by split. Qed.

Lemma grows_trans a b c : grows a b → grows b c → grows a c.
Proof. intros [H1 H2] [H3 H4]. split; eauto. Qed.

Lemma touchdown_step_grows data acc td acc' :
  touchdown_step data acc td = Some acc' → grows (fst acc) (fst acc').
Proof.
  destruct acc as [player_stats processed_players]. unfold touchdown_step.
  repeat match goal with
         | |- context [ if ?b then _ else _ ] => destruct b
         | |- context [ ?x ≫= _ ] =>
             destruct x; cbn [mbind option_bind]; [|done]
         | |- context [ match ?x with Some _ => _ | None => _ end ] =>
             destruct x
         end;
    try done; intros [= <-]; cbn [fst]; split; cbn [passing receiving];
    intros item Hitem; rewrite ?elem_of_app; auto.
Qed.

Lemma touchdown_loop_grows data tds acc acc' :
  touchdown_loop data tds acc = Some acc' → grows (fst acc) (fst acc').
Proof.
  revert acc. induction tds as [|td tds IH]; intros acc; cbn [touchdown_loop].
  - intros [= <-]. apply grows_refl.
  - destruct (touchdown_step data acc td) as [acc1|] eqn:Hstep;
      cbn [mbind option_bind]; [|done].
    intros Hloop. eapply grows_trans; [by eapply touchdown_step_grows|eauto].
Qed.

Lemma interception_loop_grows data ints player_stats player_stats' :
  interception_loop data ints player_stats = Some player_stats' →
  grows player_stats player_stats'.
Proof.
  revert player_stats.
  induction ints as [|i ints IH]; intros player_stats;
    cbn [interception_loop].
  - intros [= <-]. apply grows_refl.
  - destruct (interception_step data player_stats i) as [s1|] eqn:Hstep;
      cbn [mbind option_bind]; [|done].
    intros Hloop. eapply grows_trans; [|eauto].
    revert Hstep. unfold interception_step.
    repeat match goal with
           | |- context [ if ?b then _ else _ ] => destruct b
           | |- context [ ?x ≫= _ ] =>
               destruct x; cbn [mbind option_bind]; [|done]
           end;
      intros [= <-]; by split.
Qed.

(** What a comprehensive record holds of the raw plays. *)
Lemma process_play_by_play_file_lists now file_name data record :
  process_play_by_play_file now file_name (Some data) = Some record →
  ∃ plays touchdowns interceptions,
    py_get data "plays" (JArr []) = Some plays
    ∧ _extract_touchdowns plays = Some touchdowns
    ∧ record_list record "touchdowns" = Some (JArr touchdowns)
    ∧ extract_player_stats_from_comprehensive record
      = '(player_stats, _) ← touchdown_loop record touchdowns (no_stats, []);
        interception_loop record interceptions player_stats.
Proof.
  unfold process_play_by_play_file. cbn [mbind option_bind].
  repeat match goal with
         | |- context [ ?x ≫= _ ] =>
             destruct x eqn:?; cbn [mbind option_bind]; [|done]
         end.
  destruct (negb _); [done|].
  repeat match goal with
         | |- context [ ?x ≫= _ ] =>
             destruct x eqn:?; cbn [mbind option_bind]; [|done]
         end.
  intros [= <-]. eexists _, _, _. split_and!; [done..|reflexivity|reflexivity].
Qed.


End Pipeline.



(** ** Properties of the Event Extractor: the shape of an inferred name *)

Section NameInference.

Local Arguments atom_matches : simpl never.

Lemma surname_class c :
  atom_matches true
    (OneOf [IRange "A" "Z"; IRange "a" "z"; IChar "'"; IChar "-"]) c
  = name_char c.
Proof. ascii_cases c. Qed.

Lemma name_char_not_space c : name_char c = true → is_space c = false.
Proof. ascii_cases c. Qed.

Lemma occurs_in_head w after : occurs_in w (w ++ after).
Proof. by exists [], after. Qed.

Lemma occurs_in_skip w l text : occurs_in w text → occurs_in w (l ++ text).
Proof.
  intros (before & after & ->). exists (l ++ before), after.
  by rewrite <- (assoc_L (++)).
Qed.

Lemma occurs_in_front w text after :
  occurs_in w text → occurs_in w (text ++ after).
Proof.
  intros (before & after' & ->). exists before, (after' ++ after).
  by rewrite <- !(assoc_L (++)).
Qed.

(** The words of the name token. *)
Lemma name_token_words w g g' :
  lang true name_token w g g' →
  ∃ initial blanks surname,
    w = initial :: "."%char :: blanks ++ surname
    ∧ is_letter initial = true
    ∧ Forall (fun c => is_space c = true) blanks
    ∧ surname ≠ [] ∧ Forall (fun c => name_char c = true) surname.
Proof.
  intros Hl. unfold name_token, seq in Hl. cbn [foldr] in Hl. invert_lang.
  match goal with
  | H : atom_matches true (Chr ".") ?c = true |- _ =>
      apply period_ignorecase in H; subst c
  end.
  match goal with
  | H : atom_matches true (OneOf [IRange "A" "Z"]) ?c = true |- _ =>
      rewrite initial_ignorecase in H; rename H into Hinitial
  end.
  match goal with
  | H : Forall _ (?c :: ?l) |- ∃ _ _ _, [?i] ++ _ ++ ?b ++ _ = _ ∧ _ =>
      exists i, b, (c :: l); rename H into Hsurname
  end.
  rewrite app_nil_r. split_and!; [done|done|done|done|].
  eapply Forall_impl; [exact Hsurname|]. intros c Hc. cbn beta in Hc.
  by rewrite surname_class in Hc.
Qed.

Lemma rstrip_nonspace s l :
  Forall (fun c => is_space c = false) l → l ≠ [] → rstrip (s ++ l) = s ++ l.
Proof.
  intros Hl Hne. unfold rstrip.
  destruct (exists_last Hne) as (l' & c & ->).
  apply Forall_app in Hl as [_ Hc]. apply Forall_cons in Hc as [Hc _].
  rewrite app_assoc, rev_app_distr. cbn [rev app lstrip]. rewrite Hc.
  change (c :: rev (s ++ l')) with (rev [c] ++ rev (s ++ l')).
  by rewrite <- rev_app_distr, rev_involutive.
Qed.

Lemma sub_spaces_nonspace in_run l :
  Forall (fun c => is_space c = false) l → l ≠ [] →
  sub_spaces_from in_run l = l.
Proof.
  intros Hl _. revert in_run.
  induction Hl as [|c l Hc _ IH]; intros in_run; cbn [sub_spaces_from];
    [done|].
  by rewrite Hc, IH.
Qed.

Lemma sub_spaces_blanks in_run blanks l :
  Forall (fun c => is_space c = true) blanks →
  Forall (fun c => is_space c = false) l → l ≠ [] →
  sub_spaces_from in_run (blanks ++ l)
  = match blanks with
    | [] => []
    | _ => if in_run then [] else [" "%char]
    end ++ l.
Proof.
  intros Hb Hl Hne. revert in_run.
  induction Hb as [|c blanks Hc _ IH]; intros in_run.
  - by apply sub_spaces_nonspace.
  - cbn [app sub_spaces_from]. rewrite Hc.
    destruct in_run; rewrite IH; by destruct blanks.
Qed.

(** The name token after [strip] and the collapse of white space. *)
Lemma name_token_normal initial blanks surname :
  is_letter initial = true →
  Forall (fun c => is_space c = true) blanks →
  surname ≠ [] → Forall (fun c => name_char c = true) surname →
  sub_spaces (strip (initial :: "."%char :: blanks ++ surname))
  = initial :: "."%char
    :: match blanks with [] => [] | _ => [" "%char] end ++ surname.
Proof.
  intros Hi Hb Hne Hs.
  assert (Forall (fun c => is_space c = false) surname) as Hs'.
  { eapply Forall_impl; [exact Hs|]. apply name_char_not_space. }
  unfold strip. cbn [lstrip]. rewrite (letter_not_space _ Hi).
  change (initial :: "."%char :: blanks ++ surname)
    with ((initial :: "."%char :: blanks) ++ surname).
  rewrite rstrip_nonspace by done.
  unfold sub_spaces. cbn [app sub_spaces_from].
  rewrite (letter_not_space _ Hi). change (is_space ".") with false.
  cbn iota. by rewrite sub_spaces_blanks.
Qed.

(** A word of one of the seven patterns holds the captured name token. *)
Lemma pattern_group play_type patterns pattern w g :
  patterns_for play_type = Some patterns → pattern ∈ patterns →
  lang true pattern w None g →
  ∃ token g0 g1, g = Some token ∧ occurs_in token w
                 ∧ lang true name_token token g0 g1.
Proof.
  unfold patterns_for.
  repeat match goal with
         | |- context [ if ?b then _ else _ ] => destruct b
         end;
    intros [= <-] Hin Hl; try done;
    repeat (apply elem_of_cons in Hin as [->|Hin]);
    try (by apply not_elem_of_nil in Hin);
    cbv [seq foldr] in Hl; invert_lang;
    match goal with
    | H : lang true name_token ?t ?g0 ?g1 |- _ =>
        exists t, g0, g1; split_and!; [done| |done]
    end;
    repeat first [ apply occurs_in_head | apply occurs_in_skip ].
Qed.

Lemma first_match_sound play_type patterns text name :
  patterns_for play_type = Some patterns →
  ∀ tried, (∀ pattern, pattern ∈ tried → pattern ∈ patterns) →
  first_match tried text = Some name → inferred_from text name.
Proof.
  intros Hp tried. induction tried as [|pattern tried IH]; intros Hsub;
    cbn [first_match]; [done|].
  destruct (re_search true pattern text) as [m|] eqn:Hm.
  - intros [= <-]. unfold re_search in Hm.
    apply search_from_sound in Hm as (before & w & -> & Hl).
    apply (pattern_group _ _ _ _ _ Hp) in Hl
      as (token & g0 & g1 & Hg & (b & a & ->) & Htoken);
      [|apply Hsub; by left].
    apply name_token_words in Htoken
      as (initial & blanks & surname & -> & Hi & Hb & Hne & Hs).
    unfold group1. rewrite Hg. cbn [default from_option id].
    rewrite name_token_normal by done.
    exists (before ++ b), initial, blanks, surname, (a ++ rest m).
    split_and!; try done.
    rewrite <- !(assoc_L (++)). cbn [app]. by rewrite <- !(assoc_L (++)).
  - apply IH. intros p Hin. apply Hsub. by right.
Qed.

Lemma extract_player_sound play_text play_type name :
  extract_player_from_play_text play_text play_type = Some name →
  inferred_from (chars_of play_text) (chars_of name).
Proof.
  unfold extract_player_from_play_text.
  destruct (String.eqb play_text ""); [done|].
  destruct (patterns_for play_type) as [patterns|] eqn:Hp; [|done].
  destruct (first_match patterns (chars_of play_text)) as [n|] eqn:Hm;
    [|done].
  intros [= <-]. rewrite chars_of_str.
  by eapply first_match_sound.
Qed.

(** X1. Whatever the play type, an inferred name is read off the text: an
    initial (a letter of either case), a period and a surname of letters,
    apostrophes and hyphens stand in the text, with or without white space
    after the period, and the name returned is that initial, the period, one
    blank if there was white space, and the surname. *)
Theorem inferred_name_is_read_off_the_text play_text play_type name :
  extract_player_from_play_text play_text play_type = Some name →
  inferred_from (chars_of play_text) (chars_of name).
Proof. exact (extract_player_sound play_text play_type name). Qed.

(** X2. A text without a period never yields a player, whatever the play
    type. *)
Theorem no_period_no_player play_text play_type :
  "."%char ∉ chars_of play_text →
  extract_player_from_play_text play_text play_type = None.
Proof.
  intros Hno.
  destruct (extract_player_from_play_text play_text play_type) as [name|]
    eqn:H; [|done].
  apply extract_player_sound in H
    as (before & initial & blanks & surname & after & Ht & _).
  destruct Hno. rewrite Ht. apply elem_of_app. right.
  apply elem_of_cons. right. by left.
Qed.

End NameInference.

Lemma inferred_name_is_read_off_the_text_witness :
  inferred_from (chars_of "Return by j.  O'Neil-Smith for a touchdown")
    (chars_of "j. O'Neil-Smith").
Proof.
  apply (inferred_name_is_read_off_the_text
           "Return by j.  O'Neil-Smith for a touchdown" "touchdown"
           "j. O'Neil-Smith").
  reflexivity.
Defined.

Lemma no_period_no_player_witness :
  extract_player_from_play_text "Smith 5 yard run for touchdown" "touchdown"
  = None.
Proof.
  apply no_period_no_player.
  vm_compute. intros H.
  repeat (apply elem_of_cons in H as [H|H]; [discriminate H|]).
  by apply not_elem_of_nil in H.
Defined.

(** ** Properties of the Weekly Aggregator: yards and passer of a text *)

Section TextHelpers.

Local Arguments atom_matches : simpl never.

Lemma digits_val_from acc ds :
  0 <= acc → Forall (fun c => is_digit c = true) ds →
  0 <= fold_left (fun acc c => 10 * acc + digit_val c) ds acc.
Proof.
  intros Hacc Hds. revert acc Hacc.
  induction Hds as [|d ds Hd _ IH]; intros acc Hacc; cbn [fold_left]; [done|].
  apply IH. assert (0 <= digit_val d); [|lia].
  revert Hd. clear. ascii_cases d.
Qed.

Lemma digits_val_nonneg ds :
  Forall (fun c => is_digit c = true) ds → 0 <= digits_val ds.
Proof. intros H. by apply digits_val_from. Qed.

Lemma exact_literal lit w :
  Forall2 (fun p c => atom_matches false (Chr p) c = true) lit w → w = lit.
Proof.
  induction 1 as [|p c lit w Hc _ IH]; [done|].
  apply Ascii.eqb_eq in Hc. by subst.
Qed.

(** What a successful search for the yards pattern has found. *)
Lemma yards_match_sound text m :
  re_search false yards_pattern text = Some m →
  ∃ before digits blanks,
    yardage_at before digits blanks (rest m) text ∧ grp m = Some digits.
Proof.
  unfold re_search. intros (before & w & -> & Hl)%search_from_sound.
  unfold yards_pattern, seq in Hl. cbn [foldr] in Hl. invert_lang.
  match goal with
  | H : Forall2 _ (chars_of "yard") ?w |- _ =>
      apply exact_literal in H; subst w
  end.
  match goal with
  | Hd : Forall (fun c => atom_matches false Digit c = true) (?d :: ?ds),
    Hb : Forall (fun c => atom_matches false Space c = true) ?b |- _ =>
      exists before, (d :: ds), b; split; [|done];
      split_and!; [|done|exact Hd|exact Hb]
  end.
  by rewrite app_nil_r, <- !(assoc_L (++)).
Qed.

Lemma yards_sound text :
  _extract_yards_from_text text ≠ 0 →
  ∃ before digits blanks after,
    yardage_at before digits blanks after (lower text)
    ∧ _extract_yards_from_text text = digits_val digits.
Proof.
  unfold _extract_yards_from_text.
  destruct (re_search false yards_pattern (lower text)) as [m|] eqn:Hm;
    [|done].
  intros _. apply yards_match_sound in Hm as (before & ds & b & Hy & Hg).
  exists before, ds, b, (rest m). split; [done|].
  unfold group1. by rewrite Hg.
Qed.

Lemma yards_nonneg text : 0 <= _extract_yards_from_text text.
Proof.
  unfold _extract_yards_from_text.
  destruct (re_search false yards_pattern (lower text)) as [m|] eqn:Hm;
    [|done].
  apply yards_match_sound in Hm as (before & ds & b & (_ & _ & Hds & _) & Hg).
  unfold group1. rewrite Hg. by apply digits_val_nonneg.
Qed.

Lemma space_not_digit c : is_space c = true → is_digit c = false.
Proof. ascii_cases c. Qed.

Lemma yards_complete before digits blanks after text :
  yardage_at before digits blanks after (lower text) →
  Forall (fun c => is_digit c = false) before →
  _extract_yards_from_text text = digits_val digits.
Proof.
  intros (Ht & Hne & Hds & Hb) Hbefore.
  unfold _extract_yards_from_text, re_search. rewrite Ht.
  rewrite search_from_skip.
  2:{ eapply Forall_impl; [exact Hbefore|].
      intros c Hc n s. by apply not_digit_fails. }
  destruct digits as [|d ds]; [done|].
  apply Forall_cons in Hds as [Hd Hds].
  erewrite search_from_here.
  2:{ unfold yards_pattern, seq. cbn [foldr app rmatch pos rest grp].
      change (atom_matches false Digit d) with (is_digit d). rewrite Hd.
      apply greedy_max; [exact Hds| |].
      { destruct blanks as [|b blanks]; [done|].
        apply Forall_cons in Hb as [Hb _]. by apply space_not_digit. }
      cbn [pos rest grp]. apply greedy_max; [exact Hb|done|].
      cbn [pos rest grp]. rewrite (lit_match_ok false (chars_of "yard")).
      - reflexivity.
      - repeat constructor. }
  unfold group1. cbn [grp default from_option id]. f_equal.
  repeat first [rewrite length_app | progress cbn [length]].
  match goal with
  | |- take ?n _ = _ => replace n with (S (length ds)) by lia
  end.
  cbn [take app]. by rewrite take_app_length.
Qed.

(** X10. The yardage is never negative: a sign in front of the digits is not
    read. *)
Theorem yards_never_negative text : 0 <= _extract_yards_from_text text.
Proof. exact (yards_nonneg text). Qed.

(** X11. A yardage other than 0 is the value of a run of digits that stands in
    the lower-cased text directly before the word "yard", with or without
    white space in between. *)
Theorem yards_are_digits_before_yard text :
  _extract_yards_from_text text ≠ 0 →
  ∃ before digits blanks after,
    yardage_at before digits blanks after (lower text)
    ∧ _extract_yards_from_text text = digits_val digits.
Proof. exact (yards_sound text). Qed.

(** X12. When the first digits of the text are directly followed by "yard", in
    any case, they are the yardage. *)
Theorem first_number_before_yard_is_the_yardage before digits blanks after
    text :
  yardage_at before digits blanks after (lower text) →
  Forall (fun c => is_digit c = false) before →
  _extract_yards_from_text text = digits_val digits.
Proof. exact (yards_complete before digits blanks after text). Qed.

(** *** The passer *)

Lemma passer_not_later n s :
  search_from false passer_pattern (S n) s = None.
Proof.
  revert n. induction s as [|c s IH]; intros n;
    unfold passer_pattern, seq; cbn [foldr search_from rmatch pos Nat.eqb];
    [done|apply IH].
Qed.

Lemma passer_search text :
  re_search false passer_pattern text
  = rmatch false passer_pattern (MkSt 0 text None) Some.
Proof.
  unfold re_search. destruct text as [|c s]; cbn [search_from];
    destruct (rmatch false passer_pattern _ Some); try done.
  apply passer_not_later.
Qed.

Lemma not_paren_class c :
  atom_matches false (NoneOf [IChar ")"]) c = true ↔ c ≠ ")"%char.
Proof.
  change (atom_matches false (NoneOf [IChar ")"]) c)
    with (negb (Ascii.eqb c ")" || false)).
  rewrite orb_false_r, negb_true_iff. apply Ascii.eqb_neq.
Qed.

Lemma passer_layout_sound text passer :
  _extract_passer_from_text text = Some passer → passer_layout text passer.
Proof.
  unfold _extract_passer_from_text. rewrite passer_search.
  destruct (rmatch false passer_pattern _ Some) as [m|] eqn:Hm; [|done].
  intros [= <-].
  apply rmatch_sound in Hm as (w & st' & Hl & Hs & _ & [= ->]).
  cbn [rest grp] in Hs, Hl. subst text.
  unfold passer_pattern, seq in Hl. cbn [foldr] in Hl. invert_lang.
  repeat match goal with
         | H : atom_matches false (Chr _) ?c = true |- _ =>
             apply Ascii.eqb_eq in H; subst c
         | H : Forall2 _ (chars_of "pass") ?w |- _ =>
             apply exact_literal in H; subst w
         | H : atom_matches false (OneOf [IRange "A" "Z"]) ?c = true |- _ =>
             rewrite initial_exact in H
         end.
  match goal with
  | H : Some _ = grp m |- _ => unfold group1; rewrite <- H
  end.
  cbn [default from_option id].
  match goal with
  | Hf : Forall (fun c => atom_matches false (NoneOf _) c = true) ?f,
    Hb : Forall (fun c => atom_matches false Space c = true) ?b,
    Hi : is_upper_az ?i = true,
    Hs : Forall (fun c => atom_matches false (OneOf _) c = true) (?s1 :: ?l),
    Hg : Forall (fun c => atom_matches false Space c = true) (?g :: ?gs)
    |- _ =>
      exists f, b, i, (s1 :: l), (g :: gs), (rest m);
      rename Hf into Hformation; rename Hs into Hsurname;
      rename Hb into Hblanks; rename Hg into Hgap
  end.
  split_and!.
  - repeat first [ rewrite app_nil_r | rewrite <- (assoc_L (++))
                 | progress cbn [app] ].
    reflexivity.
  - eapply Forall_impl; [exact Hformation|]. intros c. apply not_paren_class.
  - exact Hblanks.
  - by rewrite !app_nil_r.
  - done.
  - done.
  - eapply Forall_impl; [exact Hsurname|].
    intros c Hc. cbn beta in Hc. by rewrite surname_exact in Hc.
  - done.
  - exact Hgap.
Qed.

Lemma passer_layout_complete text passer :
  passer_layout text passer → _extract_passer_from_text text = Some passer.
Proof.
  intros (formation & blanks & initial & surname & gap & after & -> & Hf & Hb
          & -> & Hi & Hne & Hs & Hgne & Hg).
  destruct surname as [|s1 surname]; [done|].
  apply Forall_cons in Hs as [Hs1 Hs].
  destruct gap as [|g1 gap]; [done|].
  apply Forall_cons in Hg as [Hg1 Hg].
  unfold _extract_passer_from_text. rewrite passer_search.
  assert (∃ m, rmatch false passer_pattern
                 (MkSt 0 ("("%char :: formation ++ ")"%char :: blanks
                          ++ (initial :: "."%char :: s1 :: surname)
                          ++ (g1 :: gap) ++ chars_of "pass" ++ after) None)
                 Some = Some m
               ∧ grp m = Some (initial :: "."%char :: s1 :: surname))
    as (m & -> & Hgrp).
  2:{ unfold group1. by rewrite Hgrp. }
  eexists. split.
  - unfold passer_pattern, seq.
    cbn [foldr rmatch pos rest grp Nat.eqb].
    change (atom_matches false (Chr "(") "(") with true. cbn iota.
    apply greedy_max.
    { eapply Forall_impl; [exact Hf|]. intros c. apply not_paren_class. }
    { reflexivity. }
    cbn [pos rest grp].
    change (atom_matches false (Chr ")") ")") with true. cbn iota.
    apply greedy_max; [exact Hb| |].
    { cbn [app]. change (atom_matches false Space initial)
        with (is_space initial).
      apply letter_not_space. by apply upper_is_letter. }
    cbn [pos rest grp app].
    rewrite initial_exact, Hi.
    change (atom_matches false (Chr ".") ".") with true. cbn iota.
    rewrite surname_exact, Hs1.
    apply greedy_max.
    { eapply Forall_impl; [exact Hs|]. intros c Hc. by rewrite surname_exact. }
    { cbn [app]. rewrite surname_exact.
      destruct (is_letter g1) eqn:E; [|done].
      apply letter_not_space in E. congruence. }
    cbn [pos rest grp app].
    change (atom_matches false Space g1) with (is_space g1). rewrite Hg1.
    apply greedy_max; [exact Hg|done|].
    cbn [pos rest grp].
    rewrite (lit_match_ok false (chars_of "pass") (chars_of "pass"))
      by repeat constructor.
    reflexivity.
  - cbn [grp]. f_equal.
    repeat first [rewrite length_app | progress cbn [length]].
    match goal with
    | |- take ?n _ = _ => replace n with (3 + length surname)%nat by lia
    end.
    cbn [take Nat.add]. by rewrite take_app_length.
Qed.

(** X13. A passer is found exactly in the texts with the layout of a passing
    play, and is the passer that stands there: the formation in parentheses
    has to open the text, the passer has to be written "X.Name" with a capital
    initial and no blank, and "pass" has to follow in lower case. *)
Theorem passer_found_iff_layout text passer :
  _extract_passer_from_text text = Some passer ↔ passer_layout text passer.
Proof.
  split; [apply passer_layout_sound|apply passer_layout_complete].
Qed.

End TextHelpers.

Lemma yards_are_digits_before_yard_witness :
  ∃ before digits blanks after,
    yardage_at before digits blanks after
      (lower (chars_of "J.Smith 12 Yard run"))
    ∧ _extract_yards_from_text (chars_of "J.Smith 12 Yard run")
      = digits_val digits.
Proof.
  apply (yards_are_digits_before_yard (chars_of "J.Smith 12 Yard run")).
  vm_compute. discriminate.
Defined.

Lemma first_number_before_yard_is_the_yardage_witness :
  _extract_yards_from_text (chars_of "Loss of -3 YARDS, then 20 yard gain")
  = 3.
Proof.
  apply (first_number_before_yard_is_the_yardage
           (chars_of "loss of -") (chars_of "3") (chars_of " ")
           (chars_of "s, then 20 yard gain")
           (chars_of "Loss of -3 YARDS, then 20 yard gain")).
  - split_and!; [reflexivity|discriminate|repeat constructor..].
  - repeat constructor.
Defined.

Lemma passer_found_iff_layout_witness :
  _extract_passer_from_text
    (chars_of "(Shotgun) J.Smith pass to T. Jones for 5 yard touchdown")
  = Some (chars_of "J.Smith").
Proof.
  apply passer_found_iff_layout.
  exists (chars_of "Shotgun"), (chars_of " "), "J"%char, (chars_of "Smith"),
    (chars_of " "), (chars_of " to T. Jones for 5 yard touchdown").
  split_and!; try reflexivity; try discriminate; repeat constructor;
    discriminate.
Defined.

(** ** The two stages together: the team of a line item *)

Section TeamOfLineItems.

(** The fields of a comprehensive record, read back from a successful
    run. *)
Lemma process_play_by_play_file_inv now file_name content record :
  process_play_by_play_file now file_name content = Some record →
  ∃ data game_info drives plays game_id gi_date gi_status gi_venue teams
    team_stats scoring_plays touchdowns interceptions fumbles,
    content = Some data
    ∧ py_get data "game_info" (JObj []) = Some game_info
    ∧ py_get data "plays" (JArr []) = Some plays
    ∧ py_get game_info "game_id" JNull = Some game_id
    ∧ truthy game_id = true
    ∧ py_get game_info "teams" (JArr []) ≫= py_iter = Some teams
    ∧ team_stats_loop teams [] = Some team_stats
    ∧ _extract_touchdowns plays = Some touchdowns
    ∧ _extract_interceptions plays = Some interceptions
    ∧ record = JObj
        [("game_id", game_id);
         ("date",
          JStr (str (hd [] (split_on "_" (path_stem (chars_of file_name))))));
         ("box_score", JObj
            [("game_info", JObj
                [("game_id", game_id); ("date", gi_date);
                 ("status", gi_status); ("venue", gi_venue);
                 ("attendance", JNum 0)]);
             ("team_stats", JObj team_stats);
             ("player_stats", JObj []);
             ("scoring_summary", JArr [])]);
         ("play_by_play", JObj
            [("game_info", game_info);
             ("drives", drives);
             ("plays", plays);
             ("scoring_plays", JArr scoring_plays);
             ("touchdowns", JArr touchdowns);
             ("interceptions", JArr interceptions);
             ("fumbles", JArr fumbles)]);
         ("processing_timestamp", JStr now)].
Proof.
  unfold process_play_by_play_file, _create_team_stats.
  destruct content as [data|]; [|done]. cbn [mbind option_bind].
  destruct (py_get data "game_info" _) as [game_info|] eqn:Hgi;
    cbn [mbind option_bind]; [|done].
  destruct (py_get data "drives" _) as [drives|] eqn:Hdrives;
    cbn [mbind option_bind]; [|done].
  destruct (py_get data "plays" _) as [plays|] eqn:Hplays;
    cbn [mbind option_bind]; [|done].
  destruct (py_get game_info "game_id" _) as [game_id|] eqn:Hid;
    cbn [mbind option_bind]; [|done].
  destruct (truthy game_id) eqn:Htruthy; cbn [negb]; [|done].
  destruct (py_get game_info "date" _) as [gi_date|];
    cbn [mbind option_bind]; [|done].
  destruct (py_get game_info "status" _) as [gi_status|];
    cbn [mbind option_bind]; [|done].
  destruct (py_get game_info "venue" _) as [gi_venue|];
    cbn [mbind option_bind]; [|done].
  destruct (py_get game_info "teams" _ ≫= py_iter) as [teams|] eqn:Hteams;
    cbn [mbind option_bind]; [|done].
  destruct (team_stats_loop teams []) as [team_stats|] eqn:Hstats;
    cbn [fmap option_fmap option_map mbind option_bind]; [|done].
  destruct (_extract_scoring_plays plays) as [scoring_plays|];
    cbn [mbind option_bind]; [|done].
  destruct (_extract_touchdowns plays) as [touchdowns|] eqn:Htds;
    cbn [mbind option_bind]; [|done].
  destruct (_extract_interceptions plays) as [interceptions|] eqn:Hints;
    cbn [mbind option_bind]; [|done].
  destruct (_extract_fumbles plays) as [fumbles|];
    cbn [mbind option_bind]; [|done].
  intros [= <-].
  exists data, game_info, drives, plays, game_id, gi_date, gi_status,
    gi_venue, teams, team_stats, scoring_plays, touchdowns, interceptions,
    fumbles.
  split_and!; done.
Qed.

Lemma dict_set_head k v k0 v0 d :
  ∃ v' d', dict_set k v ((k0, v0) :: d) = (k0, v') :: d'.
Proof.
  cbn [dict_set]. destruct (String.eqb k k0) eqn:E; [|by eexists _, _].
  apply String.eqb_eq in E as ->. by eexists _, _.
Qed.

Lemma team_stats_loop_head teams k0 v0 d0 team_stats :
  team_stats_loop teams ((k0, v0) :: d0) = Some team_stats →
  ∃ v' d', team_stats = (k0, v') :: d'.
Proof.
  revert v0 d0. induction teams as [|team teams IH]; intros v0 d0;
    cbn [team_stats_loop].
  - intros [= <-]. by eexists _, _.
  - repeat match goal with
           | |- context [ ?x ≫= _ ] =>
               destruct x; cbn [mbind option_bind]; [|done]
           end.
    match goal with
    | |- context [ dict_set ?k ?v _ ] =>
        destruct (dict_set_head k v k0 v0 d0) as (v' & d' & ->)
    end.
    apply IH.
Qed.

(** The team statistics are filed under the abbreviation of the first
    listed team first. *)
Lemma team_stats_loop_first first more team_stats :
  team_stats_loop (first :: more) [] = Some team_stats →
  ∃ abbr v d, abbreviation_of first = Some abbr ∧ team_stats = (abbr, v) :: d.
Proof.
  cbn [team_stats_loop]. unfold abbreviation_of.
  destruct (py_get first "abbreviation" _ ≫= as_str) as [abbr|];
    cbn [mbind option_bind]; [|done].
  repeat match goal with
         | |- context [ ?x ≫= _ ] =>
             destruct x; cbn [mbind option_bind]; [|done]
         end.
  cbn [dict_set]. intros (v' & d' & ->)%team_stats_loop_head.
  by exists abbr, v', d'.
Qed.

Lemma team_of_record now file_name content record :
  process_play_by_play_file now file_name content = Some record →
  ∃ team,
    (∀ play, _extract_team_from_play play record = Some (JStr team))
    ∧ (team = "Unknown Team"
       ∨ ∃ data first more,
           content = Some data
           ∧ listed_teams data = Some (first :: more)
           ∧ abbreviation_of first = Some team).
Proof.
  intros (data & game_info & drives & plays & game_id & gi_date & gi_status
          & gi_venue & teams & team_stats & scoring_plays & touchdowns
          & interceptions & fumbles & -> & Hgi & _ & _ & _ & Hteams & Hstats
          & _ & _ & ->)%process_play_by_play_file_inv.
  unfold _extract_team_from_play.
  cbn [py_get dict_get String.eqb Ascii.eqb Bool.eqb default from_option id
       mbind option_bind py_len].
  destruct (2 <=? length team_stats)%nat eqn:Hlen.
  - destruct teams as [|first more];
      [cbn [team_stats_loop] in Hstats; by simplify_eq|].
    apply team_stats_loop_first in Hstats as (abbr & v & d & Habbr & ->).
    exists abbr. split; [done|]. right. exists data, first, more.
    split_and!; [done| |done].
    unfold listed_teams. rewrite Hgi. by cbn [mbind option_bind].
  - exists "Unknown Team". split; [done|by left].
Qed.

Lemma touchdown_step_credited data team acc td acc' :
  (∀ play, _extract_team_from_play play data = Some (JStr team)) →
  touchdown_step data acc td = Some acc' →
  credited_to team (fst acc) → credited_to team (fst acc').
Proof.
  intros Hteam. destruct acc as [player_stats processed_players].
  unfold touchdown_step. rewrite Hteam.
  cbn [mbind option_bind as_str].
  repeat match goal with
         | |- context [ if ?b then _ else _ ] => destruct b
         | |- context [ ?x ≫= _ ] =>
             destruct x; cbn [mbind option_bind]; [|done]
         | |- context [ match ?x with Some _ => _ | None => _ end ] =>
             destruct x
         end;
    try done; intros [= <-]; cbn [fst]; try done;
    intros (Hp & Hru & Hre & Hd); unfold credited_to;
    cbn [passing rushing receiving defensive];
    rewrite ?Forall_app, ?Forall_singleton; done.
Qed.

Lemma touchdown_loop_credited data team tds acc acc' :
  (∀ play, _extract_team_from_play play data = Some (JStr team)) →
  touchdown_loop data tds acc = Some acc' →
  credited_to team (fst acc) → credited_to team (fst acc').
Proof.
  intros Hteam. revert acc.
  induction tds as [|td tds IH]; intros acc; cbn [touchdown_loop].
  - by intros [= <-].
  - destruct (touchdown_step data acc td) as [acc1|] eqn:Hstep;
      cbn [mbind option_bind]; [|done].
    intros Hloop Hacc. apply (IH _ Hloop).
    by eapply touchdown_step_credited.
Qed.

Lemma interception_loop_credited data team ints s s' :
  (∀ play, _extract_team_from_play play data = Some (JStr team)) →
  interception_loop data ints s = Some s' →
  credited_to team s → credited_to team s'.
Proof.
  intros Hteam. revert s.
  induction ints as [|i ints IH]; intros s; cbn [interception_loop].
  - by intros [= <-].
  - destruct (interception_step data s i) as [s1|] eqn:Hstep;
      cbn [mbind option_bind]; [|done].
    intros Hloop Hs. apply (IH _ Hloop). revert Hstep.
    unfold interception_step. rewrite Hteam.
    cbn [mbind option_bind as_str].
    repeat match goal with
           | |- context [ if ?b then _ else _ ] => destruct b
           | |- context [ ?x ≫= _ ] =>
               destruct x; cbn [mbind option_bind]; [|done]
           end;
      intros [= <-]; [done|].
    destruct Hs as (Hp & Hru & Hre & Hd). unfold credited_to.
    cbn [passing rushing receiving defensive].
    rewrite ?Forall_app, ?Forall_singleton. done.
Qed.

Lemma extraction_credited data team player_stats :
  (∀ play, _extract_team_from_play play data = Some (JStr team)) →
  extract_player_stats_from_comprehensive data = Some player_stats →
  credited_to team player_stats.
Proof.
  intros Hteam. unfold extract_player_stats_from_comprehensive.
  destruct (py_get data "play_by_play" _) as [play_by_play|];
    cbn [mbind option_bind]; [|done].
  destruct (py_get play_by_play "touchdowns" _) as [touchdowns|];
    cbn [mbind option_bind]; [|done].
  destruct (py_get play_by_play "interceptions" _) as [interceptions|];
    cbn [mbind option_bind]; [|done].
  destruct (py_iter touchdowns) as [tds|]; cbn [mbind option_bind]; [|done].
  destruct (touchdown_loop data tds (no_stats, []))
    as [[stats1 processed1]|] eqn:Hloop1; cbn [mbind option_bind]; [|done].
  destruct (py_iter interceptions) as [ints|]; cbn [mbind option_bind];
    [|done].
  intros Hloop2.
  apply (interception_loop_credited _ _ _ _ _ Hteam Hloop2).
  apply (touchdown_loop_credited _ _ _ _ _ Hteam Hloop1).
  unfold credited_to. cbn. by repeat split.
Qed.


End TeamOfLineItems.


(** ** The two stages together: file names *)

Section FileNames.

Lemma rfind_from_app c s t i found :
  rfind_from c (s ++ t) i found
  = rfind_from c t (i + length s) (rfind_from c s i found).
Proof.
  revert i found. induction s as [|x s IH]; intros i found;
    cbn [app rfind_from length].
  - by rewrite Nat.add_0_r.
  - by rewrite IH, Nat.add_succ_r.
Qed.

(** The stem of a name that ends in ".json". *)
Lemma path_stem_json s :
  s ≠ [] → path_stem (s ++ chars_of ".json") = s.
Proof.
  intros Hs. unfold path_stem. rewrite rfind_from_app.
  cbn [chars_of list_ascii_of_string rfind_from Ascii.eqb Bool.eqb].
  cbn [Nat.add]. rewrite length_app. cbn [length].
  destruct s as [|c s]; [done|]. cbn [length].
  replace (0 <? S (length s))%nat with true
    by (symmetry; apply Nat.ltb_lt; lia).
  replace (S (length s) <? S (length s) + 5 - 1)%nat with true
    by (symmetry; apply Nat.ltb_lt; lia).
  cbn [andb]. change (S (length s)) with (length (c :: s)).
  by rewrite take_app_length.
Qed.

Lemma unguarded_first a p l s :
  Forall (fun c => Ascii.eqb a c = false) l →
  unguarded (starts_with (a :: p)) l s = true.
Proof.
  induction 1 as [|c l Hc _ IH]; cbn [unguarded app]; [done|].
  change (starts_with (a :: p) (c :: l ++ s))
    with (Ascii.eqb a c && starts_with p (l ++ s)).
  by rewrite Hc, IH.
Qed.

Lemma replace_from_skip fuel old new pre s :
  unguarded (starts_with old) pre s = true → (length pre ≤ fuel)%nat →
  replace_from fuel old new (pre ++ s)
  = pre ++ replace_from (fuel - length pre) old new s.
Proof.
  revert fuel. induction pre as [|c pre IH]; intros fuel;
    cbn [unguarded app length].
  - by rewrite Nat.sub_0_r.
  - intros [Hc Hu]%andb_true_iff Hfuel. apply negb_true_iff in Hc.
    destruct fuel as [|fuel]; [lia|]. cbn [replace_from].
    cbn [app] in Hc. rewrite Hc, IH by (done || lia). done.
Qed.

Lemma replace_from_last fuel old new :
  old ≠ [] → (0 < fuel)%nat → replace_from fuel old new old = new.
Proof.
  intros Hold Hfuel. destruct fuel as [|fuel]; [lia|].
  destruct old as [|a old]; [done|]. cbn [replace_from].
  pose proof (starts_with_app (a :: old) []) as Hstart.
  rewrite app_nil_r in Hstart. rewrite Hstart, drop_all.
  destruct fuel; cbn [replace_from]; by rewrite app_nil_r.
Qed.

Lemma split_on_whole sep w :
  Forall (fun c => c ≠ sep) w → split_on sep w = [w].
Proof.
  induction 1 as [|c w Hc _ IH]; cbn [split_on]; [done|].
  apply Ascii.eqb_neq in Hc. by rewrite Hc, IH.
Qed.

Lemma split_on_app sep w s :
  Forall (fun c => c ≠ sep) w →
  split_on sep (w ++ sep :: s) = w :: split_on sep s.
Proof.
  induction 1 as [|c w Hc _ IH]; cbn [app split_on].
  - by rewrite Ascii.eqb_refl.
  - apply Ascii.eqb_neq in Hc. by rewrite Hc, IH.
Qed.

Lemma digit_not_underscore c : is_digit c = true → c ≠ "_"%char.
Proof. intros H ->. discriminate H. Qed.

Lemma digit_not_p c : is_digit c = true → Ascii.eqb "p" c = false.
Proof. ascii_cases c. Qed.

Variables date game_id : chars.
Hypothesis Hdate : Forall (fun c => c ≠ "_"%char) date.
Hypothesis Hid : Forall (fun c => is_digit c = true) game_id.

Lemma id_no_underscore : Forall (fun c => c ≠ "_"%char) game_id.
Proof. eapply Forall_impl; [exact Hid|]. apply digit_not_underscore. Qed.

Lemma stem_of_source :
  path_stem (chars_of (play_by_play_name date game_id))
  = date ++ chars_of "_" ++ game_id ++ chars_of "_play_by_play".
Proof.
  unfold play_by_play_name. rewrite chars_of_str.
  change (chars_of "_play_by_play.json")
    with (chars_of "_play_by_play" ++ chars_of ".json").
  rewrite !(assoc_L (++)). rewrite path_stem_json; [done|].
  intros H. apply (f_equal length) in H. rewrite !length_app in H.
  cbn [length chars_of list_ascii_of_string] in H. lia.
Qed.

Lemma replace_in_stem :
  replace (chars_of "_play_by_play") (chars_of "_complete")
    (date ++ chars_of "_" ++ game_id ++ chars_of "_play_by_play")
  = date ++ chars_of "_" ++ game_id ++ chars_of "_complete".
Proof.
  unfold replace. rewrite !(assoc_L (++)).
  rewrite replace_from_skip.
  - rewrite replace_from_last; [done|done|].
    rewrite !length_app. cbn [length chars_of list_ascii_of_string]. lia.
  - rewrite <- !(assoc_L (++)). rewrite unguarded_app.
    apply andb_true_iff. split.
    + apply unguarded_first. eapply Forall_impl; [exact Hdate|].
      intros c Hc. apply Ascii.eqb_neq. congruence.
    + cbn [chars_of list_ascii_of_string app unguarded].
      apply andb_true_iff. split.
      * destruct game_id as [|d ds]; [done|].
        apply Forall_cons in Hid as [Hd _].
        cbn [app starts_with]. by rewrite (digit_not_p d Hd).
      * apply unguarded_first. eapply Forall_impl; [exact id_no_underscore|].
        intros c Hc. apply Ascii.eqb_neq. congruence.
  - rewrite !length_app. lia.
Qed.

Lemma comprehensive_name_of_source :
  comprehensive_name (play_by_play_name date game_id)
  = complete_name date game_id.
Proof.
  unfold comprehensive_name. rewrite stem_of_source, replace_in_stem.
  unfold complete_name. f_equal. by rewrite <- !(assoc_L (++)).
Qed.

Lemma split_complete_name :
  split_on "_" (chars_of (complete_name date game_id))
  = [date; game_id; chars_of "complete.json"].
Proof.
  unfold complete_name. rewrite chars_of_str.
  change (chars_of "_" ++ game_id ++ chars_of "_complete.json")
    with ("_"%char :: game_id ++ "_"%char :: chars_of "complete.json").
  rewrite (split_on_app _ _ _ Hdate), (split_on_app _ _ _ id_no_underscore).
  by rewrite split_on_whole by (repeat constructor; discriminate).
Qed.

Lemma split_stem :
  split_on "_" (path_stem (chars_of (play_by_play_name date game_id)))
  = [date; game_id; chars_of "play"; chars_of "by"; chars_of "play"].
Proof.
  rewrite stem_of_source.
  change (chars_of "_" ++ game_id ++ chars_of "_play_by_play")
    with ("_"%char :: game_id ++ "_"%char :: chars_of "play_by_play").
  by rewrite (split_on_app _ _ _ Hdate), (split_on_app _ _ _ id_no_underscore).
Qed.

Lemma source_is_selected :
  glob_matches None (play_by_play_name date game_id) = true.
Proof.
  unfold glob_matches, play_by_play_name, ends_with.
  rewrite chars_of_str. cbn [default from_option Datatypes.id chars_of
    list_ascii_of_string starts_with length drop andb].
  rewrite drop_0, !(assoc_L (++)), rev_app_distr. apply starts_with_app.
Qed.

(** X6. For a game file named "<date>_<game_id>_play_by_play.json", with a
    date free of underscores and a numeric identifier: the file is selected by
    the extractor, its record carries the date, its output is named
    "<date>_<game_id>_complete.json", and the aggregator reads the same date
    and identifier back from that name. *)
Theorem file_names_carry_date_and_id :
  glob_matches None (play_by_play_name date game_id) = true
  ∧ comprehensive_name (play_by_play_name date game_id)
    = complete_name date game_id
  ∧ date_part (complete_name date game_id) = str date
  ∧ split_on "_" (chars_of (complete_name date game_id))
    = [date; game_id; chars_of "complete.json"]
  ∧ ∀ now content record,
      process_play_by_play_file now (play_by_play_name date game_id) content
      = Some record →
      py_get record "date" JNull = Some (JStr (str date)).
Proof.
  split_and!.
  - exact source_is_selected.
  - exact comprehensive_name_of_source.
  - unfold date_part. by rewrite split_complete_name.
  - exact split_complete_name.
  - intros now content record
      (data & game_info & drives & plays & gid & gi_date & gi_status
       & gi_venue & teams & team_stats & scoring_plays & touchdowns
       & interceptions & fumbles & _ & _ & _ & _ & _ & _ & _ & _ & _
       & ->)%process_play_by_play_file_inv.
    by rewrite split_stem.
Qed.

End FileNames.

Lemma file_names_carry_date_and_id_witness :
  comprehensive_name "2025-08-09_401773001_play_by_play.json"
  = "2025-08-09_401773001_complete.json"
  ∧ date_part "2025-08-09_401773001_complete.json" = "2025-08-09".
Proof.
  destruct (file_names_carry_date_and_id (chars_of "2025-08-09")
              (chars_of "401773001")) as (_ & Hname & Hdate & _).
  - repeat constructor; discriminate.
  - repeat constructor.
  - split; [exact Hname|exact Hdate].
Defined.

(** ** Properties of the Event Extractor: what a run leaves behind *)

Section BatchRun.

Variable env : environment.

Lemma process_one_unfold self f :
  process_one env self f
  = if is_fresh self f then self
    else match output_for env f with
         | Some out =>
             Processor (<[comprehensive_name (src_name f) := out]>
                          (comprehensive_dir self))
               (S (processed_count self)) (failed_count self)
         | None =>
             Processor (comprehensive_dir self) (processed_count self)
               (S (failed_count self))
         end.
Proof.
  unfold process_one, output_for. destruct (is_fresh self f); [done|].
  destruct (process_play_by_play_file _ _ _); [|done].
  by destruct (can_write env _).
Qed.

Lemma is_fresh_dir self self' f :
  comprehensive_dir self = comprehensive_dir self' →
  is_fresh self f = is_fresh self' f.
Proof. unfold is_fresh. by intros ->. Qed.

Lemma process_one_settled self f :
  settled env self f →
  comprehensive_dir (process_one env self f) = comprehensive_dir self
  ∧ processed_count (process_one env self f) = processed_count self.
Proof.
  rewrite process_one_unfold. intros [Hfresh|Hnone].
  - by rewrite Hfresh.
  - rewrite Hnone. by destruct (is_fresh self f).
Qed.

Lemma process_one_settles self f :
  src_mtime f < now_mtime env (src_name f) →
  settled env (process_one env self f) f.
Proof.
  intros Hlater. rewrite process_one_unfold.
  destruct (is_fresh self f) eqn:Hfresh; [by left|].
  destruct (output_for env f) as [out|] eqn:Hout; [|by right].
  left. unfold is_fresh. cbn [comprehensive_dir].
  rewrite lookup_insert_eq. unfold output_for in Hout.
  destruct (process_play_by_play_file _ _ _); [|done].
  destruct (can_write env _); [|done].
  injection Hout as <-. cbn [out_mtime]. by apply Z.gtb_lt.
Qed.

Lemma process_one_keeps_settled self f g :
  (∀ name, src_mtime f < now_mtime env name) →
  settled env self f → settled env (process_one env self g) f.
Proof.
  intros Hlater [Hfresh|Hnone]; [|by right]. left.
  rewrite process_one_unfold.
  destruct (is_fresh self g); [done|].
  destruct (output_for env g) as [out|] eqn:Hout; [|done].
  revert Hfresh. unfold is_fresh. cbn [comprehensive_dir].
  destruct (decide (comprehensive_name (src_name g)
                    = comprehensive_name (src_name f))) as [->|Hne].
  - intros _. rewrite lookup_insert_eq. unfold output_for in Hout.
    destruct (process_play_by_play_file _ _ _); [|done].
    destruct (can_write env _); [|done].
    injection Hout as <-. cbn [out_mtime]. by apply Z.gtb_lt.
  - by rewrite lookup_insert_ne.
Qed.

Lemma run_keeps_settled fs self f :
  (∀ name, src_mtime f < now_mtime env name) →
  settled env self f → settled env (foldl (process_one env) self fs) f.
Proof.
  intros Hlater. revert self.
  induction fs as [|g fs IH]; intros self Hs; cbn [foldl]; [done|].
  by apply IH, process_one_keeps_settled.
Qed.

Lemma run_settles fs self :
  Forall (fun f => ∀ name, src_mtime f < now_mtime env name) fs →
  Forall (settled env (foldl (process_one env) self fs)) fs.
Proof.
  intros Hlater. revert self.
  induction Hlater as [|f fs Hf _ IH]; intros self; cbn [foldl];
    constructor; [|apply IH].
  apply run_keeps_settled; [done|]. by apply process_one_settles.
Qed.

Lemma settled_dir self self' f :
  comprehensive_dir self = comprehensive_dir self' →
  settled env self f → settled env self' f.
Proof.
  intros Hdir [Hfresh|Hnone]; [left|by right].
  by rewrite <- (is_fresh_dir self self' f Hdir).
Qed.

Lemma run_on_settled fs self :
  Forall (settled env self) fs →
  comprehensive_dir (foldl (process_one env) self fs) = comprehensive_dir self
  ∧ processed_count (foldl (process_one env) self fs) = processed_count self.
Proof.
  revert self. induction fs as [|f fs IH]; intros self Hs; cbn [foldl];
    [done|].
  apply Forall_cons in Hs as [Hf Hfs].
  destruct (process_one_settled self f Hf) as [Hdir Hcount].
  destruct (IH (process_one env self f)) as [Hdir' Hcount'].
  - eapply Forall_impl; [exact Hfs|]. intros g. by apply settled_dir.
  - split; congruence.
Qed.

Lemma second_run fs self processed failed :
  Forall (fun f => ∀ name, src_mtime f < now_mtime env name) fs →
  let first := foldl (process_one env) self fs in
  let second :=
    foldl (process_one env)
      (Processor (comprehensive_dir first) processed failed) fs in
  processed_count second = processed
  ∧ comprehensive_dir second = comprehensive_dir first.
Proof.
  intros Hlater first second.
  destruct (run_on_settled fs
              (Processor (comprehensive_dir first) processed failed))
    as [Hdir Hcount]; [|done].
  eapply Forall_impl; [exact (run_settles fs self Hlater)|].
  intros f. by apply settled_dir.
Qed.

(** A run never removes an output, and leaves alone every output that is
    not the target of a selected file. *)
Lemma process_one_lookup self f name :
  (is_Some (comprehensive_dir self !! name) →
   is_Some (comprehensive_dir (process_one env self f) !! name))
  ∧ (comprehensive_name (src_name f) ≠ name →
     comprehensive_dir (process_one env self f) !! name
     = comprehensive_dir self !! name).
Proof.
  rewrite process_one_unfold.
  destruct (is_fresh self f); [done|].
  destruct (output_for env f) as [out|]; [|done].
  cbn [comprehensive_dir]. split.
  - intros Hsome. apply lookup_insert_is_Some.
    destruct (decide (comprehensive_name (src_name f) = name)); [by left|].
    by right.
  - intros Hne. by rewrite lookup_insert_ne.
Qed.

Lemma run_lookup fs self name :
  (is_Some (comprehensive_dir self !! name) →
   is_Some (comprehensive_dir (foldl (process_one env) self fs) !! name))
  ∧ (Forall (fun f => comprehensive_name (src_name f) ≠ name) fs →
     comprehensive_dir (foldl (process_one env) self fs) !! name
     = comprehensive_dir self !! name).
Proof.
  revert self. induction fs as [|f fs IH]; intros self; cbn [foldl];
    [done|].
  destruct (IH (process_one env self f)) as [IH1 IH2].
  destruct (process_one_lookup self f name) as [H1 H2]. split.
  - intros Hsome. by apply IH1, H1.
  - intros [Hf Hfs]%Forall_cons. by rewrite IH2, H2.
Qed.

(** X7. When every output written gets a modification time later than that of
    every source file, a run that follows another one on the same source files
    processes nothing: it leaves the comprehensive directory as the first run
    left it, and its count of processed files is 0. *)
Theorem second_run_processes_nothing args dir existing :
  Forall (fun f => ∀ name, src_mtime f < now_mtime env name) dir →
  let first := fst (Extractor.main env args dir existing) in
  let second :=
    fst (Extractor.main env args dir (comprehensive_dir first)) in
  processed_count second = 0%nat
  ∧ comprehensive_dir second = comprehensive_dir first.
Proof.
  intros Hlater. cbn zeta. rewrite !main_unfold. cbn [fst].
  apply second_run. apply files_to_process_Forall.
  eapply Forall_impl; [exact Hlater|]. by intros f Hf _.
Qed.


End BatchRun.

Section Selection.

Lemma insert_sorted_perm f fs : insert_sorted f fs ≡ₚ f :: fs.
Proof.
  induction fs as [|g fs IH]; cbn [insert_sorted]; [done|].
  destruct (String.leb _ _); [done|]. by rewrite IH, Permutation_swap.
Qed.

Lemma sort_files_perm fs : sort_files fs ≡ₚ fs.
Proof.
  induction fs as [|f fs IH]; cbn [sort_files foldr]; [done|].
  rewrite insert_sorted_perm. by f_equiv.
Qed.

Lemma ascending_cons f g fs :
  String.leb (src_name f) (src_name g) = true →
  ascending (g :: fs) → ascending (f :: g :: fs).
Proof.
  intros Hfg Hs [|i] f' g' Hf' Hg'; cbn in Hf', Hg'.
  - by simplify_eq.
  - by apply (Hs i).
Qed.

Lemma ascending_tail f fs : ascending (f :: fs) → ascending fs.
Proof. intros Hs i f' g' Hf' Hg'. by apply (Hs (S i)). Qed.

Lemma ascending_one f : ascending [f].
Proof. intros [|i] f' g' Hf' Hg'; cbn in Hg'; done. Qed.

Lemma insert_sorted_head f fs :
  ∃ h rest, insert_sorted f fs = h :: rest
    ∧ (h = f ∨ ∃ fs', fs = h :: fs'
                      ∧ String.leb (src_name h) (src_name f) = true).
Proof.
  destruct fs as [|g fs]; cbn [insert_sorted]; [by eexists _, _; eauto|].
  destruct (String.leb (src_name f) (src_name g)) eqn:E.
  - eexists _, _. eauto.
  - eexists _, _. split; [done|]. right. exists fs. split; [done|].
    destruct (String.leb_total (src_name f) (src_name g)); congruence.
Qed.

Lemma insert_sorted_ascending f fs :
  ascending fs → ascending (insert_sorted f fs).
Proof.
  induction fs as [|g fs IH]; cbn [insert_sorted]; intros Hs.
  - apply ascending_one.
  - destruct (String.leb (src_name f) (src_name g)) eqn:E.
    + by apply ascending_cons.
    + assert (String.leb (src_name g) (src_name f) = true) as Hgf.
      { destruct (String.leb_total (src_name f) (src_name g)); congruence. }
      specialize (IH (ascending_tail _ _ Hs)).
      destruct (insert_sorted_head f fs) as (h & rest & Heq & Hh).
      rewrite Heq in IH |- *. apply ascending_cons; [|done].
      destruct Hh as [->|(fs' & -> & _)]; [done|].
      by apply (Hs 0%nat g h).
Qed.

Lemma sort_files_ascending fs : ascending (sort_files fs).
Proof.
  induction fs as [|f fs IH]; cbn [sort_files foldr].
  - intros i f g Hf. done.
  - by apply insert_sorted_ascending.
Qed.


End Selection.

Lemma second_run_processes_nothing_witness :
  let first :=
    fst (Extractor.main sample_env (Arguments_ None false) [sample_source] ∅)
  in
  let second :=
    fst (Extractor.main sample_env (Arguments_ None false) [sample_source]
           (comprehensive_dir first)) in
  processed_count first = 1%nat
  ∧ processed_count second = 0%nat
  ∧ comprehensive_dir second = comprehensive_dir first.
Proof.
  split; [reflexivity|].
  apply (second_run_processes_nothing sample_env (Arguments_ None false)
           [sample_source] ∅).
  repeat constructor.
Defined.



(** ** Properties of the Weekly Aggregator: the weekly files *)

Section WeeklyFiles.

Lemma week_get_set_eq week e weekly_data :
  week_get week (week_set week e weekly_data) = Some e.
Proof.
  induction weekly_data as [|[w e'] more IH]; cbn [week_set week_get].
  - by rewrite Z.eqb_refl.
  - destruct (w =? week) eqn:E; cbn [week_get]; by rewrite E.
Qed.

Lemma week_get_set_ne week week' e weekly_data :
  week ≠ week' →
  week_get week (week_set week' e weekly_data) = week_get week weekly_data.
Proof.
  intros Hne.
  assert ((week' =? week) = false) as Hneq by (apply Z.eqb_neq; congruence).
  induction weekly_data as [|[w e'] more IH]; cbn [week_set week_get].
  - by rewrite Hneq.
  - destruct (w =? week') eqn:E; cbn [week_get]; [|by rewrite IH].
    apply Z.eqb_eq in E as ->. by rewrite Hneq.
Qed.

Lemma week_set_keys week e weekly_data k :
  k ∈ map fst (week_set week e weekly_data)
  ↔ k = week ∨ k ∈ map fst weekly_data.
Proof.
  induction weekly_data as [|[w e'] more IH]; cbn [week_set map fst].
  - rewrite list_elem_of_singleton. split; [by left|].
    by intros [?|?%not_elem_of_nil].
  - destruct (w =? week) eqn:E; cbn [map fst]; rewrite !elem_of_cons.
    + apply Z.eqb_eq in E as ->. tauto.
    + rewrite IH. tauto.
Qed.

Lemma week_set_NoDup week e weekly_data :
  NoDup (map fst weekly_data) → NoDup (map fst (week_set week e weekly_data)).
Proof.
  induction weekly_data as [|[w e'] more IH]; cbn [week_set map fst].
  - intros _. apply NoDup_singleton.
  - intros [Hw Hmore]%NoDup_cons.
    destruct (w =? week) eqn:E; cbn [map fst].
    + by apply NoDup_cons.
    + apply NoDup_cons. split; [|by apply IH].
      rewrite week_set_keys. intros [->|H]; [|done].
      by rewrite Z.eqb_refl in E.
Qed.

Lemma week_get_elem_of week e weekly_data :
  NoDup (map fst weekly_data) →
  (week, e) ∈ weekly_data ↔ week_get week weekly_data = Some e.
Proof.
  induction weekly_data as [|[w e'] more IH]; cbn [week_get map fst].
  - intros _. split; [by intros ?%not_elem_of_nil|done].
  - intros [Hw Hmore]%NoDup_cons. rewrite elem_of_cons.
    destruct (w =? week) eqn:E.
    + apply Z.eqb_eq in E as ->. split.
      * intros [[= ->]|Hin]; [done|]. destruct Hw.
        apply list_elem_of_fmap. by exists (week, e).
      * intros [= ->]. by left.
    + rewrite <- (IH Hmore). apply Z.eqb_neq in E. split.
      * intros [[= -> ->]|Hin]; done.
      * by right.
Qed.

Lemma extend_stats_assoc a b c :
  extend_stats (extend_stats a b) c = extend_stats a (extend_stats b c).
Proof.
  unfold extend_stats. cbn [passing rushing receiving defensive].
  by rewrite <- !(assoc_L (++)).
Qed.

Lemma extend_stats_no_stats_r a : extend_stats a no_stats = a.
Proof. destruct a. unfold extend_stats. cbn. by rewrite !app_nil_r. Qed.

Lemma extend_stats_no_stats_l a : extend_stats no_stats a = a.
Proof. by destruct a. Qed.

Lemma stats_concat_app l1 l2 :
  stats_concat (l1 ++ l2)
  = extend_stats (stats_concat l1) (stats_concat l2).
Proof.
  induction l1 as [|s l1 IH]; cbn [app stats_concat foldr].
  - by rewrite extend_stats_no_stats_l.
  - fold (stats_concat (l1 ++ l2)). fold (stats_concat l1).
    by rewrite IH, extend_stats_assoc.
Qed.

Lemma add_files_app week old fs1 fs2 :
  add_files week (add_files week old fs1) fs2
  = add_files week old (fs1 ++ fs2).
Proof.
  destruct fs1 as [|f1 fs1]; [done|].
  destruct fs2 as [|f2 fs2]; [by rewrite app_nil_r|].
  unfold add_files. cbn [app default from_option id w_games w_player_stats].
  f_equal. f_equal.
  - change (f1 :: fs1 ++ f2 :: fs2) with ((f1 :: fs1) ++ f2 :: fs2).
    by rewrite omap_app, (assoc_L (++)).
  - change (f1 :: fs1 ++ f2 :: fs2) with ((f1 :: fs1) ++ f2 :: fs2).
    by rewrite map_app, stats_concat_app, extend_stats_assoc.
Qed.

Lemma files_of_week_one week f :
  files_of_week week [f] = if decide (week_of_file f = Some week) then [f]
                           else [].
Proof.
  unfold files_of_week. rewrite filter_cons, filter_nil. done.
Qed.

(** One turn of the loop, seen from the entry of a week. *)
Lemma aggregate_file_get weekly_data f week :
  week_get week (fst (aggregate_file weekly_data f))
  = add_files week (week_get week weekly_data) (files_of_week week [f]).
Proof.
  rewrite files_of_week_one. destruct f as [filename content].
  unfold week_of_file, aggregate_file, game_of, stats_of, date_part.
  cbn [fst snd].
  destruct content as [data|]; [|by rewrite decide_False].
  destruct (get_week_for_date _) as [[w|]|]; try by rewrite decide_False.
  destruct (w =? 0) eqn:Hzero; [by rewrite decide_False|].
  destruct (decide (Some w = Some week)) as [[= ->]|Hne].
  - unfold add_files, game_of, stats_of.
    cbn [mbind option_bind omap list_omap map stats_concat foldr fst snd].
    destruct (extract_game_info data filename) as [game_info|];
      [destruct (extract_player_stats_from_comprehensive data)
         as [player_stats|]|];
      cbn [fst]; rewrite week_get_set_eq; f_equal;
      rewrite ?extend_stats_no_stats_r, ?app_nil_r; done.
  - assert (week ≠ w) as Hne' by congruence.
    destruct (extract_game_info data filename) as [game_info|];
      [destruct (extract_player_stats_from_comprehensive data)
         as [player_stats|]|];
      cbn [fst]; by rewrite week_get_set_ne.
Qed.

Lemma aggregate_files_get weekly_data files week :
  week_get week (fst (aggregate_files weekly_data files))
  = add_files week (week_get week weekly_data) (files_of_week week files).
Proof.
  revert weekly_data. induction files as [|f files IH]; intros weekly_data;
    cbn [aggregate_files]; [done|].
  pose proof (aggregate_file_get weekly_data f week) as Hstep.
  destruct (aggregate_file weekly_data f) as [weekly_data1 ev].
  specialize (IH weekly_data1).
  destruct (aggregate_files weekly_data1 files) as [final evs].
  cbn [fst] in *. rewrite IH, Hstep, add_files_app.
  unfold files_of_week. by rewrite <- filter_app.
Qed.

Lemma aggregate_file_NoDup weekly_data f :
  NoDup (map fst weekly_data) →
  NoDup (map fst (fst (aggregate_file weekly_data f))).
Proof.
  intros Hnd. destruct f as [filename content]. unfold aggregate_file.
  repeat match goal with
         | |- context [ match ?x with _ => _ end ] => destruct x
         end;
    cbn [fst]; try done; by apply week_set_NoDup.
Qed.

Lemma aggregate_files_NoDup weekly_data files :
  NoDup (map fst weekly_data) →
  NoDup (map fst (fst (aggregate_files weekly_data files))).
Proof.
  revert weekly_data. induction files as [|f files IH]; intros weekly_data;
    cbn [aggregate_files]; [done|].
  intros Hnd. apply (aggregate_file_NoDup _ f) in Hnd.
  destruct (aggregate_file weekly_data f) as [weekly_data1 ev].
  specialize (IH weekly_data1 Hnd).
  by destruct (aggregate_files weekly_data1 files) as [final evs].
Qed.

Lemma insert_by_name_perm f fs : insert_by_name f fs ≡ₚ f :: fs.
Proof.
  induction fs as [|g fs IH]; cbn [insert_by_name]; [done|].
  destruct (String.leb _ _); [done|]. by rewrite IH, Permutation_swap.
Qed.

Lemma sorted_perm fs : sorted fs ≡ₚ fs.
Proof.
  induction fs as [|f fs IH]; cbn [sorted foldr]; [done|].
  rewrite insert_by_name_perm. by f_equiv.
Qed.

(** The weeks of the table are 1 to 4. *)
Lemma get_week_in_range date_str week :
  get_week_for_date date_str = Some (Some week) → 1 <= week <= 4.
Proof.
  unfold get_week_for_date.
  destruct (strptime (chars_of date_str)) as [d|]; cbn [mbind option_bind];
    [|done].
  intros (i & range & Hi & <- & _)%week_loop_some.
  unfold week_ranges in Hi.
  destruct i as [|[|[|[|i]]]]; cbn in Hi; simplify_eq; cbn; lia.
Qed.

Lemma week_of_file_in_range f week :
  week_of_file f = Some week → 1 <= week <= 4.
Proof.
  unfold week_of_file. destruct (snd f); [|done].
  destruct (get_week_for_date _) as [[w|]|] eqn:Hw; try done.
  destruct (w =? 0); [done|]. intros [= <-]. by eapply get_week_in_range.
Qed.

(** The entries of the weekly data after the first loop. *)
Lemma aggregated_entry files week e :
  (week, e) ∈ fst (aggregate_files [] files) ↔
  files_of_week week files ≠ []
  ∧ e = WeekEntry week 2025 (omap game_of (files_of_week week files))
          (stats_concat (map stats_of (files_of_week week files))).
Proof.
  rewrite week_get_elem_of by (apply aggregate_files_NoDup, NoDup_nil_2).
  rewrite aggregate_files_get. cbn [week_get]. unfold add_files.
  destruct (files_of_week week files) as [|f fs].
  - split; [done|by intros [? _]].
  - cbn [default from_option id new_week_entry w_games w_player_stats app].
    rewrite extend_stats_no_stats_l. split.
    + by intros [= <-].
    + by intros [_ ->].
Qed.

Lemma save_weeks_elem_of can_write weekly_data name content :
  (name, content) ∈ fst (save_weeks can_write weekly_data)
  ↔ ∃ week e, (week, e) ∈ weekly_data ∧ can_write (week_file_name week) = true
              ∧ name = week_file_name week ∧ content = week_json e.
Proof.
  induction weekly_data as [|[w e'] more IH]; cbn [save_weeks].
  - cbn [fst]. split; [by intros ?%not_elem_of_nil|].
    by intros (? & ? & ?%not_elem_of_nil & _).
  - destruct (save_weeks can_write more) as [written n]. cbn [fst] in IH.
    destruct (can_write (week_file_name w)) eqn:Hcw; cbn [fst].
    + rewrite elem_of_cons, IH. split.
      * intros [[= -> ->]|(week & e & Hin & Hw & -> & ->)].
        -- exists w, e'. split_and!; [by left|done..].
        -- exists week, e. split_and!; [by right|done..].
      * intros (week & e & [[= -> ->]|Hin]%elem_of_cons & Hw & -> & ->).
        -- by left.
        -- right. by exists week, e.
    + rewrite IH. split.
      * intros (week & e & Hin & Hw & -> & ->).
        exists week, e. split_and!; [by right|done..].
      * intros (week & e & [[= -> ->]|Hin]%elem_of_cons & Hw & -> & ->).
        -- congruence.
        -- by exists week, e.
Qed.

Lemma week_file_name_inj week week' :
  1 <= week <= 4 → 1 <= week' <= 4 →
  week_file_name week = week_file_name week' → week = week'.
Proof.
  intros Hw Hw'.
  assert (week = 1 ∨ week = 2 ∨ week = 3 ∨ week = 4) as Hc by lia.
  assert (week' = 1 ∨ week' = 2 ∨ week' = 3 ∨ week' = 4) as Hc' by lia.
  destruct Hc as [->|[->|[->| ->]]]; destruct Hc' as [->|[->|[->| ->]]];
    vm_compute; intros; done.
Qed.

Lemma save_weeks_names can_write weekly_data :
  map fst (fst (save_weeks can_write weekly_data))
  = map week_file_name
      (filter (fun week => can_write (week_file_name week) = true)
         (map fst weekly_data)).
Proof.
  induction weekly_data as [|[w e] more IH]; cbn [save_weeks map fst];
    [done|].
  destruct (save_weeks can_write more) as [written n]. cbn [fst] in IH.
  rewrite filter_cons.
  destruct (can_write (week_file_name w)) eqn:Hcw; cbn [fst map].
  - rewrite decide_True by done. cbn [map]. by rewrite IH.
  - by rewrite decide_False by done.
Qed.

Lemma aggregated_weeks files :
  NoDup (map fst (fst (aggregate_files [] files)))
  ∧ ∀ week, week ∈ map fst (fst (aggregate_files [] files)) →
            1 <= week <= 4.
Proof.
  split; [apply aggregate_files_NoDup, NoDup_nil_2|].
  intros week ([w e] & -> & Hin)%list_elem_of_fmap. cbn [fst].
  apply aggregated_entry in Hin as [Hne _].
  destruct (files_of_week w files) as [|f fs] eqn:Hfs; [done|].
  assert (f ∈ files_of_week w files) as Hf by (rewrite Hfs; by left).
  unfold files_of_week in Hf. apply list_elem_of_filter in Hf as [Hf _].
  by eapply week_of_file_in_range.
Qed.

Lemma written_names_NoDup can_write files :
  NoDup (map fst (written_files (aggregate_by_weeks can_write (Some files)))).
Proof.
  unfold aggregate_by_weeks.
  destruct (aggregated_weeks (sorted files)) as [Hnd Hrange].
  destruct (aggregate_files [] (sorted files)) as [weekly_data events].
  cbn [fst] in Hnd, Hrange.
  pose proof (save_weeks_names can_write weekly_data) as Hnames.
  destruct (save_weeks can_write weekly_data) as [written n].
  cbn [fst written_files] in *. rewrite Hnames.
  apply NoDup_fmap_2_strong.
  - intros w w' [_ Hw]%list_elem_of_filter [_ Hw']%list_elem_of_filter.
    apply week_file_name_inj; by apply Hrange.
  - by apply NoDup_filter.
Qed.

Lemma written_content can_write files name content :
  (name, content)
    ∈ written_files (aggregate_by_weeks can_write (Some files))
  ↔ ∃ week,
      files_of_week week (sorted files) ≠ []
      ∧ can_write (week_file_name week) = true
      ∧ name = week_file_name week
      ∧ content
        = week_json
            (WeekEntry week 2025
               (omap game_of (files_of_week week (sorted files)))
               (stats_concat
                  (map stats_of (files_of_week week (sorted files))))).
Proof.
  unfold aggregate_by_weeks.
  pose proof (aggregated_entry (sorted files)) as Hentry.
  destruct (aggregate_files [] (sorted files)) as [weekly_data events].
  pose proof (save_weeks_elem_of can_write weekly_data name content) as Hsave.
  destruct (save_weeks can_write weekly_data) as [written n].
  cbn [fst written_files] in *. rewrite Hsave. split.
  - intros (week & e & [Hne ->]%Hentry & Hcw & -> & ->). by exists week.
  - intros (week & Hne & Hcw & -> & ->). eexists week, _.
    split_and!; [|done..]. by apply Hentry.
Qed.


(** X21. The file of a week holds, in ascending order of the file names, the
    game summaries of the readable files dated in that week, and the line
    items of those among them whose summary and statistics could both be
    extracted; a file is written for exactly the weeks that have such a file
    and can be written. *)
Theorem weekly_file_content can_write files name content :
  (name, content)
    ∈ written_files (aggregate_by_weeks can_write (Some files))
  ↔ ∃ week,
      files_of_week week (sorted files) ≠ []
      ∧ can_write (week_file_name week) = true
      ∧ name = week_file_name week
      ∧ content
        = week_json
            (WeekEntry week 2025
               (omap game_of (files_of_week week (sorted files)))
               (stats_concat
                  (map stats_of (files_of_week week (sorted files))))).
Proof. exact (written_content can_write files name content). Qed.

(** X22. The aggregation succeeds exactly when some readable file is dated in
    a week whose file can be written, whether or not anything could be
    extracted from it. *)
Theorem aggregation_succeeds_iff can_write files :
  success (aggregate_by_weeks can_write (Some files)) = true
  ↔ ∃ f week, f ∈ files ∧ week_of_file f = Some week
              ∧ can_write (week_file_name week) = true.
Proof.
  destruct (aggregate_by_weeks_count can_write (Some files)) as [Hn ->].
  rewrite Hn, Nat.ltb_lt. split.
  - intros Hlen.
    destruct (written_files (aggregate_by_weeks can_write (Some files)))
      as [|[name content] written] eqn:Hw; [cbn in Hlen; lia|].
    assert ((name, content)
              ∈ written_files (aggregate_by_weeks can_write (Some files)))
      as Hin by (rewrite Hw; by left).
    apply written_content in Hin as (week & Hne & Hcw & _).
    destruct (files_of_week week (sorted files)) as [|f fs] eqn:Hfs; [done|].
    assert (f ∈ files_of_week week (sorted files)) as Hf
      by (rewrite Hfs; by left).
    unfold files_of_week in Hf. apply list_elem_of_filter in Hf as [Hf Hin].
    exists f, week. split_and!; [|done..]. by rewrite <- (sorted_perm files).
  - intros (f & week & Hin & Hweek & Hcw).
    assert (f ∈ files_of_week week (sorted files)) as Hf.
    { unfold files_of_week. apply list_elem_of_filter. split; [done|].
      by rewrite (sorted_perm files). }
    assert ((week_file_name week,
             week_json
               (WeekEntry week 2025
                  (omap game_of (files_of_week week (sorted files)))
                  (stats_concat
                     (map stats_of (files_of_week week (sorted files))))))
              ∈ written_files (aggregate_by_weeks can_write (Some files)))
      as Hw.
    { apply written_content. exists week. split_and!; [|done..].
      intros Hnil. rewrite Hnil in Hf. by apply not_elem_of_nil in Hf. }
    destruct (written_files _); [by apply not_elem_of_nil in Hw|].
    cbn [length]. lia.
Qed.

End WeeklyFiles.

Lemma aggregation_succeeds_iff_witness :
  success (aggregate_by_weeks (fun _ => true)
             (Some [("2025-08-09_401773001_complete.json", Some JNull)]))
  = true.
Proof.
  apply aggregation_succeeds_iff.
  exists ("2025-08-09_401773001_complete.json", Some JNull), 1.
  split_and!; [by left|reflexivity|reflexivity].
Defined.

(** ** Properties of the Weekly Aggregator: the summary *)

Section SummaryOfWeeks.

Lemma len_sum_categories items n categories :
  len_sum (map snd items) = Some n →
  category_sizes items = Some categories →
  n = sum_list (map snd categories).
Proof.
  revert n categories.
  induction items as [|[category stats] items IH]; intros n categories;
    cbn [map snd len_sum category_sizes].
  - by intros [= <-] [= <-].
  - destruct (py_len stats) as [k|]; cbn [mbind option_bind]; [|done].
    destruct (len_sum (map snd items)) as [m|]; cbn [mbind option_bind];
      [|done].
    destruct (category_sizes items) as [rest|]; cbn [mbind option_bind];
      [|done].
    intros [= <-] [= <-]. cbn [map snd sum_list sum_list_with].
    by rewrite (IH m rest).
Qed.

Lemma summarize_week_sum data w :
  summarize_week data = Some w →
  s_player_performances w = sum_list (map snd (s_categories w)).
Proof.
  unfold summarize_week.
  destruct (py_get data "games" _) as [games|]; cbn [mbind option_bind];
    [|done].
  destruct (py_len games) as [games_count|]; cbn [mbind option_bind];
    [|done].
  destruct (py_get data "player_stats" _) as [player_stats|];
    cbn [mbind option_bind]; [|done].
  destruct (dict_items player_stats) as [items|]; cbn [mbind option_bind];
    [|done].
  destruct (len_sum (map snd items)) as [n|] eqn:Hn;
    cbn [mbind option_bind]; [|done].
  destruct (category_sizes items) as [categories|] eqn:Hc;
    cbn [mbind option_bind]; [|done].
  intros [= <-]. cbn [s_player_performances s_categories].
  by eapply len_sum_categories.
Qed.

Lemma summary_step_totals output_dir s week :
  totals_add_up s → totals_add_up (summary_step output_dir s week).
Proof.
  intros (Hw & Hg & Hp & Hc). unfold summary_step.
  destruct (output_dir (week_file_name week)) as [[data|]|]; try done.
  destruct (summarize_week data) as [w|] eqn:Hweek; [|done].
  unfold totals_add_up.
  cbn [total_weeks total_games total_player_performances s_weeks].
  rewrite !map_app, !sum_list_with_app, length_app, Forall_app,
    Forall_singleton.
  cbn [map snd sum_list_with length id]. split_and!; [lia..|done|].
  by eapply summarize_week_sum.
Qed.

Lemma run_totals output_dir weeks s :
  totals_add_up s → totals_add_up (foldl (summary_step output_dir) s weeks).
Proof.
  revert s. induction weeks as [|week weeks IH]; intros s Hs; cbn [foldl];
    [done|].
  by apply IH, summary_step_totals.
Qed.

(** The week entries of the summary: the weeks from 1 to 4 whose file
    exists, loads and can be summarised, in that order. *)
Lemma summary_step_weeks output_dir s week :
  s_weeks (summary_step output_dir s week)
  = s_weeks s
    ++ match (output_dir (week_file_name week) ≫= id) ≫= summarize_week with
       | Some w => [(week, w)]
       | None => []
       end.
Proof.
  unfold summary_step.
  destruct (output_dir (week_file_name week)) as [[data|]|];
    cbn [mbind option_bind id]; try by rewrite app_nil_r.
  destruct (summarize_week data) as [w|]; [done|by rewrite app_nil_r].
Qed.

Lemma create_summary_weeks now output_dir week w :
  (week, w) ∈ s_weeks (create_summary now output_dir)
  ↔ 1 <= week <= 4
    ∧ ∃ data, output_dir (week_file_name week) = Some (Some data)
              ∧ summarize_week data = Some w.
Proof.
  unfold create_summary. cbn [foldl].
  rewrite !summary_step_weeks. cbn [s_weeks app].
  assert (∀ k, (week, w)
                 ∈ match (output_dir (week_file_name k) ≫= id)
                         ≫= summarize_week with
                   | Some w' => [(k, w')]
                   | None => []
                   end
               ↔ week = k
                 ∧ ∃ data, output_dir (week_file_name k) = Some (Some data)
                           ∧ summarize_week data = Some w) as Hone.
  { intros k.
    destruct (output_dir (week_file_name k)) as [[data|]|];
      cbn [mbind option_bind id].
    - destruct (summarize_week data) as [w'|] eqn:Hs.
      + rewrite list_elem_of_singleton. split.
        * intros [= -> ->]. split; [done|]. by exists data.
        * intros [-> (data' & [= <-] & Hs')]. congruence.
      + split; [by intros ?%not_elem_of_nil|].
        intros [_ (data' & [= <-] & Hs')]. congruence.
    - split; [by intros ?%not_elem_of_nil|]. by intros [_ (? & ? & _)].
    - split; [by intros ?%not_elem_of_nil|]. by intros [_ (? & ? & _)]. }
  rewrite !elem_of_app, !Hone. split.
  - intros [[[[-> H]|[-> H]]|[-> H]]|[-> H]]; (split; [lia|done]).
  - intros [Hrange H].
    assert (week = 1 ∨ week = 2 ∨ week = 3 ∨ week = 4) as Hc by lia.
    destruct Hc as [->|[->|[->| ->]]]; tauto.
Qed.

Lemma dict_get_elem_of name content (written : list (string * json)) :
  NoDup (map fst written) →
  dict_get name written = Some content ↔ (name, content) ∈ written.
Proof.
  induction written as [|[n c] written IH]; cbn [dict_get map fst].
  - intros _. split; [done|by intros ?%not_elem_of_nil].
  - intros [Hn Hw]%NoDup_cons. rewrite elem_of_cons.
    destruct (String.eqb name n) eqn:E.
    + apply String.eqb_eq in E as ->. split.
      * intros [= ->]. by left.
      * intros [[= ->]|Hin]; [done|]. destruct Hn.
        apply list_elem_of_fmap. by exists (n, content).
    + rewrite (IH Hw). apply String.eqb_neq in E. split.
      * by right.
      * intros [[= -> ->]|Hin]; done.
Qed.

Lemma summarize_week_json e :
  summarize_week (week_json e) = Some (summary_of_entry e).
Proof. reflexivity. Qed.

Lemma create_summary_totals now output_dir :
  totals_add_up (create_summary now output_dir).
Proof.
  unfold create_summary. apply run_totals.
  unfold totals_add_up. cbn. by repeat split.
Qed.

Lemma create_summary_NoDup now output_dir :
  NoDup (map fst (s_weeks (create_summary now output_dir))).
Proof.
  unfold create_summary. cbn [foldl].
  rewrite !summary_step_weeks. cbn [s_weeks app].
  repeat match goal with
         | |- context [ match ?x with Some _ => _ | None => _ end ] =>
             destruct x
         end;
    cbn [app map fst]; by apply (bool_decide_unpack _).
Qed.

(** X23. Whatever the output directory holds, the totals of the summary are
    those of its week entries: the number of weeks is the number of entries,
    the games and the player performances are the sums over the entries, and
    the performances of a week are the sum over its categories. *)
Theorem summary_totals_add_up now output_dir :
  totals_add_up (create_summary now output_dir).
Proof. exact (create_summary_totals now output_dir). Qed.

(** X24. A summary made right after an aggregation, of an output directory
    that held no weekly file before: it has an entry for exactly the weeks
    whose file was written, with the number of games and of line items of each
    category that the file holds, and as many weeks as files were written. *)
Theorem summary_of_aggregation now can_write files :
  let result := aggregate_by_weeks can_write (Some files) in
  let s := create_summary now (directory_of (written_files result)) in
  total_weeks s = saved_count result
  ∧ ∀ week w,
      (week, w) ∈ s_weeks s
      ↔ files_of_week week (sorted files) ≠ []
        ∧ can_write (week_file_name week) = true
        ∧ w = summary_of_entry
                (WeekEntry week 2025
                   (omap game_of (files_of_week week (sorted files)))
                   (stats_concat
                      (map stats_of (files_of_week week (sorted files))))).
Proof.
  cbn zeta.
  pose proof (written_names_NoDup can_write files) as Hnd.
  assert (∀ week w,
            (week, w)
              ∈ s_weeks
                  (create_summary now
                     (directory_of
                        (written_files
                           (aggregate_by_weeks can_write (Some files)))))
            ↔ files_of_week week (sorted files) ≠ []
              ∧ can_write (week_file_name week) = true
              ∧ w = summary_of_entry
                      (WeekEntry week 2025
                         (omap game_of (files_of_week week (sorted files)))
                         (stats_concat
                            (map stats_of
                               (files_of_week week (sorted files))))))
    as Hweeks.
  { intros week w. rewrite create_summary_weeks. unfold directory_of. split.
    - intros (Hrange & data & Hdata & Hsum).
      destruct (dict_get (week_file_name week) _) as [content|] eqn:Hget;
        [|done].
      injection Hdata as ->. apply (dict_get_elem_of _ _ _ Hnd) in Hget.
      apply written_content in Hget as (week' & Hne & Hcw & Hname & ->).
      assert (week' = week) as ->.
      { symmetry. apply week_file_name_inj; [done| |done].
        destruct (files_of_week week' (sorted files)) as [|f fs] eqn:Hfs;
          [done|].
        assert (f ∈ files_of_week week' (sorted files)) as Hf
          by (rewrite Hfs; by left).
        unfold files_of_week in Hf.
        apply list_elem_of_filter in Hf as [Hf _].
        by eapply week_of_file_in_range. }
      rewrite summarize_week_json in Hsum. by injection Hsum as <-.
    - intros (Hne & Hcw & ->).
      assert (1 <= week <= 4) as Hrange.
      { destruct (files_of_week week (sorted files)) as [|f fs] eqn:Hfs;
          [done|].
        assert (f ∈ files_of_week week (sorted files)) as Hf
          by (rewrite Hfs; by left).
        unfold files_of_week in Hf.
        apply list_elem_of_filter in Hf as [Hf _].
        by eapply week_of_file_in_range. }
      split; [done|]. eexists. split; [|apply summarize_week_json].
      apply fmap_Some. eexists. split; [|done].
      apply (dict_get_elem_of _ _ _ Hnd), written_content.
      exists week. by split_and!. }
  split; [|exact Hweeks].
  destruct (create_summary_totals now
              (directory_of
                 (written_files (aggregate_by_weeks can_write (Some files)))))
    as (-> & _).
  destruct (aggregate_by_weeks_count can_write (Some files)) as [-> _].
  rewrite <- (length_map fst (s_weeks _)),
    <- (length_map fst (written_files _)).
  rewrite <- (length_map week_file_name).
  apply Permutation_length, NoDup_Permutation; [| done |].
  - apply NoDup_fmap_2_strong.
    + intros week week' ([k w] & -> & Hin)%list_elem_of_fmap
        ([k' w'] & -> & Hin')%list_elem_of_fmap. cbn [fst].
      apply create_summary_weeks in Hin as [Hk _].
      apply create_summary_weeks in Hin' as [Hk' _].
      by apply week_file_name_inj.
    + apply create_summary_NoDup.
  - intros name. rewrite !list_elem_of_fmap. split.
    + intros (week & -> & ([k w] & -> & Hin)%list_elem_of_fmap). cbn [fst].
      apply Hweeks in Hin as (Hne & Hcw & _).
      eexists (week_file_name k, _). split; [done|].
      apply written_content. exists k. by split_and!.
    + intros ([n content] & -> & Hin). cbn [fst].
      apply written_content in Hin as (week & Hne & Hcw & -> & ->).
      exists week. split; [done|]. apply list_elem_of_fmap.
      eexists (week, _). split; [done|]. apply Hweeks. by split_and!.
Qed.

End SummaryOfWeeks.

(** ** Properties of the Weekly Aggregator: players of the line items *)

Section PlayersOfLineItems.

Variable comprehensive_data : json.

Lemma as_str_Some v s : as_str v = Some s → v = JStr s.
Proof. destruct v; cbn; congruence. Qed.

Lemma scorers_once_add rushing0 receiving0 processed name item :
  scorers_once (Stats [] rushing0 receiving0 [], processed) →
  existsb (py_eq (JStr name)) processed = false →
  item_name item = Some (JStr name) →
  NoDup (map item_name ((rushing0 ++ receiving0) ++ [item]))
  ∧ ∀ n, n ∈ map item_name ((rushing0 ++ receiving0) ++ [item]) →
         ∃ name', n = Some (JStr name')
                  ∧ existsb (py_eq (JStr name')) (JStr name :: processed)
                    = true.
Proof.
  intros [Hnd Hin] Hnew Hitem. cbn [fst snd rushing receiving] in Hnd, Hin.
  rewrite map_app. cbn [map]. rewrite Hitem. split.
  - apply NoDup_app. split_and!; [done| |apply NoDup_singleton].
    intros n Hn ->%list_elem_of_singleton.
    destruct (Hin _ Hn) as (name' & [= <-] & Hseen). congruence.
  - intros n [Hn| ->%list_elem_of_singleton]%elem_of_app.
    + destruct (Hin _ Hn) as (name' & -> & Hseen). exists name'.
      split; [done|]. cbn [existsb]. by rewrite Hseen, orb_true_r.
    + exists name. split; [done|]. cbn [existsb py_eq].
      by rewrite String.eqb_refl.
Qed.

Lemma scorers_once_stats p p' d d' rushing0 receiving0 processed :
  scorers_once (Stats p rushing0 receiving0 d, processed)
  ↔ scorers_once (Stats p' rushing0 receiving0 d', processed).
Proof. done. Qed.

Lemma touchdown_step_scorers acc td acc' :
  touchdown_step comprehensive_data acc td = Some acc' →
  scorers_once acc → scorers_once acc'.
Proof.
  destruct acc as [[p ru re d] processed]. unfold touchdown_step.
  cbn [passing rushing receiving defensive].
  destruct (py_get td "player" JNull) as [player_name|];
    cbn [mbind option_bind]; [|done].
  destruct (negb (truthy player_name)); [by intros [= <-]|].
  destruct (negb (hashable player_name)); [done|].
  destruct (existsb (py_eq player_name) processed) eqn:Hnew;
    [by intros [= <-]|].
  destruct (py_get td "text" (JStr "") ≫= as_str) as [text|];
    cbn [mbind option_bind]; [|done].
  destruct (_extract_team_from_play td comprehensive_data) as [team|];
    cbn [mbind option_bind]; [|done].
  destruct (_ && _).
  - destruct (as_str team) as [team_name|]; cbn [mbind option_bind]; [|done].
    destruct (as_str player_name) as [receiver|] eqn:Hname;
      cbn [mbind option_bind]; [|done].
    apply as_str_Some in Hname as ->. intros [= <-] Hacc.
    apply (scorers_once_stats p [] d []) in Hacc.
    destruct (scorers_once_add _ _ _ receiver
                (receiving_item receiver team_name
                   (_extract_yards_from_text (lower (chars_of text))))
                Hacc Hnew eq_refl) as [Hnd Hin].
    split; cbn [fst snd rushing receiving]; by rewrite (assoc_L (++)).
  - destruct (_ || _).
    + destruct (as_str player_name) as [name|] eqn:Hname;
        cbn [mbind option_bind]; [|done].
      destruct (as_str team) as [team_name|]; cbn [mbind option_bind];
        [|done].
      apply as_str_Some in Hname as ->. intros [= <-] Hacc.
      apply (scorers_once_stats p [] d []) in Hacc.
      destruct (scorers_once_add _ _ _ name
                  (rushing_item name team_name
                     (_extract_yards_from_text (chars_of text)))
                  Hacc Hnew eq_refl) as [Hnd Hin].
      assert (map item_name
                ((ru ++ [rushing_item name team_name
                           (_extract_yards_from_text (chars_of text))])
                 ++ re)
              ≡ₚ map item_name
                   ((ru ++ re)
                    ++ [rushing_item name team_name
                          (_extract_yards_from_text (chars_of text))]))
        as Hperm.
      { apply fmap_Permutation. rewrite <- !(assoc_L (++)).
        apply Permutation_app_head, Permutation_app_comm. }
      split; cbn [fst snd rushing receiving].
      * by rewrite Hperm.
      * intros n Hn. apply Hin. by rewrite <- Hperm.
    + intros [= <-] [Hnd Hin]. split; [done|].
      cbn [fst snd rushing receiving] in *. intros n Hn.
      destruct (Hin _ Hn) as (name & -> & Hseen). exists name.
      split; [done|]. cbn [existsb]. by rewrite Hseen, orb_true_r.
Qed.

Lemma touchdown_loop_scorers tds acc acc' :
  touchdown_loop comprehensive_data tds acc = Some acc' →
  scorers_once acc → scorers_once acc'.
Proof.
  revert acc. induction tds as [|td tds IH]; intros acc;
    cbn [touchdown_loop].
  - by intros [= <-].
  - destruct (touchdown_step comprehensive_data acc td) as [acc1|] eqn:Hstep;
      cbn [mbind option_bind]; [|done].
    intros Hloop Hacc. apply (IH _ Hloop).
    by eapply touchdown_step_scorers.
Qed.

(** The interceptions add defensive items only, one for each interception
    with a player attached. *)
Lemma interception_loop_defensive ints s s' :
  interception_loop comprehensive_data ints s = Some s' →
  passing s' = passing s ∧ rushing s' = rushing s
  ∧ receiving s' = receiving s
  ∧ length (defensive s')
    = (length (defensive s) + length (filter has_player ints))%nat.
Proof.
  revert s. induction ints as [|i ints IH]; intros s;
    cbn [interception_loop].
  - intros [= <-]. rewrite filter_nil. cbn [length]. split_and!; [done..|lia].
  - destruct (interception_step comprehensive_data s i) as [s1|] eqn:Hstep;
      cbn [mbind option_bind]; [|done].
    intros (Hp & Hru & Hre & Hd)%IH. revert Hstep.
    unfold interception_step. rewrite filter_cons.
    destruct (has_player i) eqn:Hhas; unfold has_player in Hhas;
      [rewrite decide_True by done|rewrite decide_False by (by intros ?)];
      destruct (py_get i "player" JNull) as [player_name|];
      cbn [mbind option_bind]; try done; rewrite Hhas; cbn [negb].
    + destruct (_extract_team_from_play i comprehensive_data) as [team|];
        cbn [mbind option_bind]; [|done].
      destruct (as_str player_name) as [name|]; cbn [mbind option_bind];
        [|done].
      destruct (as_str team) as [team_name|]; cbn [mbind option_bind];
        [|done].
      intros [= <-]. cbn [passing rushing receiving defensive] in *.
      rewrite length_app in Hd. cbn [length] in *.
      split_and!; [done..|lia].
    + by intros [= <-].
Qed.

Lemma extraction_scorers player_stats :
  extract_player_stats_from_comprehensive comprehensive_data
  = Some player_stats →
  NoDup (map item_name (rushing player_stats ++ receiving player_stats)).
Proof.
  unfold extract_player_stats_from_comprehensive.
  destruct (py_get comprehensive_data "play_by_play" _) as [play_by_play|];
    cbn [mbind option_bind]; [|done].
  destruct (py_get play_by_play "touchdowns" _) as [touchdowns|];
    cbn [mbind option_bind]; [|done].
  destruct (py_get play_by_play "interceptions" _) as [interceptions|];
    cbn [mbind option_bind]; [|done].
  destruct (py_iter touchdowns) as [tds|]; cbn [mbind option_bind]; [|done].
  destruct (touchdown_loop comprehensive_data tds (no_stats, []))
    as [[stats1 processed1]|] eqn:Hloop1; cbn [mbind option_bind]; [|done].
  destruct (py_iter interceptions) as [ints|]; cbn [mbind option_bind];
    [|done].
  intros (_ & -> & -> & _)%interception_loop_defensive.
  apply touchdown_loop_scorers in Hloop1 as [Hnd _]; [done|].
  split; [apply NoDup_nil_2|]. by intros n ?%not_elem_of_nil.
Qed.

Lemma extraction_defensive player_stats interceptions :
  extract_player_stats_from_comprehensive comprehensive_data
  = Some player_stats →
  listed_interceptions comprehensive_data = Some interceptions →
  length (defensive player_stats) = length (filter has_player interceptions).
Proof.
  unfold extract_player_stats_from_comprehensive, listed_interceptions.
  destruct (py_get comprehensive_data "play_by_play" _) as [play_by_play|];
    cbn [mbind option_bind]; [|done].
  destruct (py_get play_by_play "touchdowns" _) as [touchdowns|];
    cbn [mbind option_bind]; [|done].
  destruct (py_get play_by_play "interceptions" _) as [ints_json|];
    cbn [mbind option_bind]; [|done].
  destruct (py_iter touchdowns) as [tds|]; cbn [mbind option_bind]; [|done].
  destruct (touchdown_loop comprehensive_data tds (no_stats, []))
    as [[stats1 processed1]|] eqn:Hloop1; cbn [mbind option_bind]; [|done].
  destruct (py_iter ints_json) as [ints|]; cbn [mbind option_bind]; [|done].
  intros (_ & _ & _ & Hd)%interception_loop_defensive [= <-].
  rewrite Hd.
  assert (defensive stats1 = []) as ->; [|done].
  clear Hd. revert Hloop1.
  assert (∀ acc acc',
            touchdown_loop comprehensive_data tds acc = Some acc' →
            defensive (fst acc') = defensive (fst acc)) as Hkeep.
  { clear. induction tds as [|td tds IH]; intros acc acc';
      cbn [touchdown_loop]; [by intros [= <-]|].
    destruct (touchdown_step comprehensive_data acc td) as [acc1|] eqn:Hstep;
      cbn [mbind option_bind]; [|done].
    intros ->%IH. revert Hstep. destruct acc as [s processed].
    unfold touchdown_step.
    repeat match goal with
           | |- context [ if ?b then _ else _ ] => destruct b
           | |- context [ ?x ≫= _ ] =>
               destruct x; cbn [mbind option_bind]; [|done]
           | |- context [ match ?x with Some _ => _ | None => _ end ] =>
               destruct x
           end;
      try done; by intros [= <-]. }
  intros Hloop1. by apply Hkeep in Hloop1.
Qed.

(** X15. In the statistics of one game no two rushing or receiving items carry
    the same name: a player gets one touchdown line item at most, however many
    touchdowns the game lists for that player. *)
Theorem one_touchdown_item_per_player player_stats :
  extract_player_stats_from_comprehensive comprehensive_data
  = Some player_stats →
  NoDup (map item_name (rushing player_stats ++ receiving player_stats)).
Proof. exact (extraction_scorers player_stats). Qed.

(** X16. Interceptions are not held back by player: the statistics of a game
    hold as many defensive items as the record lists interceptions with a
    player attached. *)
Theorem one_defensive_item_per_interception player_stats interceptions :
  extract_player_stats_from_comprehensive comprehensive_data
  = Some player_stats →
  listed_interceptions comprehensive_data = Some interceptions →
  length (defensive player_stats) = length (filter has_player interceptions).
Proof. exact (extraction_defensive player_stats interceptions). Qed.

End PlayersOfLineItems.

Lemma one_touchdown_item_per_player_witness :
  match extract_player_stats_from_comprehensive sample_two_each with
  | Some player_stats =>
      NoDup (map item_name
               (rushing player_stats ++ receiving player_stats))
  | None => False
  end.
Proof.
  destruct (extract_player_stats_from_comprehensive sample_two_each)
    as [player_stats|] eqn:H.
  - exact (one_touchdown_item_per_player sample_two_each player_stats H).
  - vm_compute in H. discriminate H.
Defined.

Lemma one_defensive_item_per_interception_witness :
  match extract_player_stats_from_comprehensive sample_two_each with
  | Some player_stats => length (defensive player_stats) = 2%nat
  | None => False
  end.
Proof.
  destruct (extract_player_stats_from_comprehensive sample_two_each)
    as [player_stats|] eqn:H.
  - exact (one_defensive_item_per_interception sample_two_each player_stats
             _ H eq_refl).
  - vm_compute in H. discriminate H.
Defined.

(** ** Properties of the Event Extractor: which records are processed *)

Section ProcessedRecords.

Lemma team_stats_loop_step team more team_stats :
  team_stats_loop (team :: more) team_stats
  = abbr ← abbreviation_of team;
    entry ← team_entry team;
    team_stats_loop more (dict_set abbr entry team_stats).
Proof.
  cbn [team_stats_loop]. unfold abbreviation_of, team_entry.
  destruct (py_get team "abbreviation" _ ≫= as_str) as [abbr|];
    cbn [mbind option_bind]; [|done].
  destruct (py_get team "score" _ ≫= py_int) as [score|];
    cbn [mbind option_bind]; [|done].
  by destruct (py_get team "home_away" _).
Qed.

Lemma team_stats_loop_app pre post team_stats :
  team_stats_loop (pre ++ post) team_stats
  = team_stats_loop pre team_stats ≫= team_stats_loop post.
Proof.
  revert team_stats. induction pre as [|team pre IH]; intros team_stats;
    [done|].
  cbn [app]. rewrite !team_stats_loop_step.
  destruct (abbreviation_of team) as [abbr|]; cbn [mbind option_bind];
    [|done].
  destruct (team_entry team) as [entry|]; cbn [mbind option_bind]; [|done].
  apply IH.
Qed.

Lemma team_stats_loop_total teams team_stats :
  is_Some (team_stats_loop teams team_stats) ↔ Forall team_ok teams.
Proof.
  revert team_stats. induction teams as [|team teams IH]; intros team_stats.
  - cbn. split; [constructor|by eexists].
  - rewrite team_stats_loop_step, Forall_cons. unfold team_ok.
    destruct (abbreviation_of team) as [abbr|]; cbn [mbind option_bind].
    2:{ split; [by intros [? ?]|]. by intros [[[? ?] _] _]. }
    destruct (team_entry team) as [entry|]; cbn [mbind option_bind].
    2:{ split; [by intros [? ?]|]. by intros [[_ [? ?]] _]. }
    rewrite IH. split; [|by intros [_ ?]]. intros H. by repeat split.
Qed.

Lemma dict_set_keys k v d a :
  a ∈ map fst (dict_set k v d) ↔ a = k ∨ a ∈ map fst d.
Proof.
  induction d as [|[k' v'] d IH]; cbn [dict_set map fst].
  - rewrite list_elem_of_singleton. split; [by left|].
    by intros [?|?%not_elem_of_nil].
  - destruct (String.eqb k k') eqn:E; cbn [map fst]; rewrite !elem_of_cons.
    + apply String.eqb_eq in E as ->. tauto.
    + rewrite IH. tauto.
Qed.

Lemma dict_set_NoDup k v d :
  NoDup (map fst d) → NoDup (map fst (dict_set k v d)).
Proof.
  induction d as [|[k' v'] d IH]; cbn [dict_set map fst].
  - intros _. apply NoDup_singleton.
  - intros [Hk Hd]%NoDup_cons.
    destruct (String.eqb k k') eqn:E; cbn [map fst].
    + apply String.eqb_eq in E as ->. by apply NoDup_cons.
    + apply NoDup_cons. split; [|by apply IH].
      rewrite dict_set_keys. intros [->|H]; [|done].
      by rewrite String.eqb_refl in E.
Qed.

Lemma dict_set_length k v d :
  (length (dict_set k v d) ≤ S (length d))%nat.
Proof.
  induction d as [|[k' v'] d IH]; cbn [dict_set length]; [lia|].
  destruct (String.eqb k k'); cbn [length]; lia.
Qed.

Lemma dict_set_values (P : json → Prop) k v d :
  P v → Forall P (map snd d) → Forall P (map snd (dict_set k v d)).
Proof.
  intros Hv. induction d as [|[k' v'] d IH]; cbn [dict_set map snd].
  - intros _. by repeat constructor.
  - intros [Hv' Hd]%Forall_cons.
    destruct (String.eqb k k'); cbn [map snd]; constructor; auto.
Qed.

(** What the loop over the teams leaves in the dict. *)
Lemma team_stats_loop_spec teams d0 d :
  team_stats_loop teams d0 = Some d →
  (NoDup (map fst d0) → NoDup (map fst d))
  ∧ (length d ≤ length d0 + length teams)%nat
  ∧ (∀ abbr, abbr ∈ map fst d
             ↔ abbr ∈ map fst d0
               ∨ ∃ team, team ∈ teams ∧ abbreviation_of team = Some abbr)
  ∧ (∀ abbr, Forall (fun team => abbreviation_of team ≠ Some abbr) teams →
             dict_get abbr d = dict_get abbr d0)
  ∧ (Forall entry_shape (map snd d0) → Forall entry_shape (map snd d)).
Proof.
  revert d0. induction teams as [|team teams IH]; intros d0.
  - cbn [team_stats_loop]. intros [= <-]. split_and!; try done.
    + cbn [length]. lia.
    + intros abbr. split; [by left|].
      by intros [?|(? & ?%not_elem_of_nil & _)].
  - rewrite team_stats_loop_step.
    destruct (abbreviation_of team) as [abbr|] eqn:Habbr;
      cbn [mbind option_bind]; [|done].
    destruct (team_entry team) as [entry|] eqn:Hentry;
      cbn [mbind option_bind]; [|done].
    intros (Hnd & Hlen & Hkeys & Hget & Hshape)%IH. split_and!.
    + intros H. by apply Hnd, dict_set_NoDup.
    + pose proof (dict_set_length abbr entry d0). cbn [length]. lia.
    + intros a. rewrite Hkeys, dict_set_keys. split.
      * intros [[->|H]|(t & Hin & Ht)].
        -- right. exists team. split; [by left|done].
        -- by left.
        -- right. exists t. split; [by right|done].
      * intros [H|(t & [->|Hin]%elem_of_cons & Ht)].
        -- left. by right.
        -- left. left. congruence.
        -- right. by exists t.
    + intros a [Ha Hteams]%Forall_cons. rewrite (Hget a Hteams).
      apply dict_get_set_ne. congruence.
    + intros H. apply Hshape, dict_set_values; [|done].
      unfold team_entry in Hentry.
      destruct (py_get team "score" _ ≫= py_int) as [score|];
        cbn [mbind option_bind] in Hentry; [|done].
      destruct (py_get team "home_away" _) as [home_away|];
        cbn [mbind option_bind] in Hentry; [|done].
      injection Hentry as <-. by eexists _, _.
Qed.

Lemma team_stats_last_wins pre team post abbr entry d :
  team_stats_loop (pre ++ team :: post) [] = Some d →
  abbreviation_of team = Some abbr → team_entry team = Some entry →
  Forall (fun t => abbreviation_of t ≠ Some abbr) post →
  dict_get abbr d = Some entry.
Proof.
  rewrite team_stats_loop_app.
  destruct (team_stats_loop pre []) as [d1|]; cbn [mbind option_bind];
    [|done].
  rewrite team_stats_loop_step. intros Hloop Habbr Hentry Hpost.
  rewrite Habbr, Hentry in Hloop. cbn [mbind option_bind] in Hloop.
  apply team_stats_loop_spec in Hloop as (_ & _ & _ & Hget & _).
  rewrite (Hget abbr Hpost). apply dict_get_set_eq.
Qed.

Lemma scoring_loop_total plays :
  Forall play_ok plays → is_Some (scoring_loop plays).
Proof.
  induction 1 as [|play plays Hplay _ [scoring IH]]; cbn [scoring_loop];
    [by eexists|].
  destruct play as [| | | | |fields]; try by destruct Hplay.
  cbn [py_get mbind option_bind]. rewrite IH. cbn [mbind option_bind].
  by eexists.
Qed.

Lemma events_loop_total keyword play_type plays :
  is_Some (events_loop keyword play_type plays) ↔ Forall play_ok plays.
Proof.
  induction plays as [|play plays IH]; cbn [events_loop].
  - split; [constructor|by eexists].
  - rewrite Forall_cons. unfold play_ok at 1.
    destruct (py_get play "text" (JStr "") ≫= as_str) as [text|] eqn:Htext;
      cbn [mbind option_bind].
    2:{ split; [by intros [? ?]|]. by intros [[? ?] _]. }
    destruct (contains _ _).
    + assert (is_Some (tag_play play_type play text)) as [tagged ->].
      { destruct play as [| | | | |fields]; try done. unfold tag_play.
        destruct (extract_player_from_play_text text play_type) as [p|];
          [destruct (truthy (JStr p))|]; by eexists. }
      cbn [mbind option_bind]. rewrite <- IH.
      destruct (events_loop keyword play_type plays) as [more|];
        cbn [mbind option_bind].
      * split; [|by eexists]. intros _. split; by eexists.
      * split; [by intros [? ?]|]. by intros [_ [? ?]].
    + rewrite IH. split; [|by intros [_ ?]]. intros H. split; [by eexists|done].
Qed.

Lemma process_total now file_name data :
  is_Some (process_play_by_play_file now file_name (Some data))
  ↔ (∃ game_id, game_id_of data = Some game_id ∧ truthy game_id = true)
    ∧ (∃ teams, listed_teams data = Some teams ∧ Forall team_ok teams)
    ∧ (∃ plays, listed_plays data = Some plays ∧ Forall play_ok plays).
Proof.
  split.
  - intros [record Hrecord].
    apply process_play_by_play_file_inv in Hrecord
      as (data' & game_info & drives & plays & game_id & gi_date & gi_status
          & gi_venue & teams & team_stats & scoring_plays & touchdowns
          & interceptions & fumbles & [= <-] & Hgi & Hplays & Hid & Htruthy
          & Hteams & Hstats & Htds & _ & _).
    split_and!.
    + exists game_id. unfold game_id_of. rewrite Hgi.
      by cbn [mbind option_bind].
    + exists teams. unfold listed_teams. rewrite Hgi.
      cbn [mbind option_bind]. split; [done|].
      apply (team_stats_loop_total teams []). by eexists.
    + unfold _extract_touchdowns in Htds. unfold listed_plays. rewrite Hplays.
      cbn [mbind option_bind].
      destruct (py_iter plays) as [items|]; cbn [mbind option_bind] in *;
        [|done].
      exists items. split; [done|].
      apply (events_loop_total "touchdown" "touchdown"). by eexists.
  - intros ((game_id & Hid & Htruthy) & (teams & Hteams & Steams)
            & (plays & Hplays & Splays)).
    unfold game_id_of in Hid. unfold listed_teams in Hteams.
    unfold listed_plays in Hplays.
    unfold process_play_by_play_file. cbn [mbind option_bind].
    destruct (py_get data "game_info" _) as [game_info|] eqn:Hgi;
      cbn [mbind option_bind] in *; [|done].
    destruct data as [| | | | |fields]; try done.
    cbn [py_get mbind option_bind] in *.
    rewrite Hid. cbn [mbind option_bind]. rewrite Htruthy. cbn [negb].
    destruct game_info as [| | | | |info]; try done.
    cbn [py_get mbind option_bind] in *.
    unfold _create_team_stats. cbn [py_get mbind option_bind].
    rewrite Hteams. cbn [mbind option_bind].
    apply (team_stats_loop_total teams []) in Steams as [team_stats ->].
    cbn [fmap option_fmap option_map mbind option_bind].
    unfold _extract_scoring_plays, _extract_touchdowns,
      _extract_interceptions, _extract_fumbles.
    rewrite Hplays. cbn [mbind option_bind].
    destruct (scoring_loop_total plays Splays) as [scoring ->].
    cbn [mbind option_bind].
    pose proof Splays as S1. pose proof Splays as S2.
    apply (events_loop_total "touchdown" "touchdown") in Splays as [tds ->].
    apply (events_loop_total "intercept" "interception") in S1 as [ints ->].
    apply (events_loop_total "fumble" "fumble") in S2 as [fumbles ->].
    cbn [mbind option_bind]. by eexists.
Qed.


(** X4. The team statistics have one entry for each abbreviation among the
    teams, so never more entries than teams: teams that share an abbreviation,
    or that have none and are filed under "UNK", fall into one entry, which is
    that of the last of them. *)
Theorem team_stats_by_abbreviation game_info teams team_stats :
  py_get game_info "teams" (JArr []) ≫= py_iter = Some teams →
  _create_team_stats game_info = Some team_stats →
  ∃ d, team_stats = JObj d
    ∧ NoDup (map fst d)
    ∧ (length d ≤ length teams)%nat
    ∧ (∀ abbr, abbr ∈ map fst d
               ↔ ∃ team, team ∈ teams ∧ abbreviation_of team = Some abbr)
    ∧ (∀ pre team post abbr,
         teams = pre ++ team :: post →
         abbreviation_of team = Some abbr →
         Forall (fun t => abbreviation_of t ≠ Some abbr) post →
         Some <$> dict_get abbr d = Some (team_entry team)).
Proof.
  intros Hteams. unfold _create_team_stats. rewrite Hteams.
  cbn [mbind option_bind].
  destruct (team_stats_loop teams []) as [d|] eqn:Hloop;
    cbn [fmap option_fmap option_map]; [|done].
  intros [= <-]. exists d.
  pose proof (team_stats_loop_spec _ _ _ Hloop)
    as (Hnd & Hlen & Hkeys & _ & _).
  split_and!; [done|by apply Hnd, NoDup_nil_2|done| |].
  - intros abbr. rewrite Hkeys. cbn [map]. split; [|by right].
    by intros [?%not_elem_of_nil|?].
  - intros pre team post abbr -> Habbr Hpost.
    assert (team_ok team) as [_ [entry Hentry]].
    { assert (Forall team_ok (pre ++ team :: post)) as Hok
        by (apply (team_stats_loop_total _ []); by eexists).
      apply Forall_app in Hok as [_ Hok].
      by apply Forall_cons in Hok as [? _]. }
    rewrite Hentry.
    by rewrite (team_stats_last_wins _ _ _ _ _ _ Hloop Habbr Hentry Hpost).
Qed.

End ProcessedRecords.

Lemma team_stats_by_abbreviation_witness :
  let teams := [JObj [("score", JStr "21")]; JObj [("score", JNum 3)]] in
  ∃ d,
    JObj [("UNK", JObj [("score", JNum 3); ("record", JStr "0-0");
                        ("home_away", JStr "unknown")])]
    = JObj d
    ∧ NoDup (map fst d)
    ∧ (length d ≤ 2)%nat
    ∧ (∀ abbr, abbr ∈ map fst d
               ↔ ∃ team, team ∈ teams ∧ abbreviation_of team = Some abbr)
    ∧ (∀ pre team post abbr,
         teams = pre ++ team :: post →
         abbreviation_of team = Some abbr →
         Forall (fun t => abbreviation_of t ≠ Some abbr) post →
         Some <$> dict_get abbr d = Some (team_entry team)).
Proof.
  exact (team_stats_by_abbreviation sample_unnamed_teams
           [JObj [("score", JStr "21")]; JObj [("score", JNum 3)]]
           (JObj [("UNK", JObj [("score", JNum 3); ("record", JStr "0-0");
                                ("home_away", JStr "unknown")])])
           eq_refl eq_refl).
Defined.


(** ** The two stages together: records of the extractor are aggregated *)

Section RecordsAreAggregated.

Lemma teams_loop_total items :
  Forall entry_shape (map snd items) → is_Some (teams_loop items).
Proof.
  induction items as [|[abbr entry] items IH]; cbn [map snd teams_loop];
    [by eexists|].
  intros [(score & home_away & ->) [teams Hteams]%IH]%Forall_cons.
  cbn [py_get dict_get String.eqb Ascii.eqb Bool.eqb default from_option id
       mbind option_bind py_int].
  rewrite Hteams. cbn [mbind option_bind]. by eexists.
Qed.

Lemma split_on_two sep s :
  sep ∈ s → ∃ a b rest, split_on sep s = a :: b :: rest.
Proof.
  induction s as [|c s IH]; [by intros ?%not_elem_of_nil|].
  cbn [split_on]. destruct (Ascii.eqb c sep) eqn:E.
  - intros _. destruct s as [|c' s]; cbn [split_on]; [by eexists _, _, _|].
    destruct (Ascii.eqb c' sep); [by eexists _, _, _|].
    destruct (split_on sep s); by eexists _, _, _.
  - intros [->|Hin]%elem_of_cons; [by rewrite Ascii.eqb_refl in E|].
    destruct (IH Hin) as (a & b & rest & ->). by eexists _, _, _.
Qed.

Lemma tag_play_event play_type play text tagged :
  py_get play "text" (JStr "") ≫= as_str = Some text →
  player_is_text play →
  tag_play play_type play text = Some tagged → event_ok tagged.
Proof.
  intros Htext Hplayer. unfold tag_play.
  destruct play as [| | | | |fields]; try done.
  assert (event_ok (JObj fields)) as Hsame.
  { split; [by rewrite Htext|done]. }
  destruct (extract_player_from_play_text text play_type) as [player|];
    [|by intros [= <-]].
  destruct (truthy (JStr player)); intros [= <-]; [|done].
  split.
  - cbn [py_get] in *. rewrite dict_get_set_ne by done. by rewrite Htext.
  - unfold player_is_text. cbn [py_get]. by rewrite dict_get_set_eq.
Qed.

Lemma events_loop_events keyword play_type plays events :
  Forall player_is_text plays →
  events_loop keyword play_type plays = Some events →
  Forall event_ok events.
Proof.
  intros Hplays. revert events.
  induction Hplays as [|play plays Hplay _ IH]; intros events;
    cbn [events_loop].
  - intros [= <-]. constructor.
  - destruct (py_get play "text" (JStr "") ≫= as_str) as [text|] eqn:Htext;
      cbn [mbind option_bind]; [|done].
    destruct (contains _ _); [|apply IH].
    destruct (tag_play play_type play text) as [tagged|] eqn:Htag;
      cbn [mbind option_bind]; [|done].
    destruct (events_loop keyword play_type plays) as [more|];
      cbn [mbind option_bind]; [|done].
    intros [= <-]. constructor; [|by apply IH].
    by eapply tag_play_event.
Qed.

Variables (comprehensive_data : json) (team : string).
Hypothesis Hteam :
  ∀ play, _extract_team_from_play play comprehensive_data
          = Some (JStr team).

Lemma touchdown_step_total acc td :
  event_ok td → is_Some (touchdown_step comprehensive_data acc td).
Proof.
  intros [[text Htext] Hplayer]. destruct acc as [player_stats processed].
  unfold touchdown_step, player_is_text in *.
  destruct (py_get td "player" JNull) as [[| | |name| |]|];
    cbn [mbind option_bind truthy negb hashable]; try done;
    try by eexists.
  destruct (negb (String.eqb name "")); cbn [negb]; [|by eexists].
  destruct (existsb _ _); [by eexists|].
  rewrite Htext, Hteam. cbn [mbind option_bind as_str].
  repeat match goal with
         | |- context [ if ?b then _ else _ ] => destruct b
         | |- context [ match ?x with Some _ => _ | None => _ end ] =>
             destruct x
         end;
    by eexists.
Qed.

Lemma touchdown_loop_total tds acc :
  Forall event_ok tds → is_Some (touchdown_loop comprehensive_data tds acc).
Proof.
  intros Htds. revert acc.
  induction Htds as [|td tds Htd _ IH]; intros acc; cbn [touchdown_loop];
    [by eexists|].
  destruct (touchdown_step_total acc td Htd) as [acc1 ->].
  cbn [mbind option_bind]. apply IH.
Qed.

Lemma interception_loop_total ints s :
  Forall event_ok ints →
  is_Some (interception_loop comprehensive_data ints s).
Proof.
  intros Hints. revert s.
  induction Hints as [|i ints [_ Hplayer] _ IH]; intros s;
    cbn [interception_loop]; [by eexists|].
  assert (is_Some (interception_step comprehensive_data s i)) as [s1 ->].
  { unfold interception_step, player_is_text in *.
    destruct (py_get i "player" JNull) as [[| | |name| |]|];
      cbn [mbind option_bind truthy negb]; try done; try by eexists.
    destruct (negb (String.eqb name "")); cbn [negb]; [|by eexists].
    rewrite Hteam. cbn [mbind option_bind as_str]. by eexists. }
  cbn [mbind option_bind]. apply IH.
Qed.

End RecordsAreAggregated.

Section RecordsAreAggregatedMain.

Lemma extraction_total now file_name data record plays :
  process_play_by_play_file now file_name (Some data) = Some record →
  listed_plays data = Some plays → Forall player_is_text plays →
  is_Some (extract_player_stats_from_comprehensive record).
Proof.
  intros Hrecord Hplays Hplayers.
  destruct (team_of_record _ _ _ _ Hrecord) as (team & Hteam & _).
  apply process_play_by_play_file_inv in Hrecord
    as (data' & game_info & drives & plays_json & game_id & gi_date
        & gi_status & gi_venue & teams & team_stats & scoring_plays
        & touchdowns & interceptions & fumbles & [= <-] & Hgi & Hpj & _ & _
        & _ & _ & Htds & Hints & Hrec).
  unfold listed_plays in Hplays. rewrite Hpj in Hplays.
  cbn [mbind option_bind] in Hplays.
  unfold _extract_touchdowns in Htds. unfold _extract_interceptions in Hints.
  rewrite Hplays in Htds, Hints. cbn [mbind option_bind] in Htds, Hints.
  apply (events_loop_events _ _ _ _ Hplayers) in Htds.
  apply (events_loop_events _ _ _ _ Hplayers) in Hints.
  unfold extract_player_stats_from_comprehensive.
  assert (py_get record "play_by_play" (JObj [])
          = Some (JObj [("game_info", game_info); ("drives", drives);
                        ("plays", plays_json);
                        ("scoring_plays", JArr scoring_plays);
                        ("touchdowns", JArr touchdowns);
                        ("interceptions", JArr interceptions);
                        ("fumbles", JArr fumbles)])) as -> by by subst record.
  cbn [mbind option_bind py_get dict_get String.eqb Ascii.eqb Bool.eqb
       default from_option id py_iter].
  destruct (touchdown_loop_total record team Hteam touchdowns (no_stats, [])
              Htds) as [[stats1 processed1] ->].
  cbn [mbind option_bind].
  apply (interception_loop_total record team Hteam); done.
Qed.

Lemma game_info_total now file_name content record filename :
  process_play_by_play_file now file_name content = Some record →
  "_"%char ∈ chars_of filename →
  is_Some (extract_game_info record filename).
Proof.
  intros (data & game_info & drives & plays_json & game_id & gi_date
          & gi_status & gi_venue & teams & team_stats & scoring_plays
          & touchdowns & interceptions & fumbles & -> & Hgi & Hpj & _ & _
          & _ & Hstats & _ & _ & ->)%process_play_by_play_file_inv Hname.
  apply team_stats_loop_spec in Hstats as (_ & _ & _ & _ & Hshape).
  destruct (teams_loop_total team_stats (Hshape (Forall_nil_2 _)))
    as [teams_list Hteams].
  destruct (split_on_two "_" _ Hname) as (a & b & rest & Hsplit).
  unfold extract_game_info.
  cbn [mbind option_bind py_get dict_get String.eqb Ascii.eqb Bool.eqb
       default from_option id].
  rewrite Hteams, Hsplit. cbn [mbind option_bind].
  assert (∃ pair,
            (if is_dict gi_status
             then type_obj ← py_get gi_status "type" (JObj []);
                  if is_dict type_obj
                  then game_status ← py_get type_obj "description"
                                       (JStr "Final");
                       is_completed ← py_get type_obj "completed"
                                        (JBool false);
                       Some (game_status, is_completed)
                  else game_status ← py_get gi_status "description"
                                       (JStr "Final");
                       Some (game_status, JBool true)
             else Some (JStr (py_str gi_status), JBool true))
            = Some pair) as [[game_status is_completed] ->].
  { destruct gi_status as [| | | | |status]; cbn [is_dict]; try by eexists.
    cbn [py_get mbind option_bind].
    destruct (default (JObj []) (dict_get "type" status)) as [| | | | |ty];
      cbn [is_dict py_get mbind option_bind]; by eexists. }
  cbn [mbind option_bind lookup list_lookup]. by eexists.
Qed.

(** X19. A record that the extractor has written is never an error for the
    aggregator, as long as no raw play came with a 'player' field other than a
    string or null and the name of the comprehensive file has an underscore:
    the game summary and the statistics can both be extracted. *)
Theorem extractor_records_are_aggregated now file_name data record plays
    filename :
  process_play_by_play_file now file_name (Some data) = Some record →
  listed_plays data = Some plays → Forall player_is_text plays →
  "_"%char ∈ chars_of filename →
  is_Some (extract_game_info record filename)
  ∧ is_Some (extract_player_stats_from_comprehensive record).
Proof.
  intros Hrecord Hplays Hplayers Hname. split.
  - by eapply game_info_total.
  - by eapply extraction_total.
Qed.

End RecordsAreAggregatedMain.

Lemma extractor_records_are_aggregated_witness :
  match process_play_by_play_file "2025-08-10T09:30:00"
          "2025-08-09_401773001_play_by_play.json" (Some sample_raw) with
  | Some record =>
      is_Some (extract_game_info record "2025-08-09_401773001_complete.json")
      ∧ is_Some (extract_player_stats_from_comprehensive record)
  | None => False
  end.
Proof.
  destruct (process_play_by_play_file _ _ (Some sample_raw)) as [record|]
    eqn:H.
  - apply (extractor_records_are_aggregated _ _ _ record _
             "2025-08-09_401773001_complete.json" H eq_refl).
    + repeat constructor.
    + apply list_elem_of_In. vm_compute. tauto.
  - vm_compute in H. discriminate H.
Defined.

(** ** Properties of the Weekly Aggregator: the weeks of the table *)

Section WeeksOfAugust.

Lemma digit_val_range lo hi c l h :
  digit_val lo = l → digit_val hi = h →
  in_range lo hi c = true → l <= digit_val c <= h.
Proof.
  unfold in_range, digit_val.
  intros <- <- [H1%N.leb_le H2%N.leb_le]%andb_true_iff. lia.
Qed.

Lemma parse_day_positive s d : parse_day s = Some d → 1 <= d.
Proof.
  unfold parse_day. destruct s as [|a [|b [|c s]]]; try done.
  - destruct (in_range "1" "9" a) eqn:Ha; [|done]. intros [= <-].
    apply (digit_val_range "1" "9" _ 1 9 eq_refl eq_refl) in Ha.
    unfold digits_val. cbn [fold_left]. lia.
  - destruct (_ || _) eqn:Hcase.
    + intros [= <-]. unfold digits_val. cbn [fold_left].
      apply orb_true_iff in Hcase as [Hcase|Hcase];
        [apply orb_true_iff in Hcase as [Hcase|Hcase]|];
        apply andb_true_iff in Hcase as [Ha Hb].
      * apply Ascii.eqb_eq in Ha as ->.
        apply (digit_val_range "0" "1" _ 0 1 eq_refl eq_refl) in Hb.
        change (digit_val "3") with 3. lia.
      * apply (digit_val_range "1" "2" _ 1 2 eq_refl eq_refl) in Ha.
        apply (digit_val_range "0" "9" _ 0 9 eq_refl eq_refl) in Hb. lia.
      * apply Ascii.eqb_eq in Ha as ->.
        apply (digit_val_range "1" "9" _ 1 9 eq_refl eq_refl) in Hb.
        change (digit_val "0") with 0. lia.
    + destruct (Ascii.eqb a " " && in_range "1" "9" b) eqn:Hblank; [|done].
      intros [= <-].
      apply andb_true_iff in Hblank as [_ Hb].
      apply (digit_val_range "1" "9" _ 1 9 eq_refl eq_refl) in Hb. lia.
Qed.

Lemma strptime_valid s d :
  strptime s = Some d →
  1 <= year d ∧ 1 <= day d <= days_in_month (year d) (month d).
Proof.
  unfold strptime.
  destruct (split_on "-" s) as [|ys [|ms [|ds [|? ?]]]]; try done.
  destruct (parse_year ys) as [y|]; cbn [mbind option_bind]; [|done].
  destruct (parse_month ms) as [m|]; cbn [mbind option_bind]; [|done].
  destruct (parse_day ds) as [dd|] eqn:Hday; cbn [mbind option_bind];
    [|done].
  destruct (_ && _) eqn:Hcheck; [|done]. intros [= <-]. cbn [year month day].
  apply andb_true_iff in Hcheck as [Hy%Z.leb_le Hd%Z.leb_le].
  apply parse_day_positive in Hday. lia.
Qed.

Lemma date_le_between y m a b d :
  date_le (Date y m a) d && date_le d (Date y m b) = true
  ↔ year d = y ∧ month d = m ∧ a <= day d <= b.
Proof.
  unfold date_le. destruct d as [y' m' dd]. cbn [year month day].
  rewrite !andb_true_iff, !orb_true_iff, !andb_true_iff, !orb_true_iff,
    !andb_true_iff, !Z.ltb_lt, !Z.eqb_eq, !Z.leb_le.
  lia.
Qed.

Lemma date_le_in_month y m a b d :
  year d = y → month d = m →
  date_le (Date y m a) d && date_le d (Date y m b)
  = (a <=? day d) && (day d <=? b).
Proof.
  intros <- <-. unfold date_le. cbn [year month day].
  by rewrite !Z.ltb_irrefl, !Z.eqb_refl.
Qed.

Lemma week_of_date date_str d :
  strptime (chars_of date_str) = Some d →
  get_week_for_date date_str
  = Some (if (year d =? 2025) && (month d =? 8)
          then Some (week_of_day (day d)) else None).
Proof.
  intros Hd. pose proof (strptime_valid _ _ Hd) as (_ & Hday1 & Hday2).
  unfold get_week_for_date. rewrite Hd. cbn [mbind option_bind].
  unfold week_ranges. cbn [week_loop].
  change (strptime (chars_of "2025-08-01")) with (Some (Date 2025 8 1)).
  change (strptime (chars_of "2025-08-11")) with (Some (Date 2025 8 11)).
  change (strptime (chars_of "2025-08-12")) with (Some (Date 2025 8 12)).
  change (strptime (chars_of "2025-08-18")) with (Some (Date 2025 8 18)).
  change (strptime (chars_of "2025-08-19")) with (Some (Date 2025 8 19)).
  change (strptime (chars_of "2025-08-25")) with (Some (Date 2025 8 25)).
  change (strptime (chars_of "2025-08-26")) with (Some (Date 2025 8 26)).
  change (strptime (chars_of "2025-08-31")) with (Some (Date 2025 8 31)).
  cbn [mbind option_bind].
  destruct ((year d =? 2025) && (month d =? 8)) eqn:Hin.
  - apply andb_true_iff in Hin as [Hy%Z.eqb_eq Hm%Z.eqb_eq].
    rewrite !(date_le_in_month 2025 8 _ _ d Hy Hm).
    rewrite Hy, Hm in Hday2. change (days_in_month 2025 8) with 31 in Hday2.
    unfold week_of_day.
    repeat (match goal with
            | |- context [ ?a <=? ?b ] => destruct (Z.leb_spec a b)
            end; try lia);
      reflexivity.
  - assert (∀ a b, date_le (Date 2025 8 a) d && date_le d (Date 2025 8 b)
                   = false) as Hout.
    { intros a b. apply not_true_iff_false.
      intros (Hy & Hm & _)%date_le_between.
      by rewrite Hy, Hm in Hin. }
    by rewrite !Hout.
Qed.

(** X17. The table of weeks covers August 2025 and nothing else: a date of
    that month has the week of its day (1 to 11, 12 to 18, 19 to 25, 26 to
    31), any other date that [strptime] accepts has no week. *)
Theorem weeks_cover_august_2025 date_str d :
  strptime (chars_of date_str) = Some d →
  get_week_for_date date_str
  = Some (if (year d =? 2025) && (month d =? 8)
          then Some (week_of_day (day d)) else None).
Proof. exact (week_of_date date_str d). Qed.

End WeeksOfAugust.

Lemma weeks_cover_august_2025_witness :
  get_week_for_date "2025-8-19" = Some (Some 3).
Proof.
  exact (weeks_cover_august_2025 "2025-8-19" (Date 2025 8 19) eq_refl).
Defined.

(** ** Properties of the Weekly Aggregator: flagged teams *)

Section FlaggedTeams.

Lemma py_eq_side v side : py_eq v (JStr side) = true → v = JStr side.
Proof.
  destruct v; cbn; try done. by intros ->%String.eqb_eq.
Qed.

Lemma side_of_Some side teams t :
  side_of side teams = Some t → t ∈ teams ∧ t_home_away t = JStr side.
Proof.
  unfold side_of. induction teams as [|t' teams IH]; cbn [find]; [done|].
  destruct (py_eq (t_home_away t') (JStr side)) eqn:E.
  - intros [= <-]. split; [by left|]. by apply py_eq_side.
  - intros [Hin Hflag]%IH. split; [by right|done].
Qed.

Lemma flagged_game comprehensive_data filename box_score items teams home
    away info :
  py_get comprehensive_data "box_score" (JObj []) = Some box_score →
  py_get box_score "team_stats" (JObj []) = Some (JObj items) →
  teams_loop items = Some teams →
  side_of "home" teams = Some home → side_of "away" teams = Some away →
  extract_game_info comprehensive_data filename = Some info →
  ∃ completed,
    py_get info "completed" JNull = Some completed
    ∧ py_get info "name" JNull = Some (JStr (game_name completed away home))
    ∧ py_get info "home_team" JNull = Some (team_json home)
    ∧ py_get info "away_team" JNull = Some (team_json away).
Proof.
  intros Hbox Hstats Hteams Hhome Haway.
  unfold extract_game_info. rewrite Hbox. cbn [mbind option_bind].
  destruct (py_get box_score "game_info" _) as [game_info|];
    cbn [mbind option_bind]; [|done].
  rewrite Hstats. cbn [mbind option_bind]. rewrite Hteams.
  cbn [mbind option_bind].
  destruct (py_get game_info "status" _) as [status_obj|];
    cbn [mbind option_bind]; [|done].
  match goal with
  | |- context [ ?x ≫= _ ] => destruct x as [[game_status completed]|]
  end; cbn [mbind option_bind]; [|done].
  rewrite Hhome, Haway. cbn [default from_option id].
  destruct (side_of_Some _ _ _ Hhome) as [Hin_home Hflag_home].
  destruct (side_of_Some _ _ _ Haway) as [Hin_away Hflag_away].
  destruct teams as [|first [|second teams]].
  - by apply not_elem_of_nil in Hin_home.
  - apply list_elem_of_singleton in Hin_home, Hin_away. congruence.
  - repeat match goal with
           | |- context [ ?x ≫= _ ] =>
               destruct x; cbn [mbind option_bind]; [|done]
           end.
    intros [= <-]. exists completed. by split_and!.
Qed.


End FlaggedTeams.


(** ** Properties of the Event Extractor: which plays are listed *)

Section ListedPlays.

Lemma scoring_loop_exact plays scoring_plays :
  scoring_loop plays = Some scoring_plays →
  scoring_plays = filter is_scoring plays.
Proof.
  revert scoring_plays.
  induction plays as [|play plays IH]; intros scoring_plays;
    cbn [scoring_loop].
  - by intros [= <-].
  - rewrite filter_cons.
    destruct (is_scoring play) eqn:Hflag; unfold is_scoring in Hflag;
      [rewrite decide_True by done|rewrite decide_False by (by intros ?)];
      (destruct (py_get play "scoring_play" (JBool false)) as [flag|];
       cbn [mbind option_bind]; [|done]);
      (destruct (scoring_loop plays) as [more|]; cbn [mbind option_bind];
       [|done]);
      intros [= <-]; rewrite <- (IH more eq_refl); by rewrite Hflag.
Qed.

Lemma events_loop_exact keyword play_type plays events :
  events_loop keyword play_type plays = Some events →
  Forall2 (tagged_copy play_type) (filter (mentions keyword) plays) events.
Proof.
  revert events. induction plays as [|play plays IH]; intros events;
    cbn [events_loop].
  - intros [= <-]. constructor.
  - rewrite filter_cons.
    destruct (mentions keyword play) eqn:Hword; unfold mentions in Hword;
      [rewrite decide_True by done|rewrite decide_False by (by intros ?)];
      (destruct (py_get play "text" (JStr "")) as [text|] eqn:Hget;
       cbn [mbind option_bind] in *; [|done]);
      (destruct text as [| | |text| |];
       cbn [as_str mbind option_bind] in *; try done);
      rewrite Hword.
    + destruct (tag_play play_type play text) as [tagged|] eqn:Htag;
        cbn [mbind option_bind]; [|done].
      destruct (events_loop keyword play_type plays) as [more|];
        cbn [mbind option_bind]; [|done].
      intros [= <-].
      constructor; [by eapply tag_play_tagged|by apply IH].
    + apply IH.
Qed.

Lemma listed_plays_of_record now file_name content record :
  process_play_by_play_file now file_name content = Some record →
  ∃ plays touchdowns interceptions fumbles,
    (record_list record "plays" ≫= py_iter) = Some plays
    ∧ record_list record "scoring_plays"
      = Some (JArr (filter is_scoring plays))
    ∧ record_list record "touchdowns" = Some (JArr touchdowns)
    ∧ Forall2 (tagged_copy "touchdown")
        (filter (mentions "touchdown") plays) touchdowns
    ∧ record_list record "interceptions" = Some (JArr interceptions)
    ∧ Forall2 (tagged_copy "interception")
        (filter (mentions "intercept") plays) interceptions
    ∧ record_list record "fumbles" = Some (JArr fumbles)
    ∧ Forall2 (tagged_copy "fumble")
        (filter (mentions "fumble") plays) fumbles.
Proof.
  unfold process_play_by_play_file.
  destruct content as [data|]; [|done]. cbn [mbind option_bind].
  repeat match goal with
         | |- context [ ?x ≫= _ ] =>
             destruct x eqn:?; cbn [mbind option_bind]; [|done]
         end.
  destruct (negb _); [done|].
  repeat match goal with
         | |- context [ ?x ≫= _ ] =>
             destruct x eqn:?; cbn [mbind option_bind]; [|done]
         end.
  intros [= <-].
  unfold _extract_scoring_plays, _extract_touchdowns, _extract_interceptions,
    _extract_fumbles in *.
  match goal with
  | H : py_iter ?p ≫= scoring_loop = Some _ |- _ =>
      destruct (py_iter p) as [plays|] eqn:Hplays;
      cbn [mbind option_bind] in *; [|done]
  end.
  repeat match goal with
         | H : scoring_loop _ = Some _ |- _ =>
             apply scoring_loop_exact in H as ->
         | H : events_loop _ _ _ = Some _ |- _ =>
             apply events_loop_exact in H
         end.
  eexists plays, _, _, _. split_and!; try reflexivity; try done.
Qed.

(** X3. In a comprehensive record the scoring plays are the plays flagged as
    such, untouched, and the touchdowns, interceptions and fumbles are the
    tagged copies of exactly the plays whose text mentions "touchdown",
    "intercept" or "fumble" in any case, in the order of the plays, whether or
    not a player could be inferred. *)
Theorem derived_lists_hold_the_keyword_plays now file_name content record :
  process_play_by_play_file now file_name content = Some record →
  ∃ plays touchdowns interceptions fumbles,
    (record_list record "plays" ≫= py_iter) = Some plays
    ∧ record_list record "scoring_plays"
      = Some (JArr (filter is_scoring plays))
    ∧ record_list record "touchdowns" = Some (JArr touchdowns)
    ∧ Forall2 (tagged_copy "touchdown")
        (filter (mentions "touchdown") plays) touchdowns
    ∧ record_list record "interceptions" = Some (JArr interceptions)
    ∧ Forall2 (tagged_copy "interception")
        (filter (mentions "intercept") plays) interceptions
    ∧ record_list record "fumbles" = Some (JArr fumbles)
    ∧ Forall2 (tagged_copy "fumble")
        (filter (mentions "fumble") plays) fumbles.
Proof. exact (listed_plays_of_record now file_name content record). Qed.

End ListedPlays.

Lemma derived_lists_hold_the_keyword_plays_witness :
  match process_play_by_play_file "2025-08-10T09:30:00"
          "2025-08-09_401773001_play_by_play.json" (Some sample_raw) with
  | Some record =>
      ∃ plays touchdowns interceptions fumbles,
        (record_list record "plays" ≫= py_iter) = Some plays
        ∧ record_list record "scoring_plays"
          = Some (JArr (filter is_scoring plays))
        ∧ record_list record "touchdowns" = Some (JArr touchdowns)
        ∧ Forall2 (tagged_copy "touchdown")
            (filter (mentions "touchdown") plays) touchdowns
        ∧ record_list record "interceptions" = Some (JArr interceptions)
        ∧ Forall2 (tagged_copy "interception")
            (filter (mentions "intercept") plays) interceptions
        ∧ record_list record "fumbles" = Some (JArr fumbles)
        ∧ Forall2 (tagged_copy "fumble")
            (filter (mentions "fumble") plays) fumbles
  | None => False
  end.
Proof.
  destruct (process_play_by_play_file _ _ (Some sample_raw)) as [record|]
    eqn:H.
  - exact (derived_lists_hold_the_keyword_plays _ _ _ record H).
  - vm_compute in H. discriminate H.
Defined.
